(** * oaipmh: record search expressions and the harvest command

    A shallow embedding of [recordsearch.go] (values, AST, evaluator, parser,
    native function registry) and of the harvest command (directory
    partitioning, file naming, dry run, the choice of the harvester), with
    the properties stated about them.

    Conventions.
    - Go's [int] is modelled as [Z] with 64-bit two's-complement wrap-around
      written out ([wrap]); [rune] is a [Z] as well.
    - A Go interface or pointer that may be [nil] is an [option].
    - A Go result pair [(v, err)] is a pair [(option _, option error)].
    - Side effects (log lines, file-system calls, process launches) are
      recorded, in order, in a [World]; Go code runs in the monad [M], which
      threads the world and may panic or exit.
    - Functions of Go's standard library, of [xmlpath] and of the files of the
      repository that are not modelled here are the fields of [GoEnv]. *)

From stdpp Require Import base strings list gmap.
From Stdlib Require Import ZArith Lia Sorted.

Set Warnings "-register-all".

Local Open Scope Z_scope.

(* ------------------------------------------------------------------------- *)
(** ** Go integers *)

Module GoInt.

Definition min_int : Z := - 2 ^ 63.
Definition max_int : Z := 2 ^ 63 - 1.

(** Two's-complement reduction of a mathematical integer to [int]. *)
Definition wrap (z : Z) : Z := (z + 2 ^ 63) mod 2 ^ 64 - 2 ^ 63.

Definition in_range (z : Z) : Prop := min_int <= z <= max_int.

Definition add (a b : Z) : Z := wrap (a + b).

(** [a / b] for [b <> 0]: truncated toward zero; [min_int / -1] wraps. *)
Definition quot (a b : Z) : Z := wrap (Z.quot a b).

(** [a % b] for [b <> 0]: the sign follows the dividend. *)
Definition rem (a b : Z) : Z := Z.rem a b.

End GoInt.

(* ------------------------------------------------------------------------- *)
(** ** Strings *)

Module GoStrings.

(** [strings.HasPrefix(s, prefix)] *)
Definition HasPrefix (s prefix : string) : bool := String.prefix prefix s.

(** [strings.Contains(s, substr)] *)
Fixpoint Contains (s substr : string) : bool :=
  String.prefix substr s ||
  match s with
  | EmptyString => false
  | String _ s' => Contains s' substr
  end.

Definition digit (d : Z) : string :=
  String (Ascii.ascii_of_nat (Z.to_nat (48 + d))) EmptyString.

(** Decimal digits of a non-negative integer, most significant first. *)
Fixpoint digits (fuel : nat) (z : Z) (acc : string) : string :=
  match fuel with
  | O => acc
  | S f =>
      let acc' := digit (z mod 10) +:+ acc in
      if z <? 10 then acc' else digits f (z / 10) acc'
  end.

Definition utoa (z : Z) : string := digits (S (Z.to_nat (Z.log2 z))) z "".

(** [strconv.Itoa] *)
Definition itoa (z : Z) : string :=
  if z <? 0 then "-" +:+ utoa (- z) else utoa z.

Fixpoint replicate_str (n : nat) (c : string) : string :=
  match n with
  | O => ""
  | S n' => c +:+ replicate_str n' c
  end.

(** The verb [%8d]: right-justified in a field of eight, padded with
    spaces. *)
Definition fmt_8d (z : Z) : string :=
  let s := itoa z in
  replicate_str (8 - String.length s) " " +:+ s.

(** The verb [%02d]: width two, padded with zeros after the sign. *)
Definition fmt_02d (z : Z) : string :=
  if z <? 0 then
    let s := utoa (- z) in
    "-" +:+ replicate_str (1 - String.length s) "0" +:+ s
  else
    let s := utoa z in
    replicate_str (2 - String.length s) "0" +:+ s.

End GoStrings.

(* ------------------------------------------------------------------------- *)
(** ** Errors, effects and the monad of Go code *)

(** The values of Go's [error] that this program produces or passes on. *)
Inductive error : Type :=
| Errorf (msg : string)               (* fmt.Errorf(msg) *)
| etoken (Expected Actual : Z)        (* &etoken{Expected, Actual} *)
| ErrSyntax                           (* strconv.ErrSyntax *)
| LibError (msg : string).            (* an error of xmlpath, os or exec *)

(** What the program does to the outside, one constructor per call. *)
Inductive Event : Type :=
| LogPrint (msg : string)                              (* log.Printf, log.Println *)
| StderrPrint (msg : string)                           (* fmt.Fprintf(os.Stderr, ...) *)
| OsMkdirAll (path : string) (perm : Z)                (* os.MkdirAll *)
| OsCreate (name : string)                             (* os.Create *)
| FileWriteString (name : string) (s : string)         (* file.WriteString *)
| FileClose (name : string)                            (* file.Close *)
| CmdStart (dir : string) (name : string) (args : list string). (* cmd.Start *)

(** The events so far, oldest first. *)
Definition World : Type := list Event.

Inductive outcome (A : Type) : Type :=
| Return (a : A)
| Panic (msg : string)
| Exit (code : Z).

Arguments Return {A} a.
Arguments Panic {A} msg.
Arguments Exit {A} code.

Definition M (A : Type) : Type := World -> outcome A * World.

#[global] Instance M_ret : MRet M := fun A a w => (Return a, w).

#[global] Instance M_bind : MBind M := fun A B f m w =>
  match m w with
  | (Return a, w') => f a w'
  | (Panic msg, w') => (Panic msg, w')
  | (Exit code, w') => (Exit code, w')
  end.

Definition emit (e : Event) : M unit := fun w => (Return tt, w ++ [e]).
Definition panic {A : Type} (msg : string) : M A := fun w => (Panic msg, w).
Definition os_Exit {A : Type} (code : Z) : M A := fun w => (Exit code, w).
Definition get_world : M World := fun w => (Return w, w).

(** The events that touch the disk or launch a process: everything but the
    two kinds of log line. *)
Definition is_side_effect (e : Event) : bool :=
  match e with
  | LogPrint _ | StderrPrint _ => false
  | _ => true
  end.

Definition side_effects (w : World) : list Event := List.filter is_side_effect w.

(* ------------------------------------------------------------------------- *)
(** ** Records and what is taken from outside the two files *)

(** Modelled from the spec: the [RecordResult] type is declared in a file not
    modelled here; the spec gives it an identifier ([Identifier()]) and the raw
    content ([Content]). *)
Record RecordResult : Type := mkRecordResult {
  Identifier : string;
  Content : string
}.

(** Token classes of [text/scanner]. *)
Module scanner.
Definition EOF : Z := -1.
Definition Ident : Z := -2.
Definition Int : Z := -3.
Definition Float : Z := -4.
Definition Char : Z := -5.
Definition String : Z := -6.
Definition RawString : Z := -7.
Definition Comment : Z := -8.
End scanner.

Class GoEnv : Type := {
  (** [text/scanner], in the mode [ParseRSExpr] sets: the tokens [Scan]
      returns for a source text, each with its [TokenText], up to the end of
      the input. *)
  scanner_tokens : string -> list (Z * string);
  (** [scanner.TokenString] *)
  scanner_TokenString : Z -> string;
  (** [strconv.Unquote]; [None] is [ErrSyntax]. *)
  strconv_Unquote : string -> option string;
  (** [strings.TrimSpace] *)
  strings_TrimSpace : string -> string;
  (** [strings.Replace(s, old, new, n)] *)
  strings_Replace : string -> string -> string -> Z -> string;
  (** [launchpad.net/xmlpath] *)
  xmlpath_Path : Type;
  xmlpath_Node : Type;
  xmlpath_Compile : string -> xmlpath_Path + error;
  xmlpath_Parse : string -> xmlpath_Node + error;
  xmlpath_String : xmlpath_Path -> xmlpath_Node -> string * bool;
  (** [filepath.Join] of two elements, [path.Base], [path.Dir] *)
  filepath_Join : string -> string -> string;
  path_Base : string -> string;
  path_Dir : string -> string;
  (** [os.Create]: the error it returns, from the name and the events so far *)
  os_Create_err : string -> World -> option error;
  (** [cmd.Start]: the error it returns for a command run in [dir] *)
  cmd_Start_err : string -> string -> list string -> World -> option error;
  (** [time.Now().Format("20060102T150405")] *)
  time_Now_Format : World -> string;
  (** [EscapeIdForFilename], [DebugLogLevel] and [TraceLogLevel], declared in
      files of the repository not modelled here. *)
  EscapeIdForFilename : string -> string;
  DebugLogLevel : Z;
  TraceLogLevel : Z
}.

(* ------------------------------------------------------------------------- *)
(** ** Values *)

Inductive RSExprValue : Type :=
| RSString (s : string)
| RSBool (b : bool).

Definition Bool (v : RSExprValue) : bool :=
  match v with
  | RSString s => negb (String.eqb s "")
  | RSBool b => b
  end.

Definition String (v : RSExprValue) : string :=
  match v with
  | RSString s => s
  | RSBool b => if b then "true" else "false"
  end.

Definition nil_dereference : string :=
  "invalid memory address or nil pointer dereference".

(** A method call on an interface value: on [nil] it panics. *)
Definition call_Bool (v : option RSExprValue) : M bool :=
  match v with
  | Some v => mret (Bool v)
  | None => panic nil_dereference
  end.

Definition call_String (v : option RSExprValue) : M string :=
  match v with
  | Some v => mret (String v)
  | None => panic nil_dereference
  end.

(** [args[i]] on a slice. *)
Definition index {A : Type} (args : list A) (i : nat) : M A :=
  match args !! i with
  | Some a => mret a
  | None => panic "index out of range"
  end.

(** The result pair of a native function or of an evaluation. *)
Definition RSResult : Type := option RSExprValue * option error.

Definition RSNativeFunction : Type :=
  RecordResult -> list (option RSExprValue) -> M RSResult.

(* ------------------------------------------------------------------------- *)
(** ** AST nodes and their evaluation *)

Inductive RSExprAst : Type :=
| RSExprFnCall (Fn : RSNativeFunction) (FnArgs : list (option RSExprAst))
| RSExprLiteral (val : option RSExprValue).

(** The loop of [RSExprFnCall.Evaluate] from index [i] on: [argValues[i]] is
    assigned the value of the [i]-th argument; the first error ends it. *)
Fixpoint evalArgs (Evaluate : option RSExprAst -> M RSResult)
    (FnArgs : list (option RSExprAst))
    (i : nat) (argValues : list (option RSExprValue))
    : M (list (option RSExprValue) + error) :=
  match FnArgs with
  | [] => mret (inl argValues)
  | arg :: rest =>
      '(val, err) ← Evaluate arg;
      match err with
      | Some e => mret (inr e)
      | None => evalArgs Evaluate rest (S i) (<[i := val]> argValues)
      end
  end.

Fixpoint Evaluate (ast : RSExprAst) (rr : RecordResult) {struct ast} : M RSResult :=
  match ast with
  | RSExprFnCall Fn FnArgs =>
      let argValues := replicate (length FnArgs) None in
      r ← evalArgs (fun arg =>
                      match arg with
                      | Some a => Evaluate a rr
                      | None => panic nil_dereference
                      end) FnArgs 0 argValues;
      match r with
      | inr err => mret (None, Some err)
      | inl argValues => Fn rr argValues
      end
  | RSExprLiteral val => mret (val, None)
  end.

(** A call of [Evaluate] on an interface value, which may be [nil]. *)
Definition call_Evaluate (a : option RSExprAst) (rr : RecordResult) : M RSResult :=
  match a with
  | Some a => Evaluate a rr
  | None => panic nil_dereference
  end.

(** [ExprRecordSearcher]: a record searcher over a parsed expression. *)
Record ExprRecordSearcher : Type := mkExprRecordSearcher {
  ast : option RSExprAst
}.

Definition SearchRecord (ers : ExprRecordSearcher) (rr : RecordResult)
    : M (bool * string * option error) :=
  '(res, err) ← call_Evaluate (ast ers) rr;
  match err with
  | Some _ => mret (false, "", err)
  | None =>
      b ← call_Bool res;
      s ← call_String res;
      mret (b, s, None)
  end.

(* ------------------------------------------------------------------------- *)
(** ** Native functions *)

Section NativeFunctions.
Context {env : GoEnv}.

(** [xp(<xpath>)]: the result of the XPath expression over the record,
    trimmed. *)
Definition native_xp : RSNativeFunction := fun rr args =>
  if negb (length args =? 1)%nat then
    mret (None, Some (Errorf "xp() expects exactly 1 argument"))
  else
    a0 ← index args 0;
    s ← call_String a0;
    match xmlpath_Compile s with
    | inr err => mret (None, Some err)
    | inl path =>
        match xmlpath_Parse (Content rr) with
        | inr err => mret (None, Some err)
        | inl n =>
            let '(val, _) := xmlpath_String path n in
            mret (Some (RSString (strings_TrimSpace val)), None)
        end
    end.

(** The loop of [concat]: [buf.WriteString(arg.String())] for each [arg]. *)
Fixpoint concat_loop (args : list (option RSExprValue)) (buf : string) : M string :=
  match args with
  | [] => mret buf
  | arg :: rest =>
      s ← call_String arg;
      concat_loop rest (buf +:+ s)
  end.

(** [concat(<strs>...)] *)
Definition native_concat : RSNativeFunction := fun rr args =>
  buf ← concat_loop args "";
  mret (Some (RSString buf), None).

(** [startsWith(<str>, <prefix>)] *)
Definition native_startsWith : RSNativeFunction := fun rr args =>
  if negb (length args =? 2)%nat then
    mret (None, Some (Errorf "startsWith() expects exactly 2 argument"))
  else
    a0 ← index args 0;
    s0 ← call_String a0;
    a1 ← index args 1;
    s1 ← call_String a1;
    if GoStrings.HasPrefix s0 s1 then mret (a0, None)
    else mret (Some (RSString ""), None).

(** [contains(<str>, <substring>)] *)
Definition native_contains : RSNativeFunction := fun rr args =>
  if negb (length args =? 2)%nat then
    mret (None, Some (Errorf "contains() expects exactly 2 argument"))
  else
    a0 ← index args 0;
    s0 ← call_String a0;
    a1 ← index args 1;
    s1 ← call_String a1;
    if GoStrings.Contains s0 s1 then mret (a0, None)
    else mret (Some (RSString ""), None).

(** [urn()] *)
Definition native_urn : RSNativeFunction := fun rr args =>
  mret (Some (RSString (Identifier rr)), None).

(** [replace(<str>, <substr>, <new>)] *)
Definition native_replace : RSNativeFunction := fun rr args =>
  if negb (length args =? 3)%nat then
    mret (None, Some (Errorf "contains() expects exactly 3 argument"))
  else
    a0 ← index args 0;
    s0 ← call_String a0;
    a1 ← index args 1;
    s1 ← call_String a1;
    a2 ← index args 2;
    s2 ← call_String a2;
    mret (Some (RSString (strings_Replace s0 s1 s2 (-1))), None).

Definition NATIVE_FUNCTIONS : gmap string RSNativeFunction :=
  list_to_map [
    ("xp", native_xp);
    ("concat", native_concat);
    ("startsWith", native_startsWith);
    ("contains", native_contains);
    ("urn", native_urn);
    ("replace", native_replace)
  ].

End NativeFunctions.

(* ------------------------------------------------------------------------- *)
(** ** The parser *)

(** The record search parser: [scan] is what the scanner has still to
    deliver, [tok] and [tokText] the token of lookahead. *)
Record recordSearchParser : Type := mkParser {
  scan : list (Z * string);
  tok : Z;
  tokText : string
}.

(** [rsp.scan.Scan()] with [rsp.scan.TokenText()]: the next token, and [EOF]
    with an empty text once the input is exhausted. *)
Definition Scan (s : list (Z * string)) : (Z * string) * list (Z * string) :=
  match s with
  | [] => ((scanner.EOF, ""), [])
  | t :: s' => (t, s')
  end.

Definition nextToken (rsp : recordSearchParser) : recordSearchParser :=
  if negb (tok rsp =? scanner.EOF) then
    let '((t, txt), s') := Scan (scan rsp) in
    {| scan := s'; tok := t; tokText := txt |}
  else rsp.

Definition nextTokenIs (rsp : recordSearchParser) (t : Z) : bool :=
  tok rsp =? t.

Definition consume (rsp : recordSearchParser) (t : Z)
    : (string * option error) * recordSearchParser :=
  if tok rsp =? t then
    ((tokText rsp, None), nextToken rsp)
  else
    (("", Some (etoken t (tok rsp))), rsp).

(** The runes of the punctuation. *)
Definition rune_lparen : Z := 40.
Definition rune_rparen : Z := 41.
Definition rune_comma : Z := 44.

Definition newline : string := String.String (Ascii.ascii_of_nat 10) "".

(** What a parsing method returns: the result pair and the parser as the
    method leaves it. *)
Definition Parsed : Type := (option RSExprAst * option error) * recordSearchParser.

Section Parser.
Context {env : GoEnv}.

Definition readString (rsp : recordSearchParser)
    : (string * option error) * recordSearchParser :=
  if (tok rsp =? scanner.String) || (tok rsp =? scanner.RawString) then
    match strconv_Unquote (tokText rsp) with
    | None => (("", Some ErrSyntax), rsp)
    | Some s =>
        let '(_, rsp) := consume rsp (tok rsp) in
        ((s, None), rsp)
    end
  else
    (("", Some (Errorf ("Expected string but got " +:+
                        scanner_TokenString (tok rsp) +:+ newline))), rsp).

(** An atom: a string. *)
Definition parseAtom (rsp : recordSearchParser) : Parsed :=
  let '((str, err), rsp) := readString rsp in
  ((Some (RSExprLiteral (Some (RSString str))), err), rsp).

(** The loop of [parseFn], run until the token is a closing parenthesis;
    [None] when the fuel is used up before the loop ends. *)
Fixpoint parseFnArgs (parseExpr : recordSearchParser -> option Parsed)
    (fuel : nat) (rsp : recordSearchParser) (args : list (option RSExprAst))
    : option ((list (option RSExprAst) + error) * recordSearchParser) :=
  match fuel with
  | O => None
  | S fuel =>
      if negb (tok rsp =? rune_rparen) then
        let '((_, err), rsp) :=
          if (0 <? length args)%nat then consume rsp rune_comma
          else (("", None), rsp) in
        match err with
        | Some e => Some (inr e, rsp)
        | None =>
            match parseExpr rsp with
            | None => None
            | Some ((arg, Some e), rsp) => Some (inr e, rsp)
            | Some ((arg, None), rsp) =>
                parseFnArgs parseExpr fuel rsp (args ++ [arg])
            end
        end
      else Some (inl args, rsp)
  end.

(** A function call: an identifier, then optionally a parenthesised list
    of expressions separated by commas. *)
Definition parseFn (parseExpr : recordSearchParser -> option Parsed)
    (fuel : nat) (rsp : recordSearchParser) : option Parsed :=
  let '((fnName, err), rsp) := consume rsp scanner.Ident in
  match err with
  | Some e => Some ((None, Some e), rsp)
  | None =>
      match NATIVE_FUNCTIONS !! fnName with
      | None => Some ((None, Some (Errorf ("No such function: " +:+ fnName))), rsp)
      | Some fn =>
          if nextTokenIs rsp rune_lparen then
            let '(_, rsp) := consume rsp rune_lparen in
            match parseFnArgs parseExpr fuel rsp [] with
            | None => None
            | Some (inr e, rsp) => Some ((None, Some e), rsp)
            | Some (inl args, rsp) =>
                let '((_, err), rsp) := consume rsp rune_rparen in
                match err with
                | Some e => Some ((None, Some e), rsp)
                | None => Some ((Some (RSExprFnCall fn args), None), rsp)
                end
            end
          else
            Some ((Some (RSExprFnCall fn []), None), rsp)
      end
  end.

(** An expression: a function call or an atom; [None] when the fuel is
    used up. *)
Fixpoint parseExpr (fuel : nat) (rsp : recordSearchParser) : option Parsed :=
  match fuel with
  | O => None
  | S fuel =>
      if tok rsp =? scanner.Ident then parseFn (parseExpr fuel) fuel rsp
      else Some (parseAtom rsp)
  end.

(** The parser [ParseRSExpr] sets up over the tokens of the text: [tok] is
    the zero rune until the first [nextToken]. *)
Definition newParser (tokens : list (Z * string)) : recordSearchParser :=
  nextToken {| scan := tokens; tok := 0; tokText := "" |}.

(** Fuel that is enough for a parser with [n] tokens ahead. *)
Definition parse_fuel (n : nat) : nat := 3 * n + 4.

(** [ParseRSExpr] from the tokens on, with the parser as it is left. *)
Definition ParseRSExpr_tokens (tokens : list (Z * string)) : option Parsed :=
  match parseExpr (parse_fuel (length tokens)) (newParser tokens) with
  | None => None
  | Some ((ast, None), rsp) => Some ((ast, None), rsp)
  | Some ((ast, Some e), rsp) => Some ((None, Some e), rsp)
  end.

(** [ParseRSExpr]; the fuel never runs out ([ParseRSExpr_returns] below),
    the last case is there for the definition to be total. *)
Definition ParseRSExpr (expr : string) : option RSExprAst * option error :=
  match ParseRSExpr_tokens (scanner_tokens expr) with
  | Some (r, _) => r
  | None => (None, None)
  end.

Definition ParseRecordMatchExpr (expr : string)
    : option ExprRecordSearcher * option error :=
  match ParseRSExpr expr with
  | (ast, None) => (Some (mkExprRecordSearcher ast), None)
  | (ast, Some e) => (None, Some e)
  end.

End Parser.

(* ------------------------------------------------------------------------- *)
(** ** The harvest command *)

(** The fields of [HarvestCommand] that the methods below read or write;
    [Ctx_LogLevel] is [lc.Ctx.LogLevel]. The flags that only select and
    configure the harvester are left out. *)
Record HarvestCommand : Type := mkHarvestCommand {
  Ctx_LogLevel : Z;
  dryRun : bool;
  compressDirs : bool;
  filenameFilter : string;
  filenameFilterAst : option RSExprAst;
  maxDirSize : Z;
  dirPrefix : string;
  recordCount : Z;
  lastDirId : Z
}.

Definition set_dryRun (lc : HarvestCommand) (b : bool) :=
  mkHarvestCommand (Ctx_LogLevel lc) b (compressDirs lc) (filenameFilter lc)
    (filenameFilterAst lc) (maxDirSize lc) (dirPrefix lc) (recordCount lc) (lastDirId lc).

Definition set_filenameFilterAst (lc : HarvestCommand) (a : option RSExprAst) :=
  mkHarvestCommand (Ctx_LogLevel lc) (dryRun lc) (compressDirs lc) (filenameFilter lc)
    a (maxDirSize lc) (dirPrefix lc) (recordCount lc) (lastDirId lc).

Definition set_dirPrefix (lc : HarvestCommand) (p : string) :=
  mkHarvestCommand (Ctx_LogLevel lc) (dryRun lc) (compressDirs lc) (filenameFilter lc)
    (filenameFilterAst lc) (maxDirSize lc) p (recordCount lc) (lastDirId lc).

Definition set_recordCount (lc : HarvestCommand) (n : Z) :=
  mkHarvestCommand (Ctx_LogLevel lc) (dryRun lc) (compressDirs lc) (filenameFilter lc)
    (filenameFilterAst lc) (maxDirSize lc) (dirPrefix lc) n (lastDirId lc).

Definition set_lastDirId (lc : HarvestCommand) (d : Z) :=
  mkHarvestCommand (Ctx_LogLevel lc) (dryRun lc) (compressDirs lc) (filenameFilter lc)
    (filenameFilterAst lc) (maxDirSize lc) (dirPrefix lc) (recordCount lc) d.

(** What a harvester calls on its observer. *)
Inductive ObserverCall : Type :=
| CallOnRecord (rr : RecordResult)
| CallOnError (err : error)
| CallOnCompleted (harvested skipped errors : Z).

(** Modelled from the spec: the three harvesters are in files not modelled
    here. By their contract [Harvest(observer)] delivers every admitted record
    to [OnRecord], every failure to [OnError] and the totals to [OnCompleted],
    one call at a time; a harvester is the sequence of the calls it makes. *)
Definition Harvester : Type := list ObserverCall.

Section Harvest.
Context {env : GoEnv}.

(** [err.Error()] *)
Definition Error (e : error) : string :=
  match e with
  | Errorf msg => msg
  | etoken Expected Actual =>
      "Expected " +:+ scanner_TokenString Expected +:+ " but got " +:+
      scanner_TokenString Actual
  | ErrSyntax => "invalid syntax"
  | LibError msg => msg
  end.

(** The name of the directory of a directory id. *)
Definition dirName (lc : HarvestCommand) (dirId : Z) : string :=
  dirPrefix lc +:+ "/" +:+ GoStrings.fmt_02d dirId.

(** The file name to use: the string the filter returns, or else the URN
    of the record. *)
Definition filterFilename (lc : HarvestCommand) (res : RecordResult) : M string :=
  let resId := Identifier res in
  match filenameFilterAst lc with
  | Some a =>
      '(r, err) ← Evaluate a res;
      match err, r with
      | None, Some v =>
          if Bool v then mret (String v)
          else
            emit (LogPrint (resId +:+
              ": warn: filename filter returned false, using the URN"));;
            mret resId
      | Some e, _ =>
          emit (LogPrint (resId +:+
            ": error in filename filter, using the URN: " +:+ Error e));;
          mret resId
      | None, None =>
          emit (LogPrint (resId +:+
            ": warn: filename filter returned false, using the URN"));;
          mret resId
      end
  | None => mret resId
  end.

Definition empty_basename : string := "__empty__".

(** Saves the record. *)
Definition saveRecordToDir (lc : HarvestCommand) (dirId : Z) (res : RecordResult)
    : M unit :=
  let dir := dirName lc dirId in
  filename ← filterFilename lc res;
  let fileBaseName := EscapeIdForFilename filename in
  fileBaseName ←
    (if String.eqb fileBaseName "" then
       emit (LogPrint
         "warn: using file basename '__empty__' for record with an empty identifier");;
       mret empty_basename
     else mret fileBaseName);
  let outFile := filepath_Join dir (fileBaseName +:+ ".xml") in
  emit (OsMkdirAll dir 493);;
  w ← get_world;
  emit (OsCreate outFile);;
  match os_Create_err outFile w with
  | Some err => panic (Error err)
  | None =>
      emit (FileWriteString outFile (Content res));;
      emit (FileClose outFile)
  end.

(** Closes the current directory before a new one is written to. *)
Definition closeDir (lc : HarvestCommand) (dirId : Z) : M unit :=
  if dryRun lc then mret tt
  else
    let dir := dirName lc dirId in
    if compressDirs lc then
      let base := path_Base dir in
      let parent := path_Dir dir in
      (if Ctx_LogLevel lc >=? TraceLogLevel then
         emit (LogPrint ("Compressing " +:+ base +:+ " -> " +:+ dir +:+ ".zip"))
       else mret tt);;
      let args := ["-m"; "-r"; base +:+ ".zip"; base] in
      w ← get_world;
      emit (CmdStart parent "zip" args);;
      match cmd_Start_err parent "zip" args w with
      | Some _ => emit (StderrPrint ("Cannot compress '" +:+ dir +:+ "'" +:+ newline))
      | None => mret tt
      end
    else mret tt.

Definition saveRecord (lc : HarvestCommand) (res : RecordResult) : M HarvestCommand :=
  let lc := set_recordCount lc (GoInt.add (recordCount lc) 1) in
  if maxDirSize lc =? 0 then panic "integer divide by zero"
  else
    let dirId := GoInt.add (GoInt.quot (recordCount lc) (maxDirSize lc)) 1 in
    lc ← (if negb (dirId =? lastDirId lc) then
            closeDir lc (lastDirId lc);;
            mret (set_lastDirId lc dirId)
          else mret lc);
    (if Ctx_LogLevel lc >=? DebugLogLevel then
       emit (LogPrint (GoStrings.fmt_8d (recordCount lc) +:+ "  " +:+
                       Identifier res +:+ newline))
     else mret tt);;
    (if GoInt.rem (recordCount lc) 1000 =? 0 then
       emit (LogPrint ("Harvested " +:+ GoStrings.itoa (recordCount lc) +:+
                       " records" +:+ newline))
     else mret tt);;
    (if negb (dryRun lc) then saveRecordToDir lc dirId res else mret tt);;
    mret lc.

(** The contract with the harvester's observer. *)
Definition OnRecord (lc : HarvestCommand) (rr : RecordResult) : M HarvestCommand :=
  saveRecord lc rr.

Definition OnError (lc : HarvestCommand) (err : error) : M HarvestCommand :=
  emit (LogPrint ("ERROR: " +:+ Error err +:+ newline));;
  mret lc.

Definition OnCompleted (lc : HarvestCommand) (harvested skipped errors : Z)
    : M HarvestCommand :=
  emit (LogPrint ("Finished: " +:+ GoStrings.itoa harvested +:+
                  " records harvested, " +:+ GoStrings.itoa skipped +:+
                  " records skipped, " +:+ GoStrings.itoa errors +:+ " errors"));;
  mret lc.

Definition observe (lc : HarvestCommand) (c : ObserverCall) : M HarvestCommand :=
  match c with
  | CallOnRecord rr => OnRecord lc rr
  | CallOnError err => OnError lc err
  | CallOnCompleted h s e => OnCompleted lc h s e
  end.

(** [harvester.Harvest(lc)] *)
Fixpoint harvestWithHarvester (lc : HarvestCommand) (harvester : Harvester)
    : M HarvestCommand :=
  match harvester with
  | [] => mret lc
  | c :: rest =>
      lc ← observe lc c;
      harvestWithHarvester lc rest
  end.

(** [Run], on the harvester that [harvest] builds from the flags. *)
Definition Run (lc : HarvestCommand) (harvester : Harvester) : M HarvestCommand :=
  lc ← (if negb (String.eqb (filenameFilter lc) "") then
          match ParseRSExpr (filenameFilter lc) with
          | (a, None) => mret (set_filenameFilterAst lc a)
          | (_, Some err) =>
              emit (LogPrint ("Error in filename filter: " +:+ Error err));;
              os_Exit 1
          end
        else mret lc);
  let lc := set_lastDirId lc 1 in
  w ← get_world;
  let lc := set_dirPrefix lc (time_Now_Format w) in
  lc ← harvestWithHarvester lc harvester;
  closeDir lc (lastDirId lc);;
  mret lc.

End Harvest.

(* ------------------------------------------------------------------------- *)
(** ** The choice of the harvester *)

(** What the choice of the harvester takes from files of the repository that
    are not modelled here. *)
Class HarvesterEnv : Type := {
  (** the type of the dates in [ListIdentifierArgs], and [parseDateString],
      which may log, panic or exit *)
  Date : Type;
  parseDateString : string -> M Date;
  (** [lc.Ctx.Session] *)
  Session : Type;
  (** the guards [LiveRecordsPredicate] and [LiveRecordsHeaderPredicate] *)
  Guard : Type;
  LiveRecordsPredicate : Guard;
  HeaderGuard : Type;
  LiveRecordsHeaderPredicate : HeaderGuard
}.

Section Choice.
Context {env : GoEnv} {henv : HarvesterEnv}.

(** Modelled from the spec: [ListIdentifierArgs] is declared in a file not
    modelled here; the spec gives it a set and the two bounds of the dates,
    the fields that [genListIdentifierArgsFromCommandLine] sets. *)
Record ListIdentifierArgs : Type := mkListIdentifierArgs {
  Set_ : string;
  From : Date;
  Until : Date
}.

(** Modelled from the spec: the three harvesters are declared in files not
    modelled here; each is given the fields that the struct literals of
    [harvest] set. *)
Inductive HarvesterValue : Type :=
| FileHarvester (Session_ : Session) (Filename : string)
    (FirstResult MaxResults Workers : Z) (Guard_ : Guard)
| ListAndGetRecordHarvester (Session_ : Session) (ListArgs : ListIdentifierArgs)
    (FirstResult MaxResults Workers : Z) (HarvestGuard : HeaderGuard) (Guard_ : Guard)
| ListRecordHarvester (Session_ : Session) (ListArgs : ListIdentifierArgs)
    (FirstResult MaxResults : Z) (Guard_ : Guard).

(** The fields of [HarvestCommand] that select and configure the harvester,
    with [lc.Ctx.Session] and [lc.Ctx.Provider.Set]. *)
Record HarvestSelection : Type := mkHarvestSelection {
  Ctx_Session : Session;
  Ctx_Provider_Set : string;
  listAndGet : bool;
  setName : string;
  beforeDate : string;
  afterDate : string;
  fromFile : string;
  firstResult : Z;
  maxResults : Z;
  downloadWorkers : Z
}.

(** Get list identifier arguments. *)
Definition genListIdentifierArgsFromCommandLine (sel : HarvestSelection)
    : M ListIdentifierArgs :=
  let set := setName sel in
  let set :=
    if String.eqb set "" then Ctx_Provider_Set sel
    else if String.eqb set "*" then ""
    else set in
  from ← parseDateString (afterDate sel);
  until ← parseDateString (beforeDate sel);
  mret {| Set_ := set; From := from; Until := until |}.

(** List the identifiers from a provider. [Harvest] stands for the method
    [Harvest] of the harvesters: the calls a harvester makes on its
    observer. *)
Definition harvest (Harvest : HarvesterValue -> Harvester)
    (lc : HarvestCommand) (sel : HarvestSelection) : M HarvestCommand :=
  args ← genListIdentifierArgsFromCommandLine sel;
  let harvester :=
    if negb (String.eqb (fromFile sel) "") then
      FileHarvester (Ctx_Session sel) (fromFile sel) (firstResult sel)
        (maxResults sel) (downloadWorkers sel) LiveRecordsPredicate
    else if listAndGet sel then
      ListAndGetRecordHarvester (Ctx_Session sel) args (firstResult sel)
        (maxResults sel) (downloadWorkers sel) LiveRecordsHeaderPredicate
        LiveRecordsPredicate
    else
      ListRecordHarvester (Ctx_Session sel) args (firstResult sel)
        (maxResults sel) LiveRecordsPredicate in
  harvestWithHarvester lc (Harvest harvester).

End Choice.

(* ------------------------------------------------------------------------- *)
(** ** A sample environment

    Stand-ins for the library functions, on which the definitions can be run:
    a scanner and an unquoting for ASCII text without escapes, file names
    joined with a slash, an [xmlpath] that finds nothing, a disk and a [zip]
    that never fail. The theorems hold for every environment; this one serves
    the examples. *)

Module Sample.

Definition dquote : Ascii.ascii := Ascii.ascii_of_nat 34.
Definition bquote : Ascii.ascii := Ascii.ascii_of_nat 96.
Definition slash : Ascii.ascii := Ascii.ascii_of_nat 47.
Definition underscore : Ascii.ascii := Ascii.ascii_of_nat 95.

Definition is_space (c : Ascii.ascii) : bool :=
  let n := Ascii.nat_of_ascii c in
  ((n =? 32) || (n =? 9) || (n =? 10) || (n =? 13))%nat.

Definition is_letter (c : Ascii.ascii) : bool :=
  let n := Ascii.nat_of_ascii c in
  (((65 <=? n) && (n <=? 90)) || ((97 <=? n) && (n <=? 122)) || (n =? 95))%nat.

Definition is_digit (c : Ascii.ascii) : bool :=
  let n := Ascii.nat_of_ascii c in
  ((48 <=? n) && (n <=? 57))%nat.

(** The longest prefix of [s] whose characters satisfy [p], and the rest. *)
Fixpoint span (p : Ascii.ascii -> bool) (s : string) : string * string :=
  match s with
  | String.String c s' =>
      if p c then let '(a, b) := span p s' in (String.String c a, b)
      else ("", s)
  | EmptyString => ("", "")
  end.

(** The text up to and with the closing [quote], and the rest. *)
Fixpoint quoted (quote : Ascii.ascii) (s : string) : string * string :=
  match s with
  | String.String c s' =>
      if Ascii.eqb c quote then (String.String c "", s')
      else let '(a, b) := quoted quote s' in (String.String c a, b)
  | EmptyString => ("", "")
  end.

Fixpoint tokens (fuel : nat) (s : string) : list (Z * string) :=
  match fuel, s with
  | S fuel, String.String c s' =>
      if is_space c then tokens fuel s'
      else if is_letter c then
        let '(a, b) := span (fun c => is_letter c || is_digit c) s' in
        (scanner.Ident, String.String c a) :: tokens fuel b
      else if Ascii.eqb c dquote then
        let '(a, b) := quoted c s' in
        (scanner.String, String.String c a) :: tokens fuel b
      else if Ascii.eqb c bquote then
        let '(a, b) := quoted c s' in
        (scanner.RawString, String.String c a) :: tokens fuel b
      else
        (Z.of_nat (Ascii.nat_of_ascii c), String.String c "") :: tokens fuel s'
  | _, _ => []
  end.

(** The text between the quotes of a token that has no escapes. *)
Definition unquote (s : string) : option string :=
  match s with
  | String.String q s' =>
      let '(a, b) := quoted q s' in
      if (Ascii.eqb q dquote || Ascii.eqb q bquote) && String.eqb b ""
         && (1 <=? String.length a)%nat
         && negb (GoStrings.Contains a "\")
      then Some (String.substring 0 (String.length a - 1) a)
      else None
  | EmptyString => None
  end.

Definition token_string (t : Z) : string :=
  if t =? scanner.EOF then "EOF"
  else if t =? scanner.Ident then "Ident"
  else if t =? scanner.String then "String"
  else if t =? scanner.RawString then "RawString"
  else String.String dquote (String.String (Ascii.ascii_of_nat (Z.to_nat t))
         (String.String dquote "")).

Fixpoint trim_left (s : string) : string :=
  match s with
  | String.String c s' => if is_space c then trim_left s' else s
  | EmptyString => ""
  end.

Definition trim (s : string) : string :=
  String.rev (trim_left (String.rev (trim_left s))).

(** Replaces every occurrence of a non-empty [old]. *)
Fixpoint replace_all (fuel : nat) (s old new : string) : string :=
  match fuel, s with
  | S fuel, String.String c s' =>
      if String.prefix old s && negb (String.eqb old "") then
        new +:+ replace_all fuel
                  (String.substring (String.length old)
                     (String.length s - String.length old) s) old new
      else String.String c (replace_all fuel s' old new)
  | _, _ => s
  end.

Fixpoint last_slash (s : string) (i : nat) (found : option nat) : option nat :=
  match s with
  | String.String c s' =>
      last_slash s' (S i) (if Ascii.eqb c slash then Some i else found)
  | EmptyString => found
  end.

Definition base (s : string) : string :=
  match last_slash s 0 None with
  | Some i => String.substring (S i) (String.length s - S i) s
  | None => s
  end.

Definition dir (s : string) : string :=
  match last_slash s 0 None with
  | Some i => String.substring 0 i s
  | None => "."
  end.

(** Slashes become underscores. *)
Fixpoint escape (s : string) : string :=
  match s with
  | String.String c s' =>
      String.String (if Ascii.eqb c slash then underscore else c) (escape s')
  | EmptyString => ""
  end.

#[local] Instance env : GoEnv := {|
  scanner_tokens := fun s => tokens (String.length s) s;
  scanner_TokenString := token_string;
  strconv_Unquote := unquote;
  strings_TrimSpace := trim;
  strings_Replace := fun s old new _ => replace_all (String.length s) s old new;
  xmlpath_Path := string;
  xmlpath_Node := string;
  xmlpath_Compile := fun s => inl s;
  xmlpath_Parse := fun s => inl s;
  xmlpath_String := fun _ _ => ("", false);
  filepath_Join := fun a b => a +:+ "/" +:+ b;
  path_Base := base;
  path_Dir := dir;
  os_Create_err := fun _ _ => None;
  cmd_Start_err := fun _ _ _ _ => None;
  time_Now_Format := fun _ => "20240101T000000";
  EscapeIdForFilename := escape;
  DebugLogLevel := 2;
  TraceLogLevel := 3
|}.

(** A command as the flags leave it by default, with the given directory
    size. *)
Definition command (size : Z) : HarvestCommand := {|
  Ctx_LogLevel := 0;
  dryRun := false;
  compressDirs := false;
  filenameFilter := "";
  filenameFilterAst := None;
  maxDirSize := size;
  dirPrefix := "";
  recordCount := 0;
  lastDirId := 0
|}.

Definition record (id : string) : RecordResult :=
  {| Identifier := id; Content := "<record/>" |}.

(** A command at the start of the harvest: directory size [size], prefix
    [T], [lastDirId] set to one. *)
Definition started (size : Z) : HarvestCommand :=
  set_lastDirId (set_dirPrefix (command size) "T") 1.

Definition four_records : Harvester :=
  [CallOnRecord (record "a"); CallOnRecord (record "b");
   CallOnRecord (record "c"); CallOnRecord (record "d")].

Definition saved (dir name : string) : list Event :=
  [OsMkdirAll dir 493; OsCreate (dir +:+ "/" +:+ name);
   FileWriteString (dir +:+ "/" +:+ name) "<record/>";
   FileClose (dir +:+ "/" +:+ name)].

Definition xp_arity_error : error := Errorf "xp() expects exactly 1 argument".

(** [xp] called without arguments: its evaluation returns an arity error. *)
Definition xp_no_args : RSExprAst := RSExprFnCall native_xp [].

Definition literal (s : string) : option RSExprAst :=
  Some (RSExprLiteral (Some (RSString s))).

(** A function that panics when it is invoked. *)
Definition never_called : RSNativeFunction := fun _ _ => panic "invoked".

Definition urn_token : Z * string := (scanner.Ident, "urn").
Definition at_end : recordSearchParser := {| scan := []; tok := scanner.EOF; tokText := "" |}.

(** The tokens of [concat(`a`, urn)], the node they stand for, and the
    parser after them when the identifier [urn] follows. *)
Definition concat_tokens : list (Z * string) :=
  [(scanner.Ident, "concat"); (rune_lparen, "("); (scanner.RawString, "`a`");
   (rune_comma, ","); urn_token; (rune_rparen, ")")].

Definition concat_call : RSExprAst :=
  RSExprFnCall native_concat [literal "a"; Some (RSExprFnCall native_urn [])].

Definition before_urn : recordSearchParser :=
  {| scan := []; tok := scanner.Ident; tokText := "urn" |}.

(** The run of four records from [started 2]: the state and the events it
    leaves. *)
Definition after_four : HarvestCommand :=
  set_lastDirId (set_recordCount (started 2) 4) 3.

Definition four_saved : World :=
  saved "T/01" "a.xml" ++ saved "T/02" "b.xml" ++
  saved "T/02" "c.xml" ++ saved "T/03" "d.xml".

(** A command with a filename filter, and one that compresses its
    directories. *)
Definition filtered (text : string) : HarvestCommand := {|
  Ctx_LogLevel := 0;
  dryRun := false;
  compressDirs := false;
  filenameFilter := text;
  filenameFilterAst := None;
  maxDirSize := 2;
  dirPrefix := "";
  recordCount := 0;
  lastDirId := 0
|}.

Definition compressing : HarvestCommand := {|
  Ctx_LogLevel := 0;
  dryRun := false;
  compressDirs := true;
  filenameFilter := "";
  filenameFilterAst := None;
  maxDirSize := 2;
  dirPrefix := "";
  recordCount := 0;
  lastDirId := 0
|}.

(** Stand-ins for what the choice of the harvester takes from outside:
    dates that are their own text, and a file harvester that delivers one
    record, named after its file. *)
#[local] Instance henv : HarvesterEnv := {|
  Date := string;
  parseDateString := fun s => mret s;
  Session := unit;
  Guard := unit;
  LiveRecordsPredicate := tt;
  HeaderGuard := unit;
  LiveRecordsHeaderPredicate := tt
|}.

Definition selection (set file : string) (lg : bool) : HarvestSelection := {|
  Ctx_Session := tt;
  Ctx_Provider_Set := "physics";
  listAndGet := lg;
  setName := set;
  beforeDate := "2024-02-01";
  afterDate := "2024-01-01";
  fromFile := file;
  firstResult := 0;
  maxResults := 100000;
  downloadWorkers := 4
|}.

Definition calls (harvester : HarvesterValue) : Harvester :=
  match harvester with
  | FileHarvester _ file _ _ _ _ => [CallOnRecord (record file)]
  | _ => []
  end.

End Sample.

(* ------------------------------------------------------------------------- *)
(** ** The notions of the statements *)

Section Vocabulary.
Context {env : GoEnv}.

(** The arguments evaluate one after the other, from the left, each without
    an error: from [w] on they leave the values [vs] and the world [w']. *)
Inductive ArgsEvaluate (rr : RecordResult)
    : list (option RSExprAst) -> World -> list (option RSExprValue) -> World -> Prop :=
| ArgsEvaluate_nil w : ArgsEvaluate rr [] w [] w
| ArgsEvaluate_cons arg rest w val w1 vals w2 :
    call_Evaluate arg rr w = (Return (val, None), w1) ->
    ArgsEvaluate rr rest w1 vals w2 ->
    ArgsEvaluate rr (arg :: rest) w (val :: vals) w2.

(** The number of tokens the parser can still consume. *)
Definition ahead (rsp : recordSearchParser) : nat :=
  if tok rsp =? scanner.EOF then O else S (length (scan rsp)).

Definition total_at (parse : recordSearchParser -> option Parsed) (bound : nat) : Prop :=
  forall rsp, (ahead rsp < bound)%nat ->
    exists r rsp', parse rsp = Some (r, rsp') /\
      (ahead rsp' <= ahead rsp)%nat /\
      (r.2 = None -> (ahead rsp' < ahead rsp)%nat).

(** The tokens from the token of lookahead on. *)
Definition pending (rsp : recordSearchParser) : list (Z * string) :=
  if tok rsp =? scanner.EOF then [] else (tok rsp, tokText rsp) :: scan rsp.

(** The scanner returns [EOF] at the end of the input only. *)
Definition no_EOF (tokens : list (Z * string)) : Prop :=
  Forall (fun t => t.1 <> scanner.EOF) tokens.

(** The error of [parseFn] for a name that is not in the registry. *)
Definition unknown_function (fnName : string) : error :=
  Errorf ("No such function: " +:+ fnName).




(** The tokens do not start with an opening parenthesis. *)
Definition no_lparen_first (tokens : list (Z * string)) : Prop :=
  match tokens with
  | (t, _) :: _ => t <> rune_lparen
  | [] => True
  end.




(** Events that are log lines only. *)
Definition only_logs (events : list Event) : Prop :=
  Forall (fun e => is_side_effect e = false) events.

(** The base name that [saveRecordToDir] derives from the result of the
    filename filter, in the words of the description: the string form of a
    result that is true, and the identifier of the record in every other
    case. *)
Definition chosen_filename (r : RSResult) (res : RecordResult) : string :=
  match r with
  | (Some v, None) => if Bool v then String v else Identifier res
  | _ => Identifier res
  end.

(** The name of the file for a chosen base name. *)
Definition out_file (lc : HarvestCommand) (dirId : Z) (filename : string) : string :=
  let escaped := EscapeIdForFilename filename in
  filepath_Join (dirName lc dirId)
    ((if String.eqb escaped "" then "__empty__" else escaped) +:+ ".xml").

(** What [saveRecordToDir] does once the file name is chosen, from [w] on. *)
Definition writes_file (lc : HarvestCommand) (dirId : Z) (filename : string)
    (res : RecordResult) (w : World) : outcome unit * World :=
  let outFile := out_file lc dirId filename in
  let w1 := w ++ [OsMkdirAll (dirName lc dirId) 493] in
  match os_Create_err outFile w1 with
  | Some err => (Panic (Error err), w1 ++ [OsCreate outFile])
  | None =>
      (Return tt,
       w1 ++ [OsCreate outFile; FileWriteString outFile (Content res);
              FileClose outFile])
  end.

(** [saveRecord lc res] in [w] returns [lc'] and [w'], and the record is
    saved by [saveRecordToDir] into the directory [dirId]. *)
Definition saves_to (lc : HarvestCommand) (res : RecordResult) (w : World)
    (dirId : Z) (lc' : HarvestCommand) (w' : World) : Prop :=
  saveRecord lc res w = (Return lc', w') /\
  lastDirId lc' = dirId /\
  exists before, saveRecordToDir lc' dirId res (w ++ before) = (Return tt, w').

(** The directory ids that the calls of [OnRecord] leave in [lastDirId], in
    the order of the calls, as long as the run goes on. *)
Fixpoint targetDirIds (lc : HarvestCommand) (harvester : Harvester) (w : World)
    : list Z :=
  match harvester with
  | [] => []
  | c :: rest =>
      match observe lc c w with
      | (Return lc', w') =>
          match c with
          | CallOnRecord _ => [lastDirId lc']
          | _ => []
          end ++ targetDirIds lc' rest w'
      | _ => []
      end
  end.

(** The invariant of the partitioner with [n] calls still to come. *)
Definition partition_inv (lc : HarvestCommand) (n : nat) : Prop :=
  0 < maxDirSize lc /\ 0 <= recordCount lc /\
  recordCount lc + Z.of_nat n < GoInt.max_int /\
  lastDirId lc <= recordCount lc / maxDirSize lc + 1.

(** The nodes the parser builds: literals that hold a string, and calls of
    registered functions on nodes of the same kind. *)
Fixpoint parsed_ast (a : RSExprAst) : Prop :=
  match a with
  | RSExprLiteral val => exists s, val = Some (RSString s)
  | RSExprFnCall Fn FnArgs =>
      (exists fnName, NATIVE_FUNCTIONS !! fnName = Some Fn) /\
      (fix all (l : list (option RSExprAst)) : Prop :=
         match l with
         | [] => True
         | Some a' :: l' => parsed_ast a' /\ all l'
         | None :: _ => False
         end) FnArgs
  end.

(** Every argument is a node the parser builds. *)
Definition parsed_args (l : list (option RSExprAst)) : Prop :=
  Forall (fun arg => exists a, arg = Some a /\ parsed_ast a) l.

(** A result pair as the registered functions return it: a value and no
    error, or an error and no value. *)
Definition value_or_error (r : RSResult) : Prop :=
  (exists v, r = (Some v, None)) \/ (exists e, r = (None, Some e)).

(** A function that, on values that are not [nil], returns a value or an
    error and leaves the world as it is. *)
Definition pure_function (Fn : RSNativeFunction) : Prop :=
  forall rr args w, Forall is_Some args ->
    exists r, Fn rr args w = (Return r, w) /\ value_or_error r.

(** What the induction over a call assumes of an argument. *)
Definition arg_holds (P : RSExprAst -> Prop) (arg : option RSExprAst) : Prop :=
  match arg with
  | Some a => P a
  | None => True
  end.

(** Induction over the nodes and, in a call, over its arguments. *)
Fixpoint RSExprAst_nested_ind (P : RSExprAst -> Prop)
    (Hlit : forall val, P (RSExprLiteral val))
    (Hcall : forall Fn FnArgs,
        Forall (arg_holds P) FnArgs -> P (RSExprFnCall Fn FnArgs))
    (a : RSExprAst) {struct a} : P a :=
  match a with
  | RSExprLiteral val => Hlit val
  | RSExprFnCall Fn FnArgs =>
      Hcall Fn FnArgs
        ((fix go (l : list (option RSExprAst)) : Forall (arg_holds P) l :=
            match l with
            | [] => @List.Forall_nil _ (arg_holds P)
            | arg :: l' =>
                @List.Forall_cons _ (arg_holds P) arg l'
                  (match arg return arg_holds P arg with
                   | Some a' => RSExprAst_nested_ind P Hlit Hcall a'
                   | None => I
                   end)
                  (go l')
            end) FnArgs)
  end.

Definition parsed_at (parse : recordSearchParser -> option Parsed) : Prop :=
  forall rsp arg rsp', parse rsp = Some ((arg, None), rsp') ->
    exists a, arg = Some a /\ parsed_ast a.

(** The number of records a harvester delivers. *)
Definition admitted (harvester : Harvester) : nat :=
  length (List.filter (fun c => match c with CallOnRecord _ => true | _ => false end)
            harvester).

(** **** The errors of the parser *)

(** The errors of the parser, each with the token at which the parser
    stopped: a name that is not registered; something that is not a string
    where an expression has to start; a string that [strconv.Unquote] refuses;
    something that is neither a comma nor a closing parenthesis after an
    argument. *)
Definition parse_error_at (e : error) (rsp : recordSearchParser) : Prop :=
  (exists fnName, e = unknown_function fnName /\ NATIVE_FUNCTIONS !! fnName = None) \/
  (e = Errorf ("Expected string but got " +:+
               scanner_TokenString (tok rsp) +:+ newline) /\
   tok rsp <> scanner.Ident /\ tok rsp <> scanner.String /\
   tok rsp <> scanner.RawString) \/
  (e = ErrSyntax /\ (tok rsp = scanner.String \/ tok rsp = scanner.RawString) /\
   strconv_Unquote (tokText rsp) = None) \/
  (e = etoken rune_comma (tok rsp) /\ tok rsp <> rune_comma /\ tok rsp <> rune_rparen).

Definition errors_at (parse : recordSearchParser -> option Parsed) : Prop :=
  forall rsp a e rsp', parse rsp = Some ((a, Some e), rsp') -> parse_error_at e rsp'.

(** **** The grammar of the parser *)

(** The grammar in the comments of the parser, over tokens, with the node
    each phrase stands for: an expression is a string, or an identifier of
    the registry, alone or followed by a parenthesised list of expressions
    separated by commas. [More] is the rest of such a list, every expression
    in it with a comma before it. *)
Inductive Expr : list (Z * string) -> RSExprAst -> Prop :=
| Expr_atom t text s :
    t = scanner.String \/ t = scanner.RawString ->
    strconv_Unquote text = Some s ->
    Expr [(t, text)] (RSExprLiteral (Some (RSString s)))
| Expr_bare fnName fn :
    NATIVE_FUNCTIONS !! fnName = Some fn ->
    Expr [(scanner.Ident, fnName)] (RSExprFnCall fn [])
| Expr_empty fnName fn t1 t2 :
    NATIVE_FUNCTIONS !! fnName = Some fn ->
    Expr [(scanner.Ident, fnName); (rune_lparen, t1); (rune_rparen, t2)]
         (RSExprFnCall fn [])
| Expr_call fnName fn t1 first a more args t2 :
    NATIVE_FUNCTIONS !! fnName = Some fn ->
    Expr first a -> More more args ->
    Expr ((scanner.Ident, fnName) :: (rune_lparen, t1) :: first ++ more ++ [(rune_rparen, t2)])
         (RSExprFnCall fn (Some a :: args))
with More : list (Z * string) -> list (option RSExprAst) -> Prop :=
| More_nil : More [] []
| More_cons tc next a more args :
    Expr next a -> More more args ->
    More ((rune_comma, tc) :: next ++ more) (Some a :: args).

Scheme Expr_More_ind := Minimality for Expr Sort Prop
  with More_Expr_ind := Minimality for More Sort Prop.

Combined Scheme Expr_More_mutind from Expr_More_ind, More_Expr_ind.

(** What a parse of a phrase of the grammar returns, when it returns. *)
Definition parses_to (toks : list (Z * string)) (a : RSExprAst) : Prop :=
  forall rest rsp fuel r,
    pending rsp = toks ++ rest -> no_EOF (scan rsp) -> no_lparen_first rest ->
    parseExpr fuel rsp = Some r ->
    exists rsp', r = ((Some a, None), rsp') /\ pending rsp' = rest /\
                 no_EOF (scan rsp').

Definition loops_to (more : list (Z * string)) (args : list (option RSExprAst)) : Prop :=
  forall rest rsp fuel fuel' args0 t2 r,
    pending rsp = more ++ (rune_rparen, t2) :: rest -> no_EOF (scan rsp) ->
    args0 <> [] ->
    parseFnArgs (parseExpr fuel) fuel' rsp args0 = Some r ->
    exists rsp', r = (inl (args0 ++ args), rsp') /\
                 pending rsp' = (rune_rparen, t2) :: rest /\
                 no_EOF (scan rsp').

(** A parsing method that returns an expression has consumed a phrase of
    the grammar that stands for it. *)
Definition sound_at (parse : recordSearchParser -> option Parsed) : Prop :=
  forall rsp arg rsp',
    no_EOF (scan rsp) -> parse rsp = Some ((arg, None), rsp') ->
    exists toks a, arg = Some a /\ pending rsp = toks ++ pending rsp' /\
                   Expr toks a /\ no_EOF (scan rsp').

(** **** Strings as values *)

(** A value that is a string. *)
Definition is_string (v : option RSExprValue) : Prop := exists s, v = Some (RSString s).

(** A result pair that holds a string and no error, or an error and no
    value. *)
Definition string_or_error (r : RSResult) : Prop :=
  (exists s, r = (Some (RSString s), None)) \/ (exists e, r = (None, Some e)).

(** A computation that returns [a] and leaves the world as it is, whatever
    the world is. *)
Definition returns {A : Type} (m : M A) (a : A) : Prop :=
  forall w, m w = (Return a, w).

(** A function that, on strings, returns a string or an error that depends
    on the record and the strings only, and leaves the world as it is. *)
Definition string_function (Fn : RSNativeFunction) : Prop :=
  forall rr args, Forall is_string args ->
    exists r, string_or_error r /\ returns (Fn rr args) r.

(** An expression whose value on a record is a string or an error that
    depends on the record only. *)
Definition evaluates_to_string (rr : RecordResult) (a : RSExprAst) : Prop :=
  exists r, string_or_error r /\ returns (Evaluate a rr) r.

(** The string forms of the values, one after the other. *)
Definition joined (vs : list RSExprValue) : string :=
  foldr (fun v acc => String v +:+ acc) "" vs.

(** [sub] occurs in [s]. *)
Definition occurs_in (sub s : string) : Prop :=
  exists before after, s = before +:+ sub +:+ after.

(** [s] starts with [prefix]. *)
Definition starts_with (prefix s : string) : Prop :=
  exists after, s = prefix +:+ after.

(** **** Directory names, counts and capacities *)

(** The number that a string of decimal digits stands for. *)
Fixpoint decimal (s : string) : Z :=
  match s with
  | EmptyString => 0
  | String.String c s' =>
      (Z.of_nat (Ascii.nat_of_ascii c) - 48) * 10 ^ Z.of_nat (String.length s')
      + decimal s'
  end.

(** The integer that a string of decimal digits with an optional sign in
    front stands for. *)
Definition atoi (s : string) : Z :=
  match s with
  | String.String c s' =>
      if Ascii.eqb c (Ascii.ascii_of_nat 45) then - decimal s' else decimal s
  | EmptyString => 0
  end.

(** The state a harvest leaves when [n] records have been delivered to a
    command in the state [lc]. *)
Definition after_records (lc : HarvestCommand) (n : nat) : HarvestCommand :=
  match n with
  | O => lc
  | S _ =>
      let count := GoInt.wrap (recordCount lc + Z.of_nat n) in
      set_lastDirId (set_recordCount lc count)
        (GoInt.add (GoInt.quot count (maxDirSize lc)) 1)
  end.

(** How often the directory [dirId] is the target of a record. *)
Definition records_in (dirId : Z) (ids : list Z) : Z :=
  Z.of_nat (List.count_occ Z.eq_dec ids dirId).

(** The records that can still go to the directory [dirId] when [count]
    records have been counted: the counts above [count] whose quotient by
    [size], plus one, is [dirId]. *)
Definition room (size count dirId : Z) : Z :=
  Z.max 0 (dirId * size - Z.max (count + 1) ((dirId - 1) * size)).

(** **** What a run does to its directories *)

(** The launch of [zip] by which [closeDir] compresses the directory
    [dirId]. *)
Definition zip_launch (lc : HarvestCommand) (dirId : Z) : Event :=
  let dir := dirName lc dirId in
  CmdStart (path_Dir dir) "zip" ["-m"; "-r"; path_Base dir +:+ ".zip"; path_Base dir].

Definition is_launch (e : Event) : bool :=
  match e with
  | CmdStart _ _ _ => true
  | _ => false
  end.

Definition is_mkdir (e : Event) : bool :=
  match e with
  | OsMkdirAll _ _ => true
  | _ => false
  end.

(** The events write to the directory [dirId]: [saveRecordToDir] makes the
    directory before it creates a file in it. *)
Definition writes_to (lc : HarvestCommand) (dirId : Z) (events : list Event) : Prop :=
  OsMkdirAll (dirName lc dirId) 493 ∈ events.

(** Every process launched is the [zip] of a directory of the run, and
    nothing is written to that directory afterwards: the directories written
    to later have larger ids. *)
Fixpoint closed_for_good (lc : HarvestCommand) (events : list Event) : Prop :=
  match events with
  | [] => True
  | e :: rest =>
      (is_launch e = true ->
       exists dirId, e = zip_launch lc dirId /\
         forall d, writes_to lc d rest -> dirId < d) /\
      closed_for_good lc rest
  end.

(** What a run does to its directories, in order: it writes to a directory
    or it closes one. *)
Inductive DirAction : Type :=
| Writes (dirId : Z)
| Closes (dirId : Z).

(** Writing to a directory comes before closing it, and both before
    anything that is done to a directory with a larger id. *)
Definition rank (a : DirAction) : Z :=
  match a with
  | Writes dirId => 2 * dirId
  | Closes dirId => 2 * dirId + 1
  end.

(** The events are those of the actions, with events between them that
    neither make a directory nor launch a process. *)
Inductive renders (lc : HarvestCommand) : list DirAction -> list Event -> Prop :=
| renders_nil : renders lc [] []
| renders_other e acts events :
    is_launch e = false -> is_mkdir e = false ->
    renders lc acts events -> renders lc acts (e :: events)
| renders_write dirId acts events :
    renders lc acts events ->
    renders lc (Writes dirId :: acts) (OsMkdirAll (dirName lc dirId) 493 :: events)
| renders_close dirId acts events :
    renders lc acts events ->
    renders lc (Closes dirId :: acts) (zip_launch lc dirId :: events).

(** The actions are in the order of their ranks, all between [lo] and
    [hi]. *)
Definition in_order (lo hi : Z) (acts : list DirAction) : Prop :=
  StronglySorted Z.le (rank <$> acts) /\
  Forall (fun a => lo <= rank a <= hi) acts.

(** The filter of the command is absent or built by the parser. *)
Definition filter_ok (lc : HarvestCommand) : Prop :=
  match filenameFilterAst lc with
  | Some a => parsed_ast a
  | None => True
  end.

(** The contents written to files, in the order of the writes. *)
Definition written_contents (events : list Event) : list string :=
  omap (fun e => match e with
                 | FileWriteString _ s => Some s
                 | _ => None
                 end) events.

(** The records a harvester delivers, in the order of the calls. *)
Definition delivered (harvester : Harvester) : list RecordResult :=
  omap (fun c => match c with
                 | CallOnRecord rr => Some rr
                 | _ => None
                 end) harvester.


(** Every directory that is the current one at the start or is written to
    is the current one at the end or has been handed to [zip]. *)
Definition closes_behind (lc : HarvestCommand) (lo : Z) (events : list Event) (hi : Z)
    : Prop :=
  forall d, d = lo \/ writes_to lc d events -> d = hi \/ zip_launch lc d ∈ events.


End Vocabulary.

Section ChoiceVocabulary.
Context {env : GoEnv} {henv : HarvesterEnv}.

(** The set that the flags and the provider select. *)
Definition selected_set (sel : HarvestSelection) : string :=
  if String.eqb (setName sel) "" then Ctx_Provider_Set sel
  else if String.eqb (setName sel) "*" then ""
  else setName sel.

(** Two selections that differ at most in what does not bear on a harvest
    from a file: the set, the set of the provider and the choice between
    listing and list-and-get. *)
Definition same_for_file (sel sel' : HarvestSelection) : Prop :=
  Ctx_Session sel = Ctx_Session sel' /\ fromFile sel = fromFile sel' /\
  firstResult sel = firstResult sel' /\ maxResults sel = maxResults sel' /\
  downloadWorkers sel = downloadWorkers sel' /\
  afterDate sel = afterDate sel' /\ beforeDate sel = beforeDate sel'.

End ChoiceVocabulary.

(* ------------------------------------------------------------------------- *)
(** ** Properties *)

Lemma wrap_in_range z : GoInt.in_range (GoInt.wrap z).
Proof.
  unfold GoInt.in_range, GoInt.wrap, GoInt.min_int, GoInt.max_int.
  pose proof (Z.mod_pos_bound (z + 2 ^ 63) (2 ^ 64) ltac:(lia)). lia.
Qed.

Lemma wrap_id z : GoInt.in_range z -> GoInt.wrap z = z.
Proof.
  unfold GoInt.in_range, GoInt.wrap, GoInt.min_int, GoInt.max_int. intros H.
  rewrite Z.mod_small by lia. lia.
Qed.

Section Properties.
Context {env : GoEnv}.

(* ------------------------------------------------------------------------- *)
(** *** Evaluation of a call *)

Lemma bind_Return {A B} (m : M A) (f : A -> M B) w a w' :
  m w = (Return a, w') -> (m ≫= f) w = f a w'.
Proof. intros H. unfold mbind, M_bind. by rewrite H. Qed.

Lemma Evaluate_FnCall Fn FnArgs rr :
  Evaluate (RSExprFnCall Fn FnArgs) rr =
    (evalArgs (fun arg => call_Evaluate arg rr) FnArgs 0
       (replicate (length FnArgs) None)) ≫=
    (fun r => match r with
              | inr err => mret (None, Some err)
              | inl argValues => Fn rr argValues
              end).
Proof. reflexivity. Qed.

Lemma insert_done {A} (done : list A) (x v : A) (rest : list A) :
  <[length done := v]> (done ++ x :: rest) = (done ++ [v]) ++ rest.
Proof.
  induction done as [|d done IH]; simpl; [done|]. by rewrite IH.
Qed.

Lemma evalArgs_ok rr args w vals w' :
  ArgsEvaluate rr args w vals w' ->
  forall done,
    evalArgs (fun arg => call_Evaluate arg rr) args (length done)
      (done ++ replicate (length args) None) w
    = (Return (inl (done ++ vals)), w').
Proof.
  induction 1 as [w|arg rest w val w1 vals w2 Harg _ IH]; intros done; simpl.
  - by rewrite !app_nil_r.
  - rewrite (bind_Return _ _ _ _ _ Harg). simpl.
    rewrite insert_done.
    replace (S (length done)) with (length (done ++ [val])) by (rewrite length_app; simpl; lia).
    rewrite IH. by rewrite <- app_assoc.
Qed.

Lemma evalArgs_error rr pre w vals w1 :
  ArgsEvaluate rr pre w vals w1 ->
  forall arg post val e w2 done,
    call_Evaluate arg rr w1 = (Return (val, Some e), w2) ->
    evalArgs (fun arg => call_Evaluate arg rr) (pre ++ arg :: post) (length done)
      (done ++ replicate (length (pre ++ arg :: post)) None) w
    = (Return (inr e), w2).
Proof.
  induction 1 as [w|a rest w v w1 vals w2 Ha _ IH]; intros arg post val e w3 done Harg; simpl.
  - by rewrite (bind_Return _ _ _ _ _ Harg).
  - rewrite (bind_Return _ _ _ _ _ Ha). simpl.
    rewrite insert_done.
    replace (S (length done)) with (length (done ++ [v])) by (rewrite length_app; simpl; lia).
    by apply (IH arg post val e w3 (done ++ [v])).
Qed.

(** C4. A literal evaluates to the value it holds, in the same world and
    without an error. A function call evaluates its arguments from the left:
    when the arguments before one evaluate without error and that one returns
    an error, the call returns that error in the world the argument left,
    whatever the function and whatever follows the argument, so the function
    is not invoked and no later argument is evaluated; when all arguments
    evaluate without error, the result of the call is the result of the
    function on the record and the values in order. *)
Theorem Evaluate_literal_and_call :
  (forall val rr w, Evaluate (RSExprLiteral val) rr w = (Return (val, None), w)) /\
  (forall Fn pre arg post rr w vals w1 val e w2,
      ArgsEvaluate rr pre w vals w1 ->
      call_Evaluate arg rr w1 = (Return (val, Some e), w2) ->
      Evaluate (RSExprFnCall Fn (pre ++ arg :: post)) rr w
      = (Return (None, Some e), w2)) /\
  (forall Fn FnArgs rr w vals w1,
      ArgsEvaluate rr FnArgs w vals w1 ->
      Evaluate (RSExprFnCall Fn FnArgs) rr w = Fn rr vals w1).
Proof.
  split; [done|split].
  - intros Fn pre arg post rr w vals w1 val e w2 Hpre Harg.
    rewrite Evaluate_FnCall.
    pose proof (evalArgs_error rr pre w vals w1 Hpre arg post val e w2 [] Harg) as H.
    simpl in H. by rewrite (bind_Return _ _ _ _ _ H).
  - intros Fn FnArgs rr w vals w1 Hargs.
    rewrite Evaluate_FnCall.
    pose proof (evalArgs_ok rr FnArgs w vals w1 Hargs []) as H.
    simpl in H. by rewrite (bind_Return _ _ _ _ _ H).
Qed.

(* ------------------------------------------------------------------------- *)
(** *** The parser: enough fuel gives a result *)

Lemma ahead_nextToken rsp :
  tok rsp <> scanner.EOF -> (ahead (nextToken rsp) < ahead rsp)%nat.
Proof.
  intros Hne. unfold nextToken, ahead at 2.
  apply Z.eqb_neq in Hne. rewrite Hne. simpl.
  destruct (scan rsp) as [|[t txt] s]; simpl; unfold ahead; simpl.
  - lia.
  - destruct (t =? scanner.EOF); lia.
Qed.

Lemma consume_inv rsp t txt err rsp' :
  consume rsp t = ((txt, err), rsp') ->
  (err = None /\ tok rsp = t /\ txt = tokText rsp /\ rsp' = nextToken rsp) \/
  (err = Some (etoken t (tok rsp)) /\ tok rsp <> t /\ rsp' = rsp).
Proof.
  unfold consume. destruct (tok rsp =? t) eqn:E; intros [= <- <- <-].
  - left. apply Z.eqb_eq in E. done.
  - right. apply Z.eqb_neq in E. done.
Qed.

Lemma ahead_consume rsp t txt err rsp' :
  consume rsp t = ((txt, err), rsp') ->
  (ahead rsp' <= ahead rsp)%nat /\
  (err = None -> t <> scanner.EOF -> (ahead rsp' < ahead rsp)%nat).
Proof.
  intros H. apply consume_inv in H as [(-> & Ht & _ & ->)|(-> & _ & ->)].
  - destruct (decide (tok rsp = scanner.EOF)) as [E|E].
    + unfold nextToken. rewrite E. simpl. split; [lia|]. intros _ Hne. congruence.
    + pose proof (ahead_nextToken rsp E). split; [lia|]. intros; lia.
  - split; [lia|done].
Qed.

Lemma readString_inv rsp s err rsp' :
  readString rsp = ((s, err), rsp') ->
  (err = None /\ (tok rsp = scanner.String \/ tok rsp = scanner.RawString) /\
     strconv_Unquote (tokText rsp) = Some s /\ rsp' = nextToken rsp) \/
  (s = "" /\ rsp' = rsp /\
     (err = Some ErrSyntax \/
      err = Some (Errorf ("Expected string but got " +:+
                          scanner_TokenString (tok rsp) +:+ newline)))).
Proof.
  unfold readString.
  destruct ((tok rsp =? scanner.String) || (tok rsp =? scanner.RawString)) eqn:E.
  - destruct (strconv_Unquote (tokText rsp)) as [u|] eqn:U.
    + unfold consume. rewrite Z.eqb_refl. intros [= <- <- <-]. left.
      split; [done|]. split; [|done].
      apply orb_true_iff in E as [E|E]; apply Z.eqb_eq in E; auto.
    + intros [= <- <- <-]. right. auto.
  - intros [= <- <- <-]. right. auto.
Qed.

Lemma ahead_parseAtom rsp r rsp' :
  parseAtom rsp = (r, rsp') ->
  (ahead rsp' <= ahead rsp)%nat /\ (r.2 = None -> (ahead rsp' < ahead rsp)%nat).
Proof.
  unfold parseAtom. destruct (readString rsp) as [[s err] rsp1] eqn:R.
  intros [= <- <-]. simpl.
  apply readString_inv in R as [(-> & Htok & _ & ->)|(_ & -> & Herr)].
  - assert (tok rsp <> scanner.EOF) as Hne
      by (destruct Htok as [-> | ->]; done).
    pose proof (ahead_nextToken rsp Hne). split; [lia|]. intros; lia.
  - split; [lia|]. intros ->. destruct Herr; done.
Qed.

Lemma parseFnArgs_total parse bound :
  total_at parse bound ->
  forall fuel rsp args,
    (ahead rsp < fuel)%nat -> (ahead rsp < bound)%nat ->
    exists r rsp', parseFnArgs parse fuel rsp args = Some (r, rsp') /\
      (ahead rsp' <= ahead rsp)%nat.
Proof.
  intros Hparse. induction fuel as [|fuel IH]; intros rsp args Hfuel Hbound; [lia|].
  simpl. destruct (negb (tok rsp =? rune_rparen)); [|eauto].
  destruct (if (0 <? length args)%nat then consume rsp rune_comma
            else ("", None, rsp)) as [[txt err] rsp1] eqn:C.
  assert ((ahead rsp1 <= ahead rsp)%nat) as H1.
  { destruct (0 <? length args)%nat.
    - by apply ahead_consume in C as [? _].
    - by injection C as <- <- <-. }
  destruct err as [e|]; [eauto|].
  destruct (Hparse rsp1 ltac:(lia)) as ([arg err] & rsp2 & -> & H2 & H3).
  destruct err as [e|]; [eexists _, _; split; [done|lia]|].
  specialize (H3 eq_refl).
  destruct (IH rsp2 (args ++ [arg]) ltac:(lia) ltac:(lia)) as (r & rsp3 & -> & H4).
  eexists _, _; split; [done|lia].
Qed.

Lemma parseFn_total parse bound fuel rsp :
  total_at parse bound ->
  tok rsp = scanner.Ident ->
  (ahead rsp <= fuel)%nat -> (ahead rsp <= bound)%nat ->
  exists r rsp', parseFn parse fuel rsp = Some (r, rsp') /\
    (ahead rsp' <= ahead rsp)%nat /\
    (r.2 = None -> (ahead rsp' < ahead rsp)%nat).
Proof.
  intros Hparse Htok Hfuel Hbound. unfold parseFn.
  destruct (consume rsp scanner.Ident) as [[fnName err] rsp1] eqn:C.
  pose proof (ahead_consume _ _ _ _ _ C) as [_ H1].
  apply consume_inv in C as [(-> & _ & _ & ->)|(_ & Hne & _)]; [|done].
  specialize (H1 eq_refl ltac:(done)).
  destruct (NATIVE_FUNCTIONS !! fnName) as [fn|].
  2:{ eexists _, _; split; [done|]. split; [lia|done]. }
  unfold nextTokenIs. destruct (tok (nextToken rsp) =? rune_lparen) eqn:P.
  2:{ eexists _, _; split; [done|]. split; [lia|]. intros; lia. }
  destruct (consume (nextToken rsp) rune_lparen) as [[t2 e2] rsp2] eqn:C2.
  apply ahead_consume in C2 as [H2 _].
  destruct (parseFnArgs_total parse bound Hparse fuel rsp2 [] ltac:(lia) ltac:(lia))
    as ([args|e] & rsp3 & -> & H3).
  2:{ eexists _, _; split; [done|]. split; [lia|done]. }
  destruct (consume rsp3 rune_rparen) as [[t4 e4] rsp4] eqn:C4.
  apply ahead_consume in C4 as [H4 _].
  destruct e4; eexists _, _; (split; [done|]); (split; [lia|]); [done|intros; lia].
Qed.

Lemma parseExpr_total fuel : total_at (parseExpr fuel) fuel.
Proof.
  induction fuel as [|fuel IH]; intros rsp Hfuel; [lia|].
  simpl. destruct (tok rsp =? scanner.Ident) eqn:E.
  - apply Z.eqb_eq in E.
    apply (parseFn_total _ fuel); [done|done|lia|lia].
  - destruct (parseAtom rsp) as [r rsp'] eqn:A.
    apply ahead_parseAtom in A. eauto.
Qed.

Lemma ahead_newParser tokens : (ahead (newParser tokens) <= S (length tokens))%nat.
Proof.
  unfold newParser, nextToken. simpl.
  destruct tokens as [|[t txt] s]; simpl; unfold ahead; simpl.
  - lia.
  - destruct (t =? scanner.EOF); lia.
Qed.

Lemma ParseRSExpr_tokens_total tokens :
  exists r rsp, ParseRSExpr_tokens tokens = Some (r, rsp).
Proof.
  unfold ParseRSExpr_tokens.
  pose proof (ahead_newParser tokens) as Ha.
  destruct (parseExpr_total (parse_fuel (length tokens)) (newParser tokens))
    as ([a err] & rsp & -> & _).
  { unfold parse_fuel. lia. }
  destruct err; eauto.
Qed.

(* ------------------------------------------------------------------------- *)
(** *** The parser: identifiers and the registry *)


Lemma pending_nextToken rsp :
  no_EOF (scan rsp) -> tok rsp <> scanner.EOF ->
  pending rsp = [(tok rsp, tokText rsp)] ++ pending (nextToken rsp) /\
  no_EOF (scan (nextToken rsp)).
Proof.
  intros Hs Hne. unfold pending at 1, nextToken.
  apply Z.eqb_neq in Hne. rewrite Hne. simpl.
  destruct (scan rsp) as [|[t txt] s]; simpl.
  - unfold pending. simpl. split; [done|constructor].
  - apply Forall_cons in Hs as [Ht Hs]. simpl in Ht.
    apply Z.eqb_neq in Ht. unfold pending. simpl. rewrite Ht. done.
Qed.












Lemma pending_newParser tokens :
  no_EOF tokens ->
  pending (newParser tokens) = tokens /\ no_EOF (scan (newParser tokens)).
Proof.
  intros Hs. unfold newParser, nextToken. simpl.
  destruct tokens as [|[t txt] s]; simpl.
  - unfold pending. simpl. split; [done|constructor].
  - apply Forall_cons in Hs as [Ht Hs]. simpl in Ht.
    apply Z.eqb_neq in Ht. unfold pending. simpl. by rewrite Ht.
Qed.

(* ------------------------------------------------------------------------- *)
(** *** The parser: more fuel gives the same result *)




(* ------------------------------------------------------------------------- *)
(** *** The parser: tokens after the expression *)









(* ------------------------------------------------------------------------- *)
(** *** The harvest command: one call of [saveRecord] *)

Lemma set_lastDirId_same lc : set_lastDirId lc (lastDirId lc) = lc.
Proof. by destruct lc. Qed.

Lemma side_effects_app w1 w2 :
  side_effects (w1 ++ w2) = side_effects w1 ++ side_effects w2.
Proof. apply List.filter_app. Qed.

Lemma side_effects_only_logs events : only_logs events -> side_effects events = [].
Proof.
  induction 1 as [|e events He _ IH]; [done|].
  unfold side_effects in *. simpl. by rewrite He.
Qed.

Lemma closeDir_returns lc dirId w :
  exists events, closeDir lc dirId w = (Return tt, w ++ events) /\
                 (dryRun lc = true -> events = []).
Proof.
  unfold closeDir. destruct (dryRun lc).
  { exists []. by rewrite app_nil_r. }
  destruct (compressDirs lc).
  2:{ exists []. by rewrite app_nil_r. }
  unfold mbind, M_bind, mret, M_ret, emit, get_world.
  destruct (Ctx_LogLevel lc >=? TraceLogLevel);
    destruct (cmd_Start_err _ _ _ _); rewrite <- ?app_assoc;
    eexists; (split; [reflexivity|done]).
Qed.

Lemma logs_returns (b : bool) msg w :
  exists logs,
    (if b then emit (LogPrint msg) else mret tt) w = (Return tt, w ++ logs) /\
    only_logs logs.
Proof.
  destruct b.
  - exists [LogPrint msg]. split; [done|]. by repeat constructor.
  - exists []. split; [|constructor]. unfold mret, M_ret. by rewrite app_nil_r.
Qed.

(** One call of [saveRecord] for a directory size that is not zero: the
    directory is closed when the id changes, log lines follow, and the
    record is saved unless the run is dry. *)
Lemma saveRecord_step lc res w :
  maxDirSize lc <> 0 ->
  let count := GoInt.add (recordCount lc) 1 in
  let dirId := GoInt.add (GoInt.quot count (maxDirSize lc)) 1 in
  let lc' := set_lastDirId (set_recordCount lc count) dirId in
  exists closing logs,
    (if decide (dirId = lastDirId lc) then closing = []
     else closeDir (set_recordCount lc count) (lastDirId lc) w
          = (Return tt, w ++ closing)) /\
    (dryRun lc = true -> closing = []) /\
    only_logs logs /\
    saveRecord lc res w =
      if dryRun lc then (Return lc', w ++ closing ++ logs)
      else (saveRecordToDir lc' dirId res ≫= fun _ => mret lc') (w ++ closing ++ logs).
Proof.
  intros Hsize count dirId lc'. unfold saveRecord.
  change (maxDirSize (set_recordCount lc (GoInt.add (recordCount lc) 1)))
    with (maxDirSize lc).
  apply Z.eqb_neq in Hsize. rewrite Hsize.
  change (recordCount (set_recordCount lc (GoInt.add (recordCount lc) 1))) with count.
  change (lastDirId (set_recordCount lc count)) with (lastDirId lc).
  fold dirId.
  set (lc1 := set_recordCount lc count).
  assert (exists closing,
    (if negb (dirId =? lastDirId lc)
     then closeDir lc1 (lastDirId lc);; mret (set_lastDirId lc1 dirId)
     else mret lc1) w = (Return lc', w ++ closing) /\
    (if decide (dirId = lastDirId lc) then closing = []
     else closeDir lc1 (lastDirId lc) w = (Return tt, w ++ closing)) /\
    (dryRun lc = true -> closing = [])) as (closing & Hclose & Hc1 & Hc2).
  { destruct (decide (dirId = lastDirId lc)) as [E|E].
    - rewrite E, Z.eqb_refl. simpl. exists []. rewrite app_nil_r.
      split; [|done]. unfold mret, M_ret. f_equal. f_equal.
      unfold lc'. rewrite E. subst lc1. by destruct lc.
    - apply Z.eqb_neq in E. rewrite E. simpl.
      destruct (closeDir_returns lc1 (lastDirId lc) w) as (closing & Hc & Hd).
      exists closing. split; [|done].
      by rewrite (bind_Return _ _ _ _ _ Hc). }
  rewrite (bind_Return _ _ _ _ _ Hclose).
  change (Ctx_LogLevel lc') with (Ctx_LogLevel lc).
  change (recordCount lc') with count.
  change (dryRun lc') with (dryRun lc).
  destruct (logs_returns (Ctx_LogLevel lc >=? DebugLogLevel)
              (GoStrings.fmt_8d count +:+ "  " +:+ Identifier res +:+ newline)
              (w ++ closing)) as (logs1 & Hl1 & Ho1).
  rewrite (bind_Return _ _ _ _ _ Hl1).
  destruct (logs_returns (GoInt.rem count 1000 =? 0)
              ("Harvested " +:+ GoStrings.itoa count +:+ " records" +:+ newline)
              ((w ++ closing) ++ logs1)) as (logs2 & Hl2 & Ho2).
  rewrite (bind_Return _ _ _ _ _ Hl2).
  exists closing, (logs1 ++ logs2). split; [done|]. split; [done|].
  split; [by apply Forall_app|].
  rewrite !app_assoc. destruct (dryRun lc); simpl; [done|].
  unfold mbind, M_bind. by destruct (saveRecordToDir _ _ _ _) as [[[]| |] ?].
Qed.

Lemma filterFilename_None lc res w :
  filenameFilterAst lc = None ->
  filterFilename lc res w = (Return (Identifier res), w).
Proof. intros H. unfold filterFilename. by rewrite H. Qed.

Lemma filterFilename_Some lc res w a r w1 :
  filenameFilterAst lc = Some a ->
  Evaluate a res w = (Return r, w1) ->
  exists logs, only_logs logs /\
    filterFilename lc res w = (Return (chosen_filename r res), w1 ++ logs).
Proof.
  intros Ha He. unfold filterFilename. rewrite Ha.
  rewrite (bind_Return _ _ _ _ _ He).
  destruct r as [[v|] [e|]]; simpl.
  - eexists [_]. split; [|done]. by repeat constructor.
  - destruct (Bool v).
    + exists []. split; [constructor|]. unfold mret, M_ret. by rewrite app_nil_r.
    + eexists [_]. split; [|done]. by repeat constructor.
  - eexists [_]. split; [|done]. by repeat constructor.
  - eexists [_]. split; [|done]. by repeat constructor.
Qed.

Lemma saveRecordToDir_after_filter lc dirId res w filename w1 :
  filterFilename lc res w = (Return filename, w1) ->
  exists logs, only_logs logs /\
    saveRecordToDir lc dirId res w = writes_file lc dirId filename res (w1 ++ logs).
Proof.
  intros Hf. unfold saveRecordToDir. rewrite (bind_Return _ _ _ _ _ Hf).
  unfold writes_file, out_file.
  destruct (String.eqb (EscapeIdForFilename filename) "").
  - exists [LogPrint
      "warn: using file basename '__empty__' for record with an empty identifier"].
    split; [by repeat constructor|].
    unfold mbind, M_bind, mret, M_ret, emit, get_world, panic. simpl.
    destruct (os_Create_err _ _); [done|]. by rewrite <- !app_assoc.
  - exists []. split; [constructor|]. rewrite app_nil_r.
    unfold mbind, M_bind, mret, M_ret, emit, get_world, panic. simpl.
    destruct (os_Create_err _ _); [done|]. by rewrite <- !app_assoc.
Qed.

(** A call of [saveRecord] that returns, in a run that is not dry. *)
Lemma saveRecord_returns lc res w lc' w' :
  maxDirSize lc <> 0 -> dryRun lc = false ->
  saveRecord lc res w = (Return lc', w') ->
  let count := GoInt.add (recordCount lc) 1 in
  let dirId := GoInt.add (GoInt.quot count (maxDirSize lc)) 1 in
  lc' = set_lastDirId (set_recordCount lc count) dirId /\
  exists before, saveRecordToDir lc' dirId res (w ++ before) = (Return tt, w').
Proof.
  intros Hsize Hdry Hsave count dirId.
  destruct (saveRecord_step lc res w Hsize) as (closing & logs & _ & _ & _ & Hstep).
  rewrite Hdry, Hsave in Hstep. fold count dirId in Hstep.
  unfold mbind, M_bind in Hstep.
  destruct (saveRecordToDir _ dirId res _) as [[[]| |] w2] eqn:Hto; try done.
  injection Hstep as -> ->. split; [done|]. by exists (closing ++ logs).
Qed.

Lemma saves_to_intro lc res w lc' w' :
  maxDirSize lc <> 0 -> dryRun lc = false ->
  saveRecord lc res w = (Return lc', w') ->
  saves_to lc res w
    (GoInt.add (GoInt.quot (GoInt.add (recordCount lc) 1) (maxDirSize lc)) 1) lc' w' /\
  maxDirSize lc' = maxDirSize lc /\ dryRun lc' = dryRun lc /\
  recordCount lc' = GoInt.add (recordCount lc) 1.
Proof.
  intros Hsize Hdry Hsave.
  destruct (saveRecord_returns _ _ _ _ _ Hsize Hdry Hsave) as [Hlc Hto].
  split; [|by rewrite Hlc]. split; [done|]. split; [by rewrite Hlc|done].
Qed.

Lemma harvest_cons lc c rest w lc' w' :
  harvestWithHarvester lc (c :: rest) w = (Return lc', w') ->
  exists lc1 w1, observe lc c w = (Return lc1, w1) /\
                 harvestWithHarvester lc1 rest w1 = (Return lc', w').
Proof.
  simpl. unfold mbind, M_bind.
  destruct (observe lc c w) as [[lc1| |] w1]; [|done..]. eauto.
Qed.

(** C1, as amended. With [maxDirSize = 2], in a run that starts with no
    record counted and is not dry, four admitted records are saved to the
    directories 1, 2, 2 and 3: the id is the quotient of the count after the
    increment by the size, plus one. *)
Theorem rotation_with_maxDirSize_2 lc r1 r2 r3 r4 w lc' w' :
  maxDirSize lc = 2 -> recordCount lc = 0 -> lastDirId lc = 1 -> dryRun lc = false ->
  harvestWithHarvester lc
    [CallOnRecord r1; CallOnRecord r2; CallOnRecord r3; CallOnRecord r4] w
  = (Return lc', w') ->
  exists lc1 w1 lc2 w2 lc3 w3,
    saves_to lc r1 w 1 lc1 w1 /\
    saves_to lc1 r2 w1 2 lc2 w2 /\
    saves_to lc2 r3 w2 2 lc3 w3 /\
    saves_to lc3 r4 w3 3 lc' w'.
Proof.
  intros Hsize Hcount _ Hdry Hrun.
  apply harvest_cons in Hrun as (lc1 & w1 & H1 & Hrun).
  apply harvest_cons in Hrun as (lc2 & w2 & H2 & Hrun).
  apply harvest_cons in Hrun as (lc3 & w3 & H3 & Hrun).
  apply harvest_cons in Hrun as (lc4 & w4 & H4 & Hrun).
  injection Hrun as <- <-. simpl in H1, H2, H3, H4. unfold OnRecord in *.
  apply saves_to_intro in H1 as (S1 & Hs1 & Hd1 & Hc1); [|lia|done].
  rewrite Hsize, Hcount in S1. rewrite Hsize in Hs1. rewrite Hcount in Hc1.
  rewrite Hdry in Hd1.
  apply saves_to_intro in H2 as (S2 & Hs2 & Hd2 & Hc2); [|lia|done].
  rewrite Hs1, Hc1 in S2. rewrite Hs1 in Hs2. rewrite Hc1 in Hc2. rewrite Hd1 in Hd2.
  apply saves_to_intro in H3 as (S3 & Hs3 & Hd3 & Hc3); [|lia|done].
  rewrite Hs2, Hc2 in S3. rewrite Hs2 in Hs3. rewrite Hc2 in Hc3. rewrite Hd2 in Hd3.
  apply saves_to_intro in H4 as (S4 & _); [|lia|done].
  rewrite Hs3, Hc3 in S4.
  exists lc1, w1, lc2, w2, lc3, w3. done.
Qed.


(* ------------------------------------------------------------------------- *)
(** *** Nodes the parser builds evaluate without effect *)

Lemma parsed_ast_call Fn FnArgs :
  parsed_ast (RSExprFnCall Fn FnArgs) <->
  (exists fnName, NATIVE_FUNCTIONS !! fnName = Some Fn) /\ parsed_args FnArgs.
Proof.
  simpl. apply and_iff_compat_l. unfold parsed_args.
  induction FnArgs as [|[a|] l IH].
  - split; [constructor|done].
  - rewrite Forall_cons, IH. split.
    + intros [Ha Hl]. split; [eauto|done].
    + intros [(a' & [= <-] & Ha) Hl]. done.
  - split; [done|]. intros H. apply Forall_cons in H as [(a' & [=] & _) _].
Qed.

Lemma concat_loop_pure args : forall buf w,
  Forall is_Some args -> exists s, concat_loop args buf w = (Return s, w).
Proof.
  induction args as [|arg rest IH]; intros buf w Hall; simpl; [eauto|].
  apply Forall_cons in Hall as [[v ->] Hrest]. simpl.
  unfold mbind, M_bind, mret, M_ret. simpl. by apply IH.
Qed.

Lemma native_functions_pure fnName Fn :
  NATIVE_FUNCTIONS !! fnName = Some Fn -> pure_function Fn.
Proof.
  intros H. apply elem_of_list_to_map_2 in H.
  repeat (apply elem_of_cons in H as [[= _ ->]|H]); [..|by apply elem_of_nil in H].
  - intros rr args w Hall. unfold native_xp.
    destruct args as [|[v|] [|? ?]]; simpl; try (eexists; split; [reflexivity|right; eauto]; fail).
    + unfold mbind, M_bind, mret, M_ret. simpl.
      destruct (xmlpath_Compile _); [|eexists; split; [reflexivity|right; eauto]].
      destruct (xmlpath_Parse _); [|eexists; split; [reflexivity|right; eauto]].
      destruct (xmlpath_String _ _). eexists; split; [reflexivity|left; eauto].
    + apply Forall_cons in Hall as [[? [=]] _].
  - intros rr args w Hall. unfold native_concat.
    destruct (concat_loop_pure args "" w Hall) as [s Hs].
    unfold mbind, M_bind. rewrite Hs. eexists; split; [reflexivity|left; eauto].
  - intros rr args w Hall. unfold native_startsWith.
    destruct args as [|a0 [|a1 [|? ?]]]; simpl;
      try (eexists; split; [reflexivity|right; eauto]; fail).
    apply Forall_cons in Hall as [[v0 ->] Hall].
    apply Forall_cons in Hall as [[v1 ->] _].
    unfold mbind, M_bind, mret, M_ret. simpl.
    destruct (GoStrings.HasPrefix _ _); eexists; (split; [reflexivity|left; eauto]).
  - intros rr args w Hall. unfold native_contains.
    destruct args as [|a0 [|a1 [|? ?]]]; simpl;
      try (eexists; split; [reflexivity|right; eauto]; fail).
    apply Forall_cons in Hall as [[v0 ->] Hall].
    apply Forall_cons in Hall as [[v1 ->] _].
    unfold mbind, M_bind, mret, M_ret. simpl.
    destruct (GoStrings.Contains _ _); eexists; (split; [reflexivity|left; eauto]).
  - intros rr args w Hall. eexists; split; [reflexivity|left; eauto].
  - intros rr args w Hall. unfold native_replace.
    destruct args as [|a0 [|a1 [|a2 [|? ?]]]]; simpl;
      try (eexists; split; [reflexivity|right; eauto]; fail).
    apply Forall_cons in Hall as [[v0 ->] Hall].
    apply Forall_cons in Hall as [[v1 ->] Hall].
    apply Forall_cons in Hall as [[v2 ->] _].
    eexists; split; [reflexivity|left; eauto].
Qed.

Lemma evalArgs_pure rr (FnArgs : list (option RSExprAst)) :
  Forall (arg_holds (fun a => forall w, exists r,
                        Evaluate a rr w = (Return r, w) /\ value_or_error r))
    FnArgs ->
  Forall is_Some FnArgs ->
  forall i argValues w,
    Forall is_Some (take i argValues) -> (i + length FnArgs = length argValues)%nat ->
    (exists vals, evalArgs (fun arg => call_Evaluate arg rr) FnArgs i argValues w
                  = (Return (inl vals), w) /\ Forall is_Some vals) \/
    (exists e, evalArgs (fun arg => call_Evaluate arg rr) FnArgs i argValues w
               = (Return (inr e), w)).
Proof.
  induction 1 as [|arg rest Harg _ IH]; intros Hsome i argValues w Hdone Hlen; simpl.
  - left. exists argValues. split; [done|].
    simpl in Hlen. rewrite Nat.add_0_r in Hlen. subst i.
    by rewrite firstn_all in Hdone.
  - apply Forall_cons in Hsome as [[a ->] Hsome]. simpl.
    destruct (Harg w) as (r & He & Hr).
    unfold mbind, M_bind. rewrite He.
    destruct Hr as [[v ->]|[e ->]]; simpl; [|right; eauto].
    apply IH; [done| |].
    + rewrite (take_S_r _ _ (Some v)).
      * apply Forall_app. split; [|by repeat constructor].
        by rewrite take_insert_ge by lia.
      * apply list_lookup_insert_eq. simpl in Hlen. lia.
    + rewrite length_insert. simpl in Hlen. lia.
Qed.

Lemma Evaluate_parsed a :
  parsed_ast a ->
  forall rr w, exists r, Evaluate a rr w = (Return r, w) /\ value_or_error r.
Proof.
  induction a as [val|Fn FnArgs IH] using RSExprAst_nested_ind; intros Hp rr w.
  - destruct Hp as [s ->]. eexists. split; [reflexivity|left; eauto].
  - apply parsed_ast_call in Hp as [[fnName Hfn] Hargs].
    change (Evaluate (RSExprFnCall Fn FnArgs) rr w) with
      ((evalArgs (fun arg => call_Evaluate arg rr) FnArgs 0
          (replicate (length FnArgs) None) ≫=
        (fun r => match r with
                  | inr err => mret (None, Some err)
                  | inl argValues => Fn rr argValues
                  end)) w).
    unfold mbind, M_bind.
    destruct (evalArgs_pure rr FnArgs) with (i := 0%nat)
      (argValues := replicate (length FnArgs) (@None RSExprValue)) (w := w)
      as [(vals & -> & Hvals)|(e & ->)].
    + eapply Forall_impl; [apply Forall_and; split; [exact IH|exact Hargs]|].
      intros [a'|] [Ha (a'' & Heq & Hpa)]; [|done].
      injection Heq as <-. intros w'. by apply Ha.
    + eapply Forall_impl; [exact Hargs|]. intros arg (a' & -> & _). by eexists.
    + constructor.
    + by rewrite length_replicate.
    + by apply (native_functions_pure fnName).
    + eexists. split; [reflexivity|right; eauto].
Qed.

Lemma parsed_parseFnArgs parse :
  parsed_at parse ->
  forall fuel rsp args args' rsp',
    parsed_args args ->
    parseFnArgs parse fuel rsp args = Some (inl args', rsp') ->
    parsed_args args'.
Proof.
  intros Hparse. induction fuel as [|fuel IH]; intros rsp args args' rsp' Hargs; [done|].
  simpl. destruct (negb (tok rsp =? rune_rparen)); [|by intros [= <- <-]].
  destruct (if (0 <? length args)%nat then consume rsp rune_comma
            else ("", None, rsp)) as [[txt err] rsp1].
  destruct err as [e|]; [done|].
  destruct (parse rsp1) as [[[arg err] rsp2]|] eqn:P; [|done].
  destruct err as [e|]; [done|].
  apply IH. apply Forall_app. split; [done|].
  constructor; [|constructor]. by apply (Hparse _ _ _ P).
Qed.

Lemma parsed_parseFn parse fuel : parsed_at parse -> parsed_at (parseFn parse fuel).
Proof.
  intros Hparse rsp arg rsp'. unfold parseFn.
  destruct (consume rsp scanner.Ident) as [[fnName err] rsp1].
  destruct err as [e|]; [done|].
  destruct (NATIVE_FUNCTIONS !! fnName) as [fn|] eqn:L; [|done].
  destruct (nextTokenIs rsp1 rune_lparen).
  - destruct (consume rsp1 rune_lparen) as [[t2 e2] rsp2].
    destruct (parseFnArgs parse fuel rsp2 []) as [[[args|e] rsp3]|] eqn:A; [|done..].
    destruct (consume rsp3 rune_rparen) as [[t4 e4] rsp4].
    destruct e4 as [e|]; [done|]. intros [= <- <-].
    eexists. split; [done|]. apply parsed_ast_call. split; [eauto|].
    eapply parsed_parseFnArgs; [exact Hparse| |exact A]. constructor.
  - intros [= <- <-]. eexists. split; [done|].
    apply parsed_ast_call. split; [eauto|constructor].
Qed.

Lemma parsed_parseExpr fuel : parsed_at (parseExpr fuel).
Proof.
  induction fuel as [|fuel IH]; intros rsp arg rsp'; [done|].
  simpl. destruct (tok rsp =? scanner.Ident).
  - by apply parsed_parseFn.
  - unfold parseAtom. destruct (readString rsp) as [[s err] rsp1].
    intros [= <- -> <-]. eexists. split; [done|]. simpl. eauto.
Qed.

Lemma ParseRSExpr_tokens_parsed tokens arg rsp :
  ParseRSExpr_tokens tokens = Some ((arg, None), rsp) ->
  exists a, arg = Some a /\ parsed_ast a.
Proof.
  unfold ParseRSExpr_tokens.
  destruct (parseExpr _ _) as [[[a0 err] rsp0]|] eqn:P; [|done].
  destruct err as [e|]; [done|]. intros [= <- <-].
  by apply (parsed_parseExpr _ _ _ _ P).
Qed.

(** C5. [saveRecordToDir] derives the file name as described: without a
    filter the base name is the identifier of the record; with a filter whose
    evaluation returns, the base name is the string form of a result that is
    true and the identifier in every other case (an error, a result that is
    false, no result). The base name is escaped, an empty escaped name becomes
    [__empty__], and the file is that name with [.xml] in the directory of
    [dirId]. An error of the filter produces log lines only: the call goes on
    to write the file, and only a failure of [os.Create] makes it panic. The
    evaluation of a filter that the parser has built always returns, with a
    value or with an error, so such a filter never ends the harvest. *)
Theorem saveRecordToDir_filename lc dirId res w :
  (filenameFilterAst lc = None ->
   exists logs, only_logs logs /\
     saveRecordToDir lc dirId res w
     = writes_file lc dirId (Identifier res) res (w ++ logs)) /\
  (forall a r w1,
     filenameFilterAst lc = Some a ->
     Evaluate a res w = (Return r, w1) ->
     exists logs, only_logs logs /\
       saveRecordToDir lc dirId res w
       = writes_file lc dirId (chosen_filename r res) res (w1 ++ logs)) /\
  (forall tokens a rsp,
     ParseRSExpr_tokens tokens = Some ((Some a, None), rsp) ->
     filenameFilterAst lc = Some a ->
     exists r logs,
       Evaluate a res w = (Return r, w) /\ value_or_error r /\ only_logs logs /\
       saveRecordToDir lc dirId res w
       = writes_file lc dirId (chosen_filename r res) res (w ++ logs)).
Proof.
  assert (forall a r w1,
     filenameFilterAst lc = Some a ->
     Evaluate a res w = (Return r, w1) ->
     exists logs, only_logs logs /\
       saveRecordToDir lc dirId res w
       = writes_file lc dirId (chosen_filename r res) res (w1 ++ logs)) as Hfilter.
  { intros a r w1 Ha He.
    destruct (filterFilename_Some lc res w a r w1 Ha He) as (logs1 & Hl1 & Hf).
    destruct (saveRecordToDir_after_filter lc dirId res w _ _ Hf) as (logs2 & Hl2 & ->).
    exists (logs1 ++ logs2). split; [by apply Forall_app|]. by rewrite app_assoc. }
  split; [|split; [exact Hfilter|]].
  - intros Hnone.
    apply saveRecordToDir_after_filter. by apply filterFilename_None.
  - intros tokens a rsp Hparse Ha.
    apply ParseRSExpr_tokens_parsed in Hparse as (a' & [= <-] & Hp).
    destruct (Evaluate_parsed a Hp res w) as (r & He & Hr).
    destruct (Hfilter a r w Ha He) as (logs & Hl & Hs).
    by exists r, logs.
Qed.

(* ------------------------------------------------------------------------- *)
(** *** The harvest command: dry runs *)

Lemma closeDir_dry lc dirId w : dryRun lc = true -> closeDir lc dirId w = (Return tt, w).
Proof. intros H. unfold closeDir. by rewrite H. Qed.

Lemma saveRecord_dry lc res w :
  dryRun lc = true ->
  side_effects (saveRecord lc res w).2 = side_effects w /\
  forall lc' w', saveRecord lc res w = (Return lc', w') -> dryRun lc' = true.
Proof.
  intros Hdry. destruct (decide (maxDirSize lc = 0)) as [Hz|Hsize].
  - unfold saveRecord. simpl. rewrite Hz. simpl. done.
  - destruct (saveRecord_step lc res w Hsize) as (closing & logs & _ & Hc & Hl & ->).
    rewrite Hdry. rewrite (Hc Hdry). simpl.
    rewrite side_effects_app, (side_effects_only_logs _ Hl), app_nil_r.
    split; [done|]. by intros lc' w' [= <- <-].
Qed.

Lemma observe_dry lc c w :
  dryRun lc = true ->
  side_effects (observe lc c w).2 = side_effects w /\
  forall lc' w', observe lc c w = (Return lc', w') -> dryRun lc' = true.
Proof.
  intros Hdry. destruct c as [rr|err|h s e]; simpl.
  - by apply saveRecord_dry.
  - unfold OnError, mbind, M_bind, emit, mret, M_ret. simpl.
    rewrite side_effects_app. simpl. rewrite app_nil_r.
    split; [done|]. by intros lc' w' [= <- <-].
  - unfold OnCompleted, mbind, M_bind, emit, mret, M_ret. simpl.
    rewrite side_effects_app. simpl. rewrite app_nil_r.
    split; [done|]. by intros lc' w' [= <- <-].
Qed.

Lemma harvest_dry harvester : forall lc w,
  dryRun lc = true ->
  side_effects (harvestWithHarvester lc harvester w).2 = side_effects w.
Proof.
  induction harvester as [|c rest IH]; intros lc w Hdry; [done|].
  simpl. unfold mbind, M_bind.
  destruct (observe_dry lc c w Hdry) as [Hs Hd].
  destruct (observe lc c w) as [[lc1| |] w1] eqn:Ho; simpl in Hs; [|done..].
  rewrite IH; [done|]. by apply (Hd lc1 w1).
Qed.

Lemma wrap_add_wrap a b : GoInt.wrap (GoInt.wrap a + b) = GoInt.wrap (a + b).
Proof.
  unfold GoInt.wrap.
  replace ((a + 2 ^ 63) mod 2 ^ 64 - 2 ^ 63 + b + 2 ^ 63)
    with ((a + 2 ^ 63) mod 2 ^ 64 + b) by lia.
  rewrite Z.add_mod_idemp_l by lia. f_equal. f_equal. lia.
Qed.

Lemma saveRecord_zero_size lc res w :
  maxDirSize lc = 0 -> saveRecord lc res w = (Panic "integer divide by zero", w).
Proof. intros H. unfold saveRecord. simpl. by rewrite H. Qed.

Lemma observe_dry_count lc c w :
  dryRun lc = true -> maxDirSize lc <> 0 ->
  exists lc' w',
    observe lc c w = (Return lc', w') /\
    dryRun lc' = true /\ maxDirSize lc' = maxDirSize lc /\
    recordCount lc' =
      match c with
      | CallOnRecord _ => GoInt.add (recordCount lc) 1
      | _ => recordCount lc
      end.
Proof.
  intros Hdry Hsize. destruct c as [rr|err|h s e]; simpl.
  - destruct (saveRecord_step lc rr w Hsize) as (closing & logs & _ & _ & _ & Hs).
    rewrite Hdry in Hs. unfold OnRecord. rewrite Hs. eexists _, _. done.
  - eexists _, _. done.
  - eexists _, _. done.
Qed.

Lemma harvest_dry_count harvester : forall lc w,
  dryRun lc = true -> maxDirSize lc <> 0 -> GoInt.in_range (recordCount lc) ->
  exists lc' w',
    harvestWithHarvester lc harvester w = (Return lc', w') /\
    recordCount lc' = GoInt.wrap (recordCount lc + Z.of_nat (admitted harvester)).
Proof.
  induction harvester as [|c rest IH]; intros lc w Hdry Hsize Hrange.
  { exists lc, w. split; [done|]. unfold admitted. simpl.
    by rewrite Z.add_0_r, wrap_id. }
  destruct (observe_dry_count lc c w Hdry Hsize) as (lc1 & w1 & Ho & Hd1 & Hs1 & Hc1).
  simpl. unfold mbind, M_bind. rewrite Ho.
  destruct (IH lc1 w1) as (lc' & w' & Hh & Hc'); [done|congruence| |].
  { destruct c; rewrite Hc1; [apply wrap_in_range|done..]. }
  exists lc', w'. split; [done|]. rewrite Hc', Hc1.
  unfold admitted. destruct c; simpl.
  - unfold GoInt.add. rewrite wrap_add_wrap. f_equal. lia.
  - done.
  - done.
Qed.

(** C7. In a dry run closing a directory does nothing, a call of
    [saveRecord] and a whole harvest leave the events that touch the disk or
    launch a process as they were, and [saveRecord] still returns with
    [recordCount] incremented by one, with the count and the directory id the
    run that is not dry leaves; over a whole harvest the count grows by the
    number of records delivered. *)
Theorem dry_run_writes_nothing lc res w :
  dryRun lc = true ->
  (forall dirId, closeDir lc dirId w = (Return tt, w)) /\
  side_effects (saveRecord lc res w).2 = side_effects w /\
  (forall harvester,
     side_effects (harvestWithHarvester lc harvester w).2 = side_effects w) /\
  (maxDirSize lc <> 0 ->
   exists lc' w',
     saveRecord lc res w = (Return lc', w') /\
     recordCount lc' = GoInt.add (recordCount lc) 1 /\
     forall lcn wn,
       saveRecord (set_dryRun lc false) res w = (Return lcn, wn) ->
       recordCount lcn = recordCount lc' /\ lastDirId lcn = lastDirId lc') /\
  (maxDirSize lc <> 0 -> GoInt.in_range (recordCount lc) ->
   forall harvester,
   exists lc' w',
     harvestWithHarvester lc harvester w = (Return lc', w') /\
     recordCount lc' = GoInt.wrap (recordCount lc + Z.of_nat (admitted harvester))).
Proof.
  intros Hdry. split; [|split; [|split; [|split]]].
  - intros dirId. by apply closeDir_dry.
  - by apply saveRecord_dry.
  - intros harvester. by apply harvest_dry.
  - intros Hsize.
    destruct (saveRecord_step lc res w Hsize) as (closing & logs & _ & _ & _ & Hs).
    rewrite Hdry in Hs. eexists _, _. split; [exact Hs|]. split; [done|].
    intros lcn wn Hn.
    apply saveRecord_returns in Hn as [-> _]; done.
  - intros Hsize Hrange harvester. by apply harvest_dry_count.
Qed.

(* ------------------------------------------------------------------------- *)
(** *** The harvest command: directory ids *)

(** The state a call of [saveRecord] that returns leaves, dry run or not. *)
Lemma saveRecord_state lc res w lc' w' :
  maxDirSize lc <> 0 ->
  saveRecord lc res w = (Return lc', w') ->
  lc' = set_lastDirId (set_recordCount lc (GoInt.add (recordCount lc) 1))
          (GoInt.add (GoInt.quot (GoInt.add (recordCount lc) 1) (maxDirSize lc)) 1).
Proof.
  intros Hsize Hsave.
  destruct (saveRecord_step lc res w Hsize) as (closing & logs & _ & _ & _ & Hstep).
  rewrite Hsave in Hstep. destruct (dryRun lc).
  - by injection Hstep as ->.
  - unfold mbind, M_bind in Hstep.
    destruct (saveRecordToDir _ _ res _) as [[[]| |] w2]; try done.
    by injection Hstep as ->.
Qed.

(** Without overflow the directory id is the quotient plus one. *)
Lemma dirId_in_range count size :
  0 < size -> 0 <= count -> count + 1 < GoInt.max_int ->
  GoInt.add count 1 = count + 1 /\
  GoInt.add (GoInt.quot (count + 1) size) 1 = (count + 1) / size + 1.
Proof.
  intros Hsize Hcount Hmax. unfold GoInt.add, GoInt.quot.
  assert (0 <= (count + 1) / size <= count + 1) as Hq.
  { split; [apply Z.div_pos; lia|].
    apply Z.div_le_upper_bound; [lia|]. nia. }
  rewrite Z.quot_div_nonneg by lia.
  unfold GoInt.max_int in Hmax.
  assert (forall z, 0 <= z <= count + 2 -> GoInt.wrap z = z) as Hwrap.
  { intros z Hz. apply wrap_id.
    unfold GoInt.in_range, GoInt.min_int, GoInt.max_int. lia. }
  rewrite (Hwrap (count + 1)) by lia.
  rewrite (Hwrap ((count + 1) / size)) by lia.
  rewrite (Hwrap ((count + 1) / size + 1)) by lia. done.
Qed.

Lemma observe_inv lc c w lc' w' n :
  partition_inv lc (S n) ->
  observe lc c w = (Return lc', w') ->
  partition_inv lc' n /\ lastDirId lc <= lastDirId lc'.
Proof.
  intros (Hsize & Hcount & Hmax & Hlast) Hobs.
  destruct c as [rr|err|h s e]; simpl in Hobs.
  - apply saveRecord_state in Hobs; [|lia].
    destruct (dirId_in_range (recordCount lc) (maxDirSize lc)) as [Ha Hd]; [lia..|].
    rewrite Ha, Hd in Hobs. subst lc'. unfold partition_inv. simpl.
    assert (recordCount lc / maxDirSize lc <= (recordCount lc + 1) / maxDirSize lc)
      by (apply Z.div_le_mono; lia).
    repeat split; lia.
  - injection Hobs as <- _. split; [|lia]. unfold partition_inv. repeat split; lia.
  - injection Hobs as <- _. split; [|lia]. unfold partition_inv. repeat split; lia.
Qed.

Lemma targetDirIds_sorted harvester : forall lc w,
  partition_inv lc (length harvester) ->
  StronglySorted Z.le (lastDirId lc :: targetDirIds lc harvester w).
Proof.
  induction harvester as [|c rest IH]; intros lc w Hinv.
  { repeat constructor. }
  simpl. destruct (observe lc c w) as [[lc1| |] w1] eqn:Hobs;
    [|repeat constructor..].
  destruct (observe_inv _ _ _ _ _ _ Hinv Hobs) as [Hinv1 Hle].
  specialize (IH lc1 w1 Hinv1).
  apply StronglySorted_inv in IH as [Hs Hall].
  assert (Forall (Z.le (lastDirId lc)) (targetDirIds lc1 rest w1)) as Hall'.
  { eapply Forall_impl; [exact Hall|]. simpl. intros; lia. }
  destruct c; simpl.
  - apply SSorted_cons; [by apply SSorted_cons|]. by apply Forall_cons.
  - by apply SSorted_cons.
  - by apply SSorted_cons.
Qed.

Lemma sorted_later_greater (ids l1 : list Z) a b l2 :
  StronglySorted Z.le ids -> ids = l1 ++ a :: b :: l2 -> a <> b ->
  Forall (fun c => a < c) (b :: l2).
Proof.
  intros Hs ->. induction l1 as [|x l1 IH]; simpl in Hs.
  - intros Hne. apply StronglySorted_inv in Hs as [Hs Ha].
    apply StronglySorted_inv in Hs as [_ Hb].
    apply Forall_cons in Ha as [Hab _].
    constructor; [lia|]. eapply Forall_impl; [exact Hb|]. simpl. intros; lia.
  - apply StronglySorted_inv in Hs as [Hs _]. by apply IH.
Qed.

Lemma Run_start lc harvester w :
  (exists w1, Run lc harvester w = (Exit 1, w1)) \/
  (exists lc0,
     lastDirId lc0 = 1 /\ recordCount lc0 = recordCount lc /\
     maxDirSize lc0 = maxDirSize lc /\ dryRun lc0 = dryRun lc /\
     Run lc harvester w =
       (harvestWithHarvester lc0 harvester ≫= fun lc' =>
          closeDir lc' (lastDirId lc');; mret lc') w).
Proof.
  unfold Run. destruct (negb (String.eqb (filenameFilter lc) "")).
  - destruct (ParseRSExpr (filenameFilter lc)) as [a [e|]].
    + left. eexists. reflexivity.
    + right.
      by exists (set_dirPrefix (set_lastDirId (set_filenameFilterAst lc a) 1)
                   (time_Now_Format w)).
  - right. by exists (set_dirPrefix (set_lastDirId lc 1) (time_Now_Format w)).
Qed.

(** C8, as amended. [Run] starts the harvest with [lastDirId = 1]. For a
    positive directory size and a record count that stays below the largest
    [int], the directory ids that the calls of [OnRecord] leave in
    [lastDirId] never decrease, and after a change of id every later id is
    larger than the id that was left: a closed directory is not written to
    again. The id in [lastDirId], the only current directory, is the
    directory the record of the call is saved to. *)
Theorem directory_ids_increase :
  (forall lc harvester w,
     (exists w1, Run lc harvester w = (Exit 1, w1)) \/
     (exists lc0,
        lastDirId lc0 = 1 /\ recordCount lc0 = recordCount lc /\
        maxDirSize lc0 = maxDirSize lc /\ dryRun lc0 = dryRun lc /\
        Run lc harvester w =
          (harvestWithHarvester lc0 harvester ≫= fun lc' =>
             closeDir lc' (lastDirId lc');; mret lc') w)) /\
  (forall lc harvester w,
     0 < maxDirSize lc -> 0 <= recordCount lc -> lastDirId lc = 1 ->
     recordCount lc + Z.of_nat (length harvester) < GoInt.max_int ->
     let ids := lastDirId lc :: targetDirIds lc harvester w in
     StronglySorted Z.le ids /\
     forall l1 a b l2, ids = l1 ++ a :: b :: l2 -> a <> b ->
                       Forall (fun c => a < c) (b :: l2)) /\
  (forall lc res w lc' w',
     maxDirSize lc <> 0 -> dryRun lc = false ->
     saveRecord lc res w = (Return lc', w') ->
     exists before,
       saveRecordToDir lc' (lastDirId lc') res (w ++ before) = (Return tt, w')).
Proof.
  split; [|split].
  - apply Run_start.
  - intros lc harvester w Hsize Hcount Hlast Hmax ids.
    assert (StronglySorted Z.le ids) as Hs.
    { apply targetDirIds_sorted. repeat split; [done..|].
      rewrite Hlast. pose proof (Z.div_pos (recordCount lc) (maxDirSize lc)). lia. }
    split; [done|]. intros l1 a b l2 Hids Hne.
    by apply (sorted_later_greater ids l1).
  - intros lc res w lc' w' Hsize Hdry Hsave.
    destruct (saveRecord_returns _ _ _ _ _ Hsize Hdry Hsave) as [Hlc Hto].
    replace (lastDirId lc') with
      (GoInt.add (GoInt.quot (GoInt.add (recordCount lc) 1) (maxDirSize lc)) 1)
      by (by rewrite Hlc).
    exact Hto.
Qed.

(* ------------------------------------------------------------------------- *)
(** *** Native functions and the searcher *)

Lemma lookup_urn : NATIVE_FUNCTIONS !! "urn" = Some native_urn.
Proof. reflexivity. Qed.

Lemma lookup_replace : NATIVE_FUNCTIONS !! "replace" = Some native_replace.
Proof. reflexivity. Qed.

(** The functions that check their arity return an error that names them. *)
Lemma arity_checked rr args w :
  (length args <> 1%nat ->
   native_xp rr args w
   = (Return (None, Some (Errorf "xp() expects exactly 1 argument")), w)) /\
  (length args <> 2%nat ->
   native_startsWith rr args w
   = (Return (None, Some (Errorf "startsWith() expects exactly 2 argument")), w)) /\
  (length args <> 2%nat ->
   native_contains rr args w
   = (Return (None, Some (Errorf "contains() expects exactly 2 argument")), w)) /\
  (length args <> 3%nat ->
   native_replace rr args w
   = (Return (None, Some (Errorf "contains() expects exactly 3 argument")), w)).
Proof.
  unfold native_xp, native_startsWith, native_contains, native_replace.
  repeat split; intros H; apply Nat.eqb_neq in H; by rewrite H.
Qed.

(** C2, at the inputs where the code departs from it. [urn] is registered
    and returns the identifier of the record for an argument list that is
    not empty, without an error; [replace] is registered and for two
    arguments returns an arity error whose message names [contains] and does
    not name [replace]. *)
Theorem urn_and_replace_arity rr w :
  NATIVE_FUNCTIONS !! "urn" = Some native_urn /\
  native_urn rr [Some (RSString "x")] w
  = (Return (Some (RSString (Identifier rr)), None), w) /\
  NATIVE_FUNCTIONS !! "replace" = Some native_replace /\
  native_replace rr [Some (RSString "a"); Some (RSString "b")] w
  = (Return (None, Some (Errorf "contains() expects exactly 3 argument")), w) /\
  GoStrings.Contains "contains() expects exactly 3 argument" "replace" = false /\
  GoStrings.Contains "contains() expects exactly 3 argument" "contains" = true.
Proof. repeat split. Qed.

(** C9. When the evaluation of the expression on the record returns an
    error, [SearchRecord] returns no match, the empty string and that error,
    in the world the evaluation left. *)
Theorem SearchRecord_fails_closed a rr w res e w' :
  Evaluate a rr w = (Return (res, Some e), w') ->
  SearchRecord (mkExprRecordSearcher (Some a)) rr w
  = (Return (false, "", Some e), w').
Proof.
  intros H. unfold SearchRecord. simpl. by rewrite (bind_Return _ _ _ _ _ H).
Qed.

(* ------------------------------------------------------------------------- *)
(** *** The parser: what it returns *)

(** [ParseRSExpr] returns what the parse of the tokens of the text returns. *)
Lemma ParseRSExpr_returns expr :
  exists rsp, ParseRSExpr_tokens (scanner_tokens expr) = Some (ParseRSExpr expr, rsp).
Proof.
  destruct (ParseRSExpr_tokens_total (scanner_tokens expr)) as (r & rsp & H).
  exists rsp. unfold ParseRSExpr. by rewrite H.
Qed.





(* ------------------------------------------------------------------------- *)
(** *** The parser: its errors *)

Lemma errors_parseAtom rsp a e rsp' :
  tok rsp <> scanner.Ident ->
  parseAtom rsp = ((a, Some e), rsp') -> parse_error_at e rsp'.
Proof.
  intros Hni. unfold parseAtom, readString.
  destruct ((tok rsp =? scanner.String) || (tok rsp =? scanner.RawString)) eqn:E.
  - destruct (strconv_Unquote (tokText rsp)) as [u|] eqn:U.
    + destruct (consume rsp (tok rsp)) as [? ?]. by intros [=].
    + intros [= <- <- <-]. right. right. left. split; [done|]. split; [|done].
      apply orb_true_iff in E as [E|E]; apply Z.eqb_eq in E; auto.
  - intros [= <- <- <-]. right. left. split; [done|].
    apply orb_false_iff in E as [E1 E2].
    apply Z.eqb_neq in E1, E2. done.
Qed.

Lemma errors_parseFnArgs parse :
  errors_at parse ->
  forall fuel rsp args r rsp',
    parseFnArgs parse fuel rsp args = Some (r, rsp') ->
    match r with
    | inl _ => tok rsp' = rune_rparen
    | inr e => parse_error_at e rsp'
    end.
Proof.
  intros Hparse. induction fuel as [|fuel IH]; intros rsp args r rsp'; [done|].
  simpl. destruct (tok rsp =? rune_rparen) eqn:E; simpl.
  { intros [= <- <-]. by apply Z.eqb_eq in E. }
  apply Z.eqb_neq in E.
  destruct (if (0 <? length args)%nat then consume rsp rune_comma
            else ("", None, rsp)) as [[txt err] rsp1] eqn:C.
  destruct err as [e|].
  { intros [= <- <-]. destruct (0 <? length args)%nat; [|done].
    apply consume_inv in C as [(? & _)|([= ->] & Hne & ->)]; [done|].
    right. right. right. done. }
  destruct (parse rsp1) as [[[arg err] rsp2]|] eqn:P; [|done].
  destruct err as [e|].
  { intros [= <- <-]. by apply (Hparse _ _ _ _ P). }
  apply IH.
Qed.

Lemma errors_parseFn parse fuel rsp a e rsp' :
  errors_at parse -> tok rsp = scanner.Ident ->
  parseFn parse fuel rsp = Some ((a, Some e), rsp') -> parse_error_at e rsp'.
Proof.
  intros Hparse Ht. unfold parseFn.
  destruct (consume rsp scanner.Ident) as [[fnName err] rsp1] eqn:C.
  apply consume_inv in C as [(-> & _ & -> & ->)|(_ & Hne & _)]; [|done].
  destruct (NATIVE_FUNCTIONS !! tokText rsp) as [fn|] eqn:L.
  2:{ intros [= <- <- <-]. left. eauto. }
  destruct (nextTokenIs (nextToken rsp) rune_lparen); [|by intros [=]].
  destruct (consume (nextToken rsp) rune_lparen) as [[t2 e2] rsp2].
  destruct (parseFnArgs parse fuel rsp2 []) as [[res rsp3]|] eqn:A; [|done].
  apply (errors_parseFnArgs parse Hparse) in A.
  destruct res as [args|e3].
  2:{ by intros [= <- <- <-]. }
  unfold consume. apply Z.eqb_eq in A. rewrite A. by intros [=].
Qed.

Lemma errors_parseExpr fuel : errors_at (parseExpr fuel).
Proof.
  induction fuel as [|fuel IH]; intros rsp a e rsp'; [done|].
  simpl. destruct (tok rsp =? scanner.Ident) eqn:E.
  - apply Z.eqb_eq in E. by apply errors_parseFn.
  - apply Z.eqb_neq in E. intros [= H]. by apply (errors_parseAtom rsp a).
Qed.

(** X1. Parsing returns an expression of the kind the parser builds, or one
    of four errors, about the token at which the parser stopped: an
    unregistered name, a token that cannot start an expression, a string that
    cannot be unquoted, or a token after an argument that is neither a comma
    nor a closing parenthesis. The parser never reports that it expected a
    closing parenthesis or an identifier. *)
Theorem parse_errors tokens :
  exists r rsp,
    ParseRSExpr_tokens tokens = Some (r, rsp) /\
    ((exists a, r = (Some a, None) /\ parsed_ast a) \/
     (exists e, r = (None, Some e) /\ parse_error_at e rsp /\
        forall actual, e <> etoken rune_rparen actual /\
                       e <> etoken scanner.Ident actual /\
                       e <> etoken rune_lparen actual)).
Proof.
  destruct (ParseRSExpr_tokens_total tokens) as ([a err] & rsp & H).
  exists (a, err), rsp. split; [done|].
  destruct err as [e|].
  - right. revert H. unfold ParseRSExpr_tokens.
    destruct (parseExpr _ _) as [[[a0 err0] rsp0]|] eqn:P; [|done].
    destruct err0 as [e0|]; [|done]. intros [= <- <- <-].
    apply errors_parseExpr in P. exists e0. split; [done|]. split; [done|].
    intros actual.
    destruct P as [(f & -> & _)|[(-> & _)|[(-> & _)|(-> & _)]]]; done.
  - left. by apply ParseRSExpr_tokens_parsed in H as (a' & -> & Hp); eauto.
Qed.


(* ------------------------------------------------------------------------- *)
(** *** The parser: its grammar *)

Lemma pending_cons rsp t txt rest :
  pending rsp = (t, txt) :: rest ->
  tok rsp = t /\ tokText rsp = txt /\ scan rsp = rest /\ t <> scanner.EOF.
Proof.
  unfold pending. destruct (tok rsp =? scanner.EOF) eqn:E; [done|].
  apply Z.eqb_neq in E. intros [= <- <- <-]. done.
Qed.

Lemma pending_step rsp t txt rest :
  pending rsp = (t, txt) :: rest -> no_EOF (scan rsp) ->
  pending (nextToken rsp) = rest /\ no_EOF (scan (nextToken rsp)).
Proof.
  intros Hp Hs.
  destruct (pending_cons _ _ _ _ Hp) as (Ht & Htxt & Hscan & Hne).
  destruct (pending_nextToken rsp Hs ltac:(congruence)) as [Hp' Hs'].
  rewrite Hp in Hp'. simpl in Hp'. by injection Hp' as _ _ <-.
Qed.

Lemma pending_no_lparen rsp rest :
  pending rsp = rest -> no_lparen_first rest -> tok rsp <> rune_lparen.
Proof.
  intros <-. unfold pending. destruct (tok rsp =? scanner.EOF) eqn:E.
  - apply Z.eqb_eq in E. rewrite E. done.
  - done.
Qed.

Lemma consume_pending rsp t txt rest :
  pending rsp = (t, txt) :: rest -> no_EOF (scan rsp) ->
  consume rsp t = ((txt, None), nextToken rsp) /\
  pending (nextToken rsp) = rest /\ no_EOF (scan (nextToken rsp)).
Proof.
  intros Hp Hs.
  destruct (pending_cons _ _ _ _ Hp) as (Ht & Htxt & _ & _).
  destruct (pending_step _ _ _ _ Hp Hs) as [Hp' Hs'].
  unfold consume. rewrite Ht, Z.eqb_refl, Htxt. done.
Qed.

(** The loop of [parseFn], one turn at a time. *)
Lemma parseFnArgs_done parse fuel rsp args r :
  tok rsp = rune_rparen ->
  parseFnArgs parse fuel rsp args = Some r -> r = (inl args, rsp).
Proof.
  intros Ht. destruct fuel as [|fuel]; [done|]. simpl. rewrite Ht. simpl.
  by intros [= <-].
Qed.

Lemma parseFnArgs_first parse fuel rsp r :
  tok rsp <> rune_rparen ->
  parseFnArgs parse fuel rsp [] = Some r ->
  exists fuel' arg err rsp2,
    fuel = S fuel' /\ parse rsp = Some ((arg, err), rsp2) /\
    match err with
    | Some e => r = (inr e, rsp2)
    | None => parseFnArgs parse fuel' rsp2 [arg] = Some r
    end.
Proof.
  intros Ht. destruct fuel as [|fuel]; [done|]. simpl.
  apply Z.eqb_neq in Ht. rewrite Ht. simpl.
  destruct (parse rsp) as [[[arg err] rsp2]|] eqn:P; [|done].
  intros H. exists fuel, arg, err, rsp2. split; [done|]. split; [done|].
  destruct err; [by injection H as <-|done].
Qed.

Lemma parseFnArgs_more parse fuel rsp args txt rsp1 r :
  tok rsp <> rune_rparen -> args <> [] ->
  consume rsp rune_comma = ((txt, None), rsp1) ->
  parseFnArgs parse fuel rsp args = Some r ->
  exists fuel' arg err rsp2,
    fuel = S fuel' /\ parse rsp1 = Some ((arg, err), rsp2) /\
    match err with
    | Some e => r = (inr e, rsp2)
    | None => parseFnArgs parse fuel' rsp2 (args ++ [arg]) = Some r
    end.
Proof.
  intros Ht Hargs Hc. destruct fuel as [|fuel]; [done|]. simpl.
  apply Z.eqb_neq in Ht. rewrite Ht. simpl.
  assert ((0 <? length args)%nat = true) as -> by (by destruct args).
  rewrite Hc.
  destruct (parse rsp1) as [[[arg err] rsp2]|] eqn:P; [|done].
  intros H. exists fuel, arg, err, rsp2. split; [done|]. split; [done|].
  destruct err; [by injection H as <-|done].
Qed.

Lemma parseExpr_S fuel rsp :
  parseExpr (S fuel) rsp =
    if tok rsp =? scanner.Ident then parseFn (parseExpr fuel) fuel rsp
    else Some (parseAtom rsp).
Proof. reflexivity. Qed.

Lemma Expr_first toks a :
  Expr toks a ->
  exists t txt rest, toks = (t, txt) :: rest /\
    (t = scanner.String \/ t = scanner.RawString \/ t = scanner.Ident).
Proof. destruct 1; eexists _, _, _; (split; [reflexivity|]); tauto. Qed.

Lemma More_follow more t2 rest :
  forall args, More more args -> no_lparen_first (more ++ (rune_rparen, t2) :: rest).
Proof. by destruct 1. Qed.

Lemma grammar_parses :
  (forall toks a, Expr toks a -> parses_to toks a) /\
  (forall more args, More more args -> loops_to more args).
Proof.
  apply Expr_More_mutind.
  - (* atom *)
    intros t text s Ht Hu rest rsp fuel r Hp Hs Hrest.
    destruct (pending_cons _ _ _ _ Hp) as (Htok & Htxt & _ & _).
    destruct (pending_step _ _ _ _ Hp Hs) as [Hp' Hs'].
    destruct fuel as [|fuel]; [done|]. simpl.
    assert ((tok rsp =? scanner.Ident) = false) as ->
      by (rewrite Htok; destruct Ht as [-> | ->]; done).
    unfold parseAtom, readString. rewrite Htxt, Hu.
    assert ((tok rsp =? scanner.String) || (tok rsp =? scanner.RawString) = true) as ->
      by (rewrite Htok; destruct Ht as [-> | ->]; done).
    unfold consume. rewrite Z.eqb_refl. intros [= <-]. eauto.
  - (* bare *)
    intros fnName fn Hfn rest rsp fuel r Hp Hs Hrest.
    destruct (consume_pending _ _ _ _ Hp Hs) as (Hc & Hp' & Hs').
    destruct (pending_cons _ _ _ _ Hp) as (Htok & _).
    destruct fuel as [|fuel]; [done|]. simpl.
    rewrite Htok. simpl. unfold parseFn. rewrite Hc, Hfn.
    unfold nextTokenIs.
    pose proof (pending_no_lparen _ _ Hp' Hrest) as Hnl.
    apply Z.eqb_neq in Hnl. rewrite Hnl. intros [= <-]. eauto.
  - (* empty parentheses *)
    intros fnName fn t1 t2 Hfn rest rsp fuel r Hp Hs Hrest.
    destruct (consume_pending _ _ _ _ Hp Hs) as (Hc & Hp1 & Hs1).
    destruct (pending_cons _ _ _ _ Hp) as (Htok & _).
    destruct (consume_pending _ _ _ _ Hp1 Hs1) as (Hc1 & Hp2 & Hs2).
    destruct (pending_cons _ _ _ _ Hp1) as (Htok1 & _).
    destruct (consume_pending _ _ _ _ Hp2 Hs2) as (Hc2 & Hp3 & Hs3).
    destruct (pending_cons _ _ _ _ Hp2) as (Htok2 & _).
    destruct fuel as [|fuel]; [done|]. rewrite parseExpr_S.
    rewrite Htok. simpl. unfold parseFn. rewrite Hc, Hfn.
    unfold nextTokenIs. rewrite Htok1. simpl. rewrite Hc1.
    destruct (parseFnArgs _ _ _ _) as [r2|] eqn:A; simpl; [|done].
    apply parseFnArgs_done in A as ->; [|done].
    rewrite Hc2. intros [= <-]. eauto.
  - (* call *)
    intros fnName fn t1 first a more args t2 Hfn Hfirst IHfirst Hmore IHmore
      rest rsp fuel r Hp Hs Hrest.
    change (pending rsp = (scanner.Ident, fnName) :: (rune_lparen, t1)
              :: (first ++ more ++ [(rune_rparen, t2)]) ++ rest) in Hp.
    rewrite <- !app_assoc in Hp.
    change ([(rune_rparen, t2)] ++ rest) with ((rune_rparen, t2) :: rest) in Hp.
    destruct (consume_pending _ _ _ _ Hp Hs) as (Hc & Hp1 & Hs1).
    destruct (pending_cons _ _ _ _ Hp) as (Htok & _).
    destruct (consume_pending _ _ _ _ Hp1 Hs1) as (Hc1 & Hp2 & Hs2).
    destruct (pending_cons _ _ _ _ Hp1) as (Htok1 & _).
    destruct fuel as [|fuel]; [done|]. rewrite parseExpr_S.
    rewrite Htok. simpl. unfold parseFn. rewrite Hc, Hfn.
    unfold nextTokenIs. rewrite Htok1. simpl. rewrite Hc1.
    set (rsp2 := nextToken (nextToken rsp)) in *.
    assert (tok rsp2 <> rune_rparen) as Hnr.
    { destruct (Expr_first _ _ Hfirst) as (t & txt & rest' & -> & Ht).
      destruct (pending_cons _ _ _ _ Hp2) as (Ht2 & _). rewrite Ht2.
      by destruct Ht as [E | [E | E]]; rewrite E. }
    destruct (parseFnArgs (parseExpr fuel) fuel rsp2 []) as [r2|] eqn:A; simpl; [|done].
    destruct (parseFnArgs_first _ _ _ _ Hnr A)
      as (fuel' & arg & err & rsp3 & -> & P1 & Hloop).
    destruct (IHfirst _ _ _ _ Hp2 Hs2 (More_follow _ _ _ _ Hmore) P1)
      as (rsp3' & [= -> -> <-] & Hp3 & Hs3).
    assert ([Some a] <> []) as Hne by done.
    destruct (IHmore _ _ _ _ _ _ _ Hp3 Hs3 Hne Hloop) as (rsp4 & -> & Hp4 & Hs4).
    destruct (consume_pending _ _ _ _ Hp4 Hs4) as (Hc4 & Hp5 & Hs5).
    rewrite Hc4. intros [= <-]. eauto.
  - (* no more arguments *)
    intros rest rsp fuel fuel' args0 t2 r Hp Hs Hargs0.
    destruct (pending_cons _ _ _ _ Hp) as (Htok & _).
    intros A. apply parseFnArgs_done in A as ->; [|done].
    rewrite app_nil_r. eauto.
  - (* a comma and an argument *)
    intros tc next a more args Hnext IHnext Hmore IHmore
      rest rsp fuel fuel' args0 t2 r Hp Hs Hargs0.
    change (pending rsp = (rune_comma, tc) :: (next ++ more) ++ (rune_rparen, t2) :: rest)
      in Hp.
    rewrite <- app_assoc in Hp.
    destruct (consume_pending _ _ _ _ Hp Hs) as (Hc & Hp1 & Hs1).
    destruct (pending_cons _ _ _ _ Hp) as (Htok & _).
    intros A.
    destruct (parseFnArgs_more _ _ _ _ _ _ _ ltac:(by rewrite Htok) Hargs0 Hc A)
      as (fuel'' & arg & err & rsp3 & -> & P1 & Hloop).
    destruct (IHnext _ _ _ _ Hp1 Hs1 (More_follow _ _ _ _ Hmore) P1)
      as (rsp3' & [= -> -> <-] & Hp3 & Hs3).
    assert (args0 ++ [Some a] <> []) as Hne by (by destruct args0).
    destruct (IHmore _ _ _ _ _ _ _ Hp3 Hs3 Hne Hloop) as (rsp4 & -> & Hp4 & Hs4).
    rewrite <- app_assoc. simpl. eauto.
Qed.

Lemma Expr_no_EOF :
  (forall toks a, Expr toks a -> no_EOF toks) /\
  (forall more args, More more args -> no_EOF more).
Proof.
  apply Expr_More_mutind; unfold no_EOF.
  - intros t text s Ht _. constructor; [|constructor].
    simpl. by destruct Ht as [-> | ->].
  - intros. by repeat constructor.
  - intros. by repeat constructor.
  - intros fnName fn t1 first a more args t2 _ _ Hfirst _ Hmore.
    constructor; [done|]. constructor; [done|].
    apply Forall_app. split; [done|]. apply Forall_app. split; [done|].
    by repeat constructor.
  - constructor.
  - intros tc next a more args _ Hnext _ Hmore.
    constructor; [done|]. apply Forall_app. done.
Qed.

(** X2. Every phrase of the grammar is accepted: the tokens of a phrase,
    followed by tokens that do not start with an opening parenthesis, parse
    to the node the phrase stands for, and the parser stops right after the
    phrase. *)
Theorem grammar_is_accepted toks a rest :
  Expr toks a -> no_EOF rest -> no_lparen_first rest ->
  exists rsp,
    ParseRSExpr_tokens (toks ++ rest) = Some ((Some a, None), rsp) /\
    pending rsp = rest.
Proof.
  intros He Hrest Hnl.
  assert (no_EOF (toks ++ rest)) as Hs.
  { apply Forall_app. split; [|done]. by apply (proj1 Expr_no_EOF _ a). }
  destruct (pending_newParser _ Hs) as [Hp Hs0].
  destruct (ParseRSExpr_tokens_total (toks ++ rest)) as (r & rsp & H).
  revert H. unfold ParseRSExpr_tokens.
  destruct (parseExpr _ _) as [r0|] eqn:P; [|done].
  destruct (proj1 grammar_parses _ _ He _ _ _ _ Hp Hs0 Hnl P) as (rsp' & -> & Hp' & _).
  intros _. eauto.
Qed.

Lemma sound_parseAtom rsp arg rsp' :
  no_EOF (scan rsp) -> parseAtom rsp = ((arg, None), rsp') ->
  exists (toks : list (Z * string)) a,
    arg = Some a /\ pending rsp = toks ++ pending rsp' /\
    Expr toks a /\ no_EOF (scan rsp').
Proof.
  intros Hs. unfold parseAtom. destruct (readString rsp) as [[s err] rsp1] eqn:R.
  intros [= <- -> <-].
  apply readString_inv in R as [(_ & Htok & Hu & ->)|(_ & _ & [?|?])]; [|done..].
  destruct (pending_nextToken rsp Hs) as [Hp Hs'].
  { by destruct Htok as [-> | ->]. }
  exists [(tok rsp, tokText rsp)], (RSExprLiteral (Some (RSString s))).
  split; [done|]. split; [done|]. split; [|done]. by constructor.
Qed.

Lemma sound_parseFnArgs_more parse :
  sound_at parse ->
  forall fuel rsp args0 args' rsp',
    no_EOF (scan rsp) ->
    parseFnArgs parse fuel rsp args0 = Some (inl args', rsp') -> args0 <> [] ->
    exists more args,
      pending rsp = more ++ pending rsp' /\ More more args /\
      args' = args0 ++ args /\ tok rsp' = rune_rparen /\ no_EOF (scan rsp').
Proof.
  intros Hparse. induction fuel as [|fuel IH]; intros rsp args0 args' rsp' Hs; [done|].
  intros A Hne.
  destruct (decide (tok rsp = rune_rparen)) as [Ht|Ht].
  { apply parseFnArgs_done in A as [= <- <-]; [|done].
    exists [], []. rewrite app_nil_r. repeat split; [constructor|done..]. }
  revert A. simpl. apply Z.eqb_neq in Ht. rewrite Ht. simpl.
  assert ((0 <? length args0)%nat = true) as -> by (by destruct args0).
  destruct (consume rsp rune_comma) as [[txt err] rsp1] eqn:C.
  destruct err as [e|]; [done|].
  apply consume_inv in C as [(_ & Htok & _ & ->)|(? & _)]; [|done].
  destruct (pending_nextToken rsp Hs ltac:(by rewrite Htok)) as [Hp Hs1].
  destruct (parse (nextToken rsp)) as [[[arg err] rsp2]|] eqn:P; [|done].
  destruct err as [e|]; [done|].
  destruct (Hparse _ _ _ Hs1 P) as (toks & a & -> & Hp2 & He & Hs2).
  intros A.
  destruct (IH _ _ _ _ Hs2 A) as (more & args & Hp3 & Hm & -> & Hr & Hs3).
  { by destruct args0. }
  exists ((rune_comma, tokText rsp) :: toks ++ more), (Some a :: args).
  split; [|split; [|split; [|done]]].
  - rewrite Hp, Hp2, Hp3, Htok. simpl. by rewrite <- app_assoc.
  - by constructor.
  - by rewrite <- app_assoc.
Qed.

Lemma sound_parseFnArgs parse fuel rsp args' rsp' :
  sound_at parse -> no_EOF (scan rsp) ->
  parseFnArgs parse fuel rsp [] = Some (inl args', rsp') ->
  tok rsp' = rune_rparen /\ no_EOF (scan rsp') /\
  ((args' = [] /\ rsp' = rsp) \/
   exists first a more args,
     pending rsp = first ++ more ++ pending rsp' /\ Expr first a /\
     More more args /\ args' = Some a :: args).
Proof.
  intros Hparse Hs A.
  destruct (decide (tok rsp = rune_rparen)) as [Ht|Ht].
  { apply parseFnArgs_done in A as [= <- <-]; [|done]. auto. }
  destruct (parseFnArgs_first _ _ _ _ Ht A)
    as (fuel' & arg & err & rsp2 & -> & P & Hloop).
  destruct err as [e|]; [done|].
  destruct (Hparse _ _ _ Hs P) as (toks & a & -> & Hp2 & He & Hs2).
  destruct (sound_parseFnArgs_more parse Hparse _ _ _ _ _ Hs2 Hloop)
    as (more & args & Hp3 & Hm & -> & Hr & Hs3); [done|].
  split; [done|]. split; [done|]. right.
  exists toks, a, more, args. split; [|done]. by rewrite Hp2, Hp3.
Qed.

Lemma sound_parseFn parse fuel : sound_at parse -> sound_at (parseFn parse fuel).
Proof.
  intros Hparse rsp arg rsp' Hs. unfold parseFn.
  destruct (consume rsp scanner.Ident) as [[fnName err] rsp1] eqn:C.
  destruct err as [e|]; [done|].
  apply consume_inv in C as [(_ & Htok & -> & ->)|(? & _)]; [|done].
  destruct (pending_nextToken rsp Hs ltac:(by rewrite Htok)) as [Hp Hs1].
  rewrite Htok in Hp.
  destruct (NATIVE_FUNCTIONS !! tokText rsp) as [fn|] eqn:L; [|done].
  unfold nextTokenIs. destruct (tok (nextToken rsp) =? rune_lparen) eqn:E.
  2:{ intros [= <- <-]. eexists _, _. split; [done|]. split; [exact Hp|].
      split; [|done]. by constructor. }
  apply Z.eqb_eq in E.
  destruct (consume (nextToken rsp) rune_lparen) as [[t1 e1] rsp2] eqn:C1.
  apply consume_inv in C1 as [(_ & _ & -> & ->)|(_ & ? & _)]; [|done].
  destruct (pending_nextToken (nextToken rsp) Hs1 ltac:(by rewrite E)) as [Hp1 Hs2].
  rewrite E in Hp1.
  destruct (parseFnArgs parse fuel (nextToken (nextToken rsp)) [])
    as [[[args'|e] rsp3]|] eqn:A; [|done..].
  destruct (sound_parseFnArgs _ _ _ _ _ Hparse Hs2 A) as (Hr & Hs3 & Hargs).
  destruct (consume rsp3 rune_rparen) as [[t2 e2] rsp4] eqn:C2.
  apply consume_inv in C2 as [(-> & _ & -> & ->)|(_ & ? & _)]; [|done].
  destruct (pending_nextToken rsp3 Hs3 ltac:(by rewrite Hr)) as [Hp3 Hs4].
  rewrite Hr in Hp3.
  intros [= <- <-].
  destruct Hargs as [[-> ->]|(first & a & more & args & Hp2 & He & Hm & ->)].
  - exists [(scanner.Ident, tokText rsp); (rune_lparen, tokText (nextToken rsp));
            (rune_rparen, tokText (nextToken (nextToken rsp)))],
           (RSExprFnCall fn []).
    split; [done|]. split; [|split; [|done]].
    + rewrite Hp, Hp1, Hp3. reflexivity.
    + by constructor.
  - exists ((scanner.Ident, tokText rsp) :: (rune_lparen, tokText (nextToken rsp))
            :: first ++ more ++ [(rune_rparen, tokText rsp3)]),
           (RSExprFnCall fn (Some a :: args)).
    split; [done|]. split; [|split; [|done]].
    + rewrite Hp, Hp1, Hp2, Hp3. simpl. by rewrite <- !app_assoc.
    + by constructor.
Qed.

Lemma sound_parseExpr fuel : sound_at (parseExpr fuel).
Proof.
  induction fuel as [|fuel IH]; intros rsp arg rsp' Hs; [done|].
  rewrite parseExpr_S. destruct (tok rsp =? scanner.Ident).
  - by apply sound_parseFn.
  - intros [= H]. by apply sound_parseAtom.
Qed.

(** X3. Only phrases of the grammar are accepted: when parsing returns an
    expression, the tokens the parser has consumed are a phrase of the grammar
    that stands for it. *)
Theorem accepted_is_grammar tokens a rsp :
  no_EOF tokens ->
  ParseRSExpr_tokens tokens = Some ((Some a, None), rsp) ->
  exists toks, tokens = toks ++ pending rsp /\ Expr toks a.
Proof.
  intros Hs. destruct (pending_newParser _ Hs) as [Hp Hs0].
  unfold ParseRSExpr_tokens.
  destruct (parseExpr _ _) as [[[arg [e|]] rsp0]|] eqn:P; [done| |done].
  intros [= -> ->].
  destruct (sound_parseExpr _ _ _ _ Hs0 P) as (toks & a' & [= <-] & Hp' & He & _).
  exists toks. split; [|done]. by rewrite <- Hp, Hp'.
Qed.

(* ------------------------------------------------------------------------- *)
(** *** Parsed expressions evaluate to strings *)

Lemma concat_loop_strings args : forall buf,
  Forall is_string args -> exists s, returns (concat_loop args buf) s.
Proof.
  induction args as [|arg rest IH]; intros buf Hall; simpl.
  { by exists buf. }
  apply Forall_cons in Hall as [[v ->] Hrest].
  destruct (IH (buf +:+ v) Hrest) as [s Hs]. exists s. intros w.
  unfold mbind, M_bind, mret, M_ret. simpl. apply Hs.
Qed.

Lemma native_functions_strings fnName Fn :
  NATIVE_FUNCTIONS !! fnName = Some Fn -> string_function Fn.
Proof.
  intros H. apply elem_of_list_to_map_2 in H.
  repeat (apply elem_of_cons in H as [[= _ ->]|H]); [..|by apply elem_of_nil in H].
  - intros rr args Hall. unfold native_xp.
    destruct args as [|a0 [|? ?]]; simpl;
      try (eexists; split; [right; eauto|intros w; reflexivity]; fail).
    apply Forall_cons in Hall as [[s0 ->] _].
    unfold returns, mbind, M_bind, mret, M_ret. simpl.
    destruct (xmlpath_Compile _); [|eexists; split; [right; eauto|done]].
    destruct (xmlpath_Parse _); [|eexists; split; [right; eauto|done]].
    destruct (xmlpath_String _ _). eexists; split; [left; eauto|done].
  - intros rr args Hall. unfold native_concat.
    destruct (concat_loop_strings args "" Hall) as [s Hs].
    eexists; split; [left; eauto|]. intros w.
    unfold mbind, M_bind. by rewrite Hs.
  - intros rr args Hall. unfold native_startsWith.
    destruct args as [|a0 [|a1 [|? ?]]]; simpl;
      try (eexists; split; [right; eauto|intros w; reflexivity]; fail).
    apply Forall_cons in Hall as [[s0 ->] Hall].
    apply Forall_cons in Hall as [[s1 ->] _].
    unfold returns, mbind, M_bind, mret, M_ret. simpl.
    destruct (GoStrings.HasPrefix _ _); eexists; (split; [left; eauto|done]).
  - intros rr args Hall. unfold native_contains.
    destruct args as [|a0 [|a1 [|? ?]]]; simpl;
      try (eexists; split; [right; eauto|intros w; reflexivity]; fail).
    apply Forall_cons in Hall as [[s0 ->] Hall].
    apply Forall_cons in Hall as [[s1 ->] _].
    unfold returns, mbind, M_bind, mret, M_ret. simpl.
    destruct (GoStrings.Contains _ _); eexists; (split; [left; eauto|done]).
  - intros rr args Hall. eexists; split; [left; eauto|done].
  - intros rr args Hall. unfold native_replace.
    destruct args as [|a0 [|a1 [|a2 [|? ?]]]]; simpl;
      try (eexists; split; [right; eauto|intros w; reflexivity]; fail).
    apply Forall_cons in Hall as [[s0 ->] Hall].
    apply Forall_cons in Hall as [[s1 ->] Hall].
    apply Forall_cons in Hall as [[s2 ->] _].
    eexists; split; [left; eauto|done].
Qed.

Lemma evalArgs_strings rr (FnArgs : list (option RSExprAst)) :
  Forall (arg_holds (evaluates_to_string rr)) FnArgs ->
  Forall is_Some FnArgs ->
  forall i argValues,
    Forall is_string (take i argValues) -> (i + length FnArgs = length argValues)%nat ->
    (exists vals, Forall is_string vals /\
       returns (evalArgs (fun arg => call_Evaluate arg rr) FnArgs i argValues) (inl vals)) \/
    (exists e,
       returns (evalArgs (fun arg => call_Evaluate arg rr) FnArgs i argValues) (inr e)).
Proof.
  induction 1 as [|arg rest Harg _ IH]; intros Hsome i argValues Hdone Hlen; simpl.
  - left. exists argValues. split; [|done].
    simpl in Hlen. rewrite Nat.add_0_r in Hlen. subst i.
    by rewrite firstn_all in Hdone.
  - apply Forall_cons in Hsome as [[a ->] Hsome]. simpl in Harg.
    destruct Harg as (r & Hr & He).
    destruct Hr as [[s ->]|[e ->]].
    2:{ right. exists e. intros w. simpl. unfold mbind, M_bind. by rewrite He. }
    destruct (IH Hsome (S i) (<[i := Some (RSString s)]> argValues))
      as [(vals & Hvals & Hret)|(e & Hret)].
    + rewrite (take_S_r _ _ (Some (RSString s))).
      * apply Forall_app. split; [|by repeat econstructor].
        by rewrite take_insert_ge by lia.
      * apply list_lookup_insert_eq. simpl in Hlen. lia.
    + rewrite length_insert. simpl in Hlen. lia.
    + left. exists vals. split; [done|]. intros w. simpl.
      unfold mbind, M_bind. rewrite He. apply Hret.
    + right. exists e. intros w. simpl.
      unfold mbind, M_bind. rewrite He. apply Hret.
Qed.

Lemma Evaluate_parsed_string a rr : parsed_ast a -> evaluates_to_string rr a.
Proof.
  induction a as [val|Fn FnArgs IH] using RSExprAst_nested_ind; intros Hp.
  - destruct Hp as [s ->]. eexists. split; [left; eauto|done].
  - apply parsed_ast_call in Hp as [[fnName Hfn] Hargs].
    destruct (evalArgs_strings rr FnArgs) with (i := 0%nat)
      (argValues := replicate (length FnArgs) (@None RSExprValue))
      as [(vals & Hvals & Hret)|(e & Hret)].
    + eapply Forall_impl; [apply Forall_and; split; [exact IH|exact Hargs]|].
      intros [a'|] [Ha (a'' & Heq & Hpa)]; [|done].
      injection Heq as <-. by apply Ha.
    + eapply Forall_impl; [exact Hargs|]. intros arg (a' & -> & _). by eexists.
    + constructor.
    + by rewrite length_replicate.
    + destruct (native_functions_strings fnName Fn Hfn rr vals Hvals) as (r & Hr & HFn).
      exists r. split; [done|]. intros w.
      rewrite Evaluate_FnCall. rewrite (bind_Return _ _ _ _ _ (Hret w)). apply HFn.
    + exists (None, Some e). split; [right; eauto|]. intros w.
      rewrite Evaluate_FnCall. by rewrite (bind_Return _ _ _ _ _ (Hret w)).
Qed.

(** X4. The value of an expression that the parser has built depends on the
    expression and the record only, and its evaluation leaves the world as it
    is: it returns a string or an error, the same in every world. No boolean
    value, no [nil] and no panic come out of a parsed expression, and the
    result counts as true exactly when the string is not empty. *)
Theorem parsed_evaluates_to_string tokens a rsp rr :
  ParseRSExpr_tokens tokens = Some ((Some a, None), rsp) ->
  (exists s, returns (Evaluate a rr) (Some (RSString s), None) /\
             (Bool (RSString s) = true <-> s <> "")) \/
  (exists e, returns (Evaluate a rr) (None, Some e)).
Proof.
  intros H. apply ParseRSExpr_tokens_parsed in H as (a' & [= <-] & Hp).
  destruct (Evaluate_parsed_string a rr Hp) as (r & [[s ->]|[e ->]] & He).
  - left. exists s. split; [done|]. simpl.
    destruct (String.eqb_spec s ""); simpl; split; congruence.
  - right. eauto.
Qed.

Lemma ParseRSExpr_ast_or_error expr :
  (exists a, ParseRSExpr expr = (Some a, None) /\ parsed_ast a) \/
  (exists e, ParseRSExpr expr = (None, Some e)).
Proof.
  destruct (ParseRSExpr_returns expr) as [rsp H].
  destruct (ParseRSExpr expr) as [a [e|]].
  - right. exists e. revert H. unfold ParseRSExpr_tokens.
    destruct (parseExpr _ _) as [[[a0 [e0|]] rsp0]|]; [|done..].
    by intros [= <- <- <-].
  - left. apply ParseRSExpr_tokens_parsed in H as (a' & -> & Hp). eauto.
Qed.

(** X5. [ParseRecordMatchExpr] returns a searcher exactly when [ParseRSExpr]
    returns an expression, and the error of [ParseRSExpr] otherwise. A search
    with such a searcher leaves the world as it is and depends on the record
    only: it returns an error with no match and the empty string, or a string
    without error, with a match exactly when that string is not empty. *)
Theorem ParseRecordMatchExpr_searches expr :
  (exists a,
     ParseRSExpr expr = (Some a, None) /\
     ParseRecordMatchExpr expr = (Some (mkExprRecordSearcher (Some a)), None) /\
     forall rr,
       (exists s, returns (SearchRecord (mkExprRecordSearcher (Some a)) rr)
                    (negb (String.eqb s ""), s, None)) \/
       (exists e, returns (SearchRecord (mkExprRecordSearcher (Some a)) rr)
                    (false, "", Some e))) \/
  (exists e,
     ParseRSExpr expr = (None, Some e) /\
     ParseRecordMatchExpr expr = (None, Some e)).
Proof.
  destruct (ParseRSExpr_ast_or_error expr) as [(a & H & Hp)|(e & H)].
  - left. exists a. split; [done|]. unfold ParseRecordMatchExpr. rewrite H.
    split; [done|]. intros rr.
    destruct (Evaluate_parsed_string a rr Hp) as (r & [[s ->]|[e ->]] & He).
    + left. exists s. intros w. unfold SearchRecord. simpl.
      by rewrite (bind_Return _ _ _ _ _ (He w)).
    + right. exists e. intros w. unfold SearchRecord. simpl.
      by rewrite (bind_Return _ _ _ _ _ (He w)).
  - right. exists e. split; [done|]. unfold ParseRecordMatchExpr. by rewrite H.
Qed.

(* ------------------------------------------------------------------------- *)
(** *** Native functions on strings *)

Lemma append_cons x (a b : string) : String.String x a +:+ b = String.String x (a +:+ b).
Proof. reflexivity. Qed.

Lemma append_assoc (a b c : string) : (a +:+ b) +:+ c = a +:+ b +:+ c.
Proof. induction a as [|x a IH]; [done|]. by rewrite !append_cons, IH. Qed.

Lemma append_nil_r (a : string) : a +:+ "" = a.
Proof. induction a as [|x a IH]; [done|]. by rewrite append_cons, IH. Qed.

Lemma concat_loop_joined vs : forall buf w,
  concat_loop (Some <$> vs) buf w = (Return (buf +:+ joined vs), w).
Proof.
  induction vs as [|v vs IH]; intros buf w; simpl.
  - by rewrite append_nil_r.
  - unfold mbind, M_bind, mret, M_ret. simpl. rewrite IH. by rewrite append_assoc.
Qed.

Lemma joined_app vs1 vs2 : joined (vs1 ++ vs2) = joined vs1 +:+ joined vs2.
Proof.
  induction vs1 as [|v vs1 IH]; simpl; [done|]. by rewrite IH, append_assoc.
Qed.

(** X6. [concat] takes any number of arguments and never fails: it returns
    the string forms of its arguments one after the other, the empty string
    for no argument. A call of [concat] among the arguments of another can be
    replaced by its own arguments. *)
Theorem concat_joins rr w :
  (forall vs,
     native_concat rr (Some <$> vs) w = (Return (Some (RSString (joined vs)), None), w)) /\
  native_concat rr [] w = (Return (Some (RSString ""), None), w) /\
  (forall vs1 vs2 vs3,
     native_concat rr (Some <$> (vs1 ++ [RSString (joined vs2)] ++ vs3)) w
     = native_concat rr (Some <$> (vs1 ++ vs2 ++ vs3)) w).
Proof.
  assert (forall vs,
     native_concat rr (Some <$> vs) w = (Return (Some (RSString (joined vs)), None), w))
    as H.
  { intros vs. unfold native_concat.
    by rewrite (bind_Return _ _ _ _ _ (concat_loop_joined vs "" w)). }
  split; [exact H|]. split; [exact (H [])|].
  intros vs1 vs2 vs3. rewrite !H, !joined_app. simpl. by rewrite append_nil_r.
Qed.

Lemma prefix_starts_with p s : String.prefix p s = true <-> starts_with p s.
Proof.
  unfold starts_with. revert s. induction p as [|x p IH]; intros s.
  - split; [by exists s|by destruct s].
  - destruct s as [|y s].
    + split; [done|]. by intros [after [=]].
    + simpl. destruct (Ascii.ascii_dec x y) as [->|Hne].
      * rewrite IH. split.
        -- intros [after ->]. by exists after.
        -- intros [after H]. rewrite append_cons in H. injection H as ->.
           by exists after.
      * split; [done|]. intros [after H]. rewrite append_cons in H.
        by injection H as ? _.
Qed.

Lemma Contains_occurs_in s sub : GoStrings.Contains s sub = true <-> occurs_in sub s.
Proof.
  unfold occurs_in. induction s as [|x s IH].
  - change (GoStrings.Contains "" sub) with (String.prefix sub "" || false).
    rewrite orb_false_r, prefix_starts_with. split.
    + intros [after H]. exists "", after. done.
    + intros (before & after & H). destruct before as [|y b]; [|done].
      by exists after.
  - change (GoStrings.Contains (String.String x s) sub)
      with (String.prefix sub (String.String x s) || GoStrings.Contains s sub).
    rewrite orb_true_iff, prefix_starts_with, IH. split.
    + intros [[after H]|(before & after & H)].
      * exists "", after. done.
      * exists (String.String x before), after. by rewrite append_cons, <- H.
    + intros (before & after & H). destruct before as [|y b].
      * left. by exists after.
      * right. rewrite append_cons in H. injection H as _ H. eauto.
Qed.

Lemma startsWith_value rr v0 v1 w :
  native_startsWith rr [Some v0; Some v1] w
  = (Return (Some (if GoStrings.HasPrefix (String v0) (String v1)
                   then v0 else RSString ""), None), w).
Proof.
  unfold native_startsWith. simpl. unfold mbind, M_bind, mret, M_ret. simpl.
  by destruct (GoStrings.HasPrefix _ _).
Qed.

Lemma contains_value rr v0 v1 w :
  native_contains rr [Some v0; Some v1] w
  = (Return (Some (if GoStrings.Contains (String v0) (String v1)
                   then v0 else RSString ""), None), w).
Proof.
  unfold native_contains. simpl. unfold mbind, M_bind, mret, M_ret. simpl.
  by destruct (GoStrings.Contains _ _).
Qed.

(** X7. [startsWith], called with two values, returns its first argument as
    it is when the string form of the first starts with the string form of
    the second, and the empty string otherwise; so an empty prefix always
    matches, and a result that is true is the first argument. *)
Theorem startsWith_matches rr v0 v1 w :
  (starts_with (String v1) (String v0) ->
   native_startsWith rr [Some v0; Some v1] w = (Return (Some v0, None), w)) /\
  (~ starts_with (String v1) (String v0) ->
   native_startsWith rr [Some v0; Some v1] w = (Return (Some (RSString ""), None), w)) /\
  (String v1 = "" ->
   native_startsWith rr [Some v0; Some v1] w = (Return (Some v0, None), w)).
Proof.
  rewrite startsWith_value. unfold GoStrings.HasPrefix.
  destruct (String.prefix (String v1) (String v0)) eqn:E.
  - apply prefix_starts_with in E. split; [done|]. split; [done|done].
  - assert (~ starts_with (String v1) (String v0)) as Hn.
    { rewrite <- prefix_starts_with. congruence. }
    split; [done|]. split; [done|]. intros H. destruct Hn. rewrite H. by eexists.
Qed.

(** X8. [contains], called with two values, returns its first argument as it
    is when the string form of the second occurs in the string form of the
    first, and the empty string otherwise; whenever [startsWith] returns its
    first argument, so does [contains]. *)
Theorem contains_matches rr v0 v1 w :
  (occurs_in (String v1) (String v0) ->
   native_contains rr [Some v0; Some v1] w = (Return (Some v0, None), w)) /\
  (~ occurs_in (String v1) (String v0) ->
   native_contains rr [Some v0; Some v1] w = (Return (Some (RSString ""), None), w)) /\
  (starts_with (String v1) (String v0) ->
   native_contains rr [Some v0; Some v1] w = native_startsWith rr [Some v0; Some v1] w).
Proof.
  rewrite contains_value, startsWith_value.
  assert (forall P : Prop, (GoStrings.Contains (String v0) (String v1) = true -> P) ->
            occurs_in (String v1) (String v0) -> P) as Hyes.
  { intros P HP H. apply HP. by apply Contains_occurs_in. }
  split; [|split].
  - apply Hyes. by intros ->.
  - intros Hn. destruct (GoStrings.Contains _ _) eqn:E; [|done].
    by apply Contains_occurs_in in E.
  - intros Hs. unfold GoStrings.HasPrefix.
    rewrite (proj2 (prefix_starts_with _ _) Hs).
    destruct Hs as [after H]. apply Hyes; [by intros ->|].
    exists "", after. done.
Qed.

(* ------------------------------------------------------------------------- *)
(** *** The harvest command: directory names *)

Lemma length_append (a b : string) :
  String.length (a +:+ b) = (String.length a + String.length b)%nat.
Proof. induction a as [|x a IH]; [done|]. rewrite append_cons. simpl. by rewrite IH. Qed.

Lemma decimal_digit d s :
  0 <= d <= 9 ->
  decimal (GoStrings.digit d +:+ s) = d * 10 ^ Z.of_nat (String.length s) + decimal s.
Proof.
  intros Hd. unfold GoStrings.digit. rewrite append_cons. simpl.
  rewrite Ascii.nat_ascii_embedding by lia. f_equal. f_equal. lia.
Qed.

Lemma length_digit d s : String.length (GoStrings.digit d +:+ s) = S (String.length s).
Proof. reflexivity. Qed.

Lemma decimal_digits fuel : forall z acc,
  0 <= z < 2 ^ Z.of_nat fuel ->
  decimal (GoStrings.digits fuel z acc)
  = z * 10 ^ Z.of_nat (String.length acc) + decimal acc.
Proof.
  induction fuel as [|fuel IH]; intros z acc Hz.
  - simpl in *. assert (z = 0) as -> by lia. lia.
  - cbn [GoStrings.digits].
    pose proof (Z.mod_pos_bound z 10 ltac:(lia)) as Hm.
    destruct (z <? 10) eqn:E.
    + apply Z.ltb_lt in E. rewrite decimal_digit by lia.
      rewrite Z.mod_small by lia. done.
    + apply Z.ltb_ge in E. rewrite IH.
      * rewrite decimal_digit by lia. rewrite length_digit.
        rewrite Nat2Z.inj_succ, Z.pow_succ_r by lia.
        pose proof (Z.div_mod z 10 ltac:(lia)). nia.
      * split; [apply Z.div_pos; lia|].
        rewrite Nat2Z.inj_succ, Z.pow_succ_r in Hz by lia.
        apply Z.div_lt_upper_bound; lia.
Qed.

Lemma decimal_utoa z : 0 <= z -> decimal (GoStrings.utoa z) = z.
Proof.
  intros Hz. unfold GoStrings.utoa. rewrite decimal_digits.
  - simpl. lia.
  - split; [done|]. rewrite Nat2Z.inj_succ.
    destruct (decide (z = 0)) as [->|Hne]; [done|].
    rewrite Z2Nat.id by apply Z.log2_nonneg.
    apply Z.log2_spec. lia.
Qed.

Lemma decimal_cons c s :
  decimal (String.String c s)
  = (Z.of_nat (Ascii.nat_of_ascii c) - 48) * 10 ^ Z.of_nat (String.length s) + decimal s.
Proof. reflexivity. Qed.

Lemma decimal_zeros n s :
  decimal (GoStrings.replicate_str n "0" +:+ s) = decimal s.
Proof.
  induction n as [|n IH]; [done|].
  change (GoStrings.replicate_str (S n) "0" +:+ s)
    with (String.String (Ascii.ascii_of_nat 48) (GoStrings.replicate_str n "0" +:+ s)).
  rewrite decimal_cons, IH. rewrite Ascii.nat_ascii_embedding by lia. lia.
Qed.

(** The digits start with a digit. *)
Lemma digits_head fuel : forall z acc,
  0 <= z ->
  exists d rest, 0 <= d <= 9 /\
    GoStrings.digits (S fuel) z acc = GoStrings.digit d +:+ rest.
Proof.
  induction fuel as [|fuel IH]; intros z acc Hz.
  - pose proof (Z.mod_pos_bound z 10 ltac:(lia)) as Hm.
    exists (z mod 10), acc. split; [lia|]. cbn [GoStrings.digits].
    by destruct (z <? 10).
  - pose proof (Z.mod_pos_bound z 10 ltac:(lia)) as Hm.
    cbn [GoStrings.digits]. destruct (z <? 10) eqn:E.
    + exists (z mod 10), acc. split; [lia|done].
    + apply (IH (z / 10)). apply Z.div_pos; lia.
Qed.

Lemma atoi_digit d s : 0 <= d <= 9 -> atoi (GoStrings.digit d +:+ s) = decimal (GoStrings.digit d +:+ s).
Proof.
  intros Hd. unfold GoStrings.digit. rewrite append_cons. unfold atoi.
  destruct (Ascii.eqb_spec (Ascii.ascii_of_nat (Z.to_nat (48 + d))) (Ascii.ascii_of_nat 45))
    as [E|E]; [|done].
  apply (f_equal Ascii.nat_of_ascii) in E.
  rewrite !Ascii.nat_ascii_embedding in E by lia. lia.
Qed.

Lemma atoi_fmt_02d z : atoi (GoStrings.fmt_02d z) = z.
Proof.
  unfold GoStrings.fmt_02d. destruct (z <? 0) eqn:E.
  - apply Z.ltb_lt in E.
    change (atoi ("-" +:+ ?s)) with (- decimal s).
    rewrite decimal_zeros, decimal_utoa by lia. lia.
  - apply Z.ltb_ge in E.
    destruct (digits_head (Z.to_nat (Z.log2 z)) z "" E) as (d & rest & Hd & Hr).
    fold (GoStrings.utoa z) in Hr.
    destruct (2 - String.length (GoStrings.utoa z))%nat as [|n] eqn:En.
    + change (GoStrings.replicate_str 0 "0" +:+ ?s) with s.
      rewrite Hr, atoi_digit by done. rewrite <- Hr. by apply decimal_utoa.
    + change (atoi (GoStrings.replicate_str (S n) "0" +:+ ?s))
        with (decimal (GoStrings.replicate_str (S n) "0" +:+ s)).
      rewrite decimal_zeros. by apply decimal_utoa.
Qed.

Lemma dirName_inj lc d1 d2 : dirName lc d1 = dirName lc d2 -> d1 = d2.
Proof.
  unfold dirName. intros H.
  apply (inj (String.append _)) in H. apply (inj (String.append _)) in H.
  apply (f_equal atoi) in H. by rewrite !atoi_fmt_02d in H.
Qed.

(** X9. The name of a directory determines its id: two different ids never
    share a directory name. The id is printed in decimal, with its sign and
    padded with zeros, and the name reads back as the id. *)
Theorem dirName_distinct lc d1 d2 :
  d1 <> d2 ->
  dirName lc d1 <> dirName lc d2 /\
  atoi (GoStrings.fmt_02d d1) = d1 /\ atoi (GoStrings.fmt_02d d2) = d2.
Proof.
  intros Hne. split; [|by rewrite !atoi_fmt_02d].
  intros H. by apply dirName_inj in H.
Qed.

(* ------------------------------------------------------------------------- *)
(** *** The harvest command: the state a harvest leaves *)

Lemma observe_state lc c w lc' w' :
  observe lc c w = (Return lc', w') ->
  lc' = match c with
        | CallOnRecord _ => after_records lc 1
        | _ => lc
        end.
Proof.
  destruct c as [rr|err|h s e]; simpl.
  - intros H. destruct (decide (maxDirSize lc = 0)) as [Hz|Hsize].
    + unfold OnRecord in H. by rewrite saveRecord_zero_size in H.
    + by apply saveRecord_state in H.
  - by intros [= <- _].
  - by intros [= <- _].
Qed.

Lemma after_records_S lc n :
  GoInt.in_range (recordCount lc) ->
  after_records (after_records lc 1) n = after_records lc (S n).
Proof.
  intros Hr. destruct n as [|n]; [done|].
  unfold after_records. simpl recordCount. simpl maxDirSize.
  assert (GoInt.wrap (GoInt.wrap (recordCount lc + Z.of_nat 1) + Z.of_nat (S n))
          = GoInt.wrap (recordCount lc + Z.of_nat (S (S n)))) as ->.
  { rewrite wrap_add_wrap. f_equal. lia. }
  by destruct lc.
Qed.

Lemma after_records_in_range lc n :
  GoInt.in_range (recordCount lc) -> GoInt.in_range (recordCount (after_records lc n)).
Proof. intros Hr. destruct n; [done|]. apply wrap_in_range. Qed.

(** X10. A harvest that returns has changed nothing of the command but the
    count of records and the current directory id: the count has grown by the
    number of records delivered, and when there was one the directory id is
    the quotient of the count by the directory size, plus one. Errors and the
    final totals leave the command as it is. *)
Theorem harvest_leaves harvester : forall lc w lc' w',
  GoInt.in_range (recordCount lc) ->
  harvestWithHarvester lc harvester w = (Return lc', w') ->
  lc' = after_records lc (admitted harvester).
Proof.
  induction harvester as [|c rest IH]; intros lc w lc' w' Hr H.
  { by injection H as <- _. }
  apply harvest_cons in H as (lc1 & w1 & Ho & H).
  apply observe_state in Ho.
  destruct c as [rr|err|h s e]; subst lc1.
  - apply IH in H; [|by apply after_records_in_range].
    rewrite H. change (admitted (CallOnRecord rr :: rest)) with (S (admitted rest)).
    by apply after_records_S.
  - by apply IH in H.
  - by apply IH in H.
Qed.

(* ------------------------------------------------------------------------- *)
(** *** The harvest command: the directory of each record *)

Lemma observe_partition lc c w lc' w' :
  0 < maxDirSize lc -> 0 <= recordCount lc -> recordCount lc + 1 < GoInt.max_int ->
  observe lc c w = (Return lc', w') ->
  maxDirSize lc' = maxDirSize lc /\
  match c with
  | CallOnRecord _ =>
      recordCount lc' = recordCount lc + 1 /\
      lastDirId lc' = (recordCount lc + 1) / maxDirSize lc + 1
  | _ => lc' = lc
  end.
Proof.
  intros Hsize Hcount Hmax Hobs.
  destruct c as [rr|err|h s e]; simpl in Hobs.
  - apply saveRecord_state in Hobs; [|lia].
    destruct (dirId_in_range (recordCount lc) (maxDirSize lc)) as [Ha Hd]; [lia..|].
    rewrite Ha, Hd in Hobs. by subst lc'.
  - by injection Hobs as <- _.
  - by injection Hobs as <- _.
Qed.

(** X11. In a run with a positive directory size and without overflow, the
    record delivered as number [i + 1] after [recordCount] records goes to the
    directory whose id is the quotient of [recordCount + i + 1] by the
    directory size, plus one. *)
Theorem nth_record_directory harvester : forall lc w i dirId,
  0 < maxDirSize lc -> 0 <= recordCount lc ->
  recordCount lc + Z.of_nat (length harvester) < GoInt.max_int ->
  targetDirIds lc harvester w !! i = Some dirId ->
  dirId = (recordCount lc + Z.of_nat i + 1) / maxDirSize lc + 1.
Proof.
  induction harvester as [|c rest IH]; intros lc w i dirId Hsize Hcount Hmax; [done|].
  simpl. destruct (observe lc c w) as [[lc1| |] w1] eqn:Hobs; [|done..].
  apply observe_partition in Hobs as [Hs1 Hc]; [|done|done|simpl in Hmax; lia].
  simpl in Hmax.
  destruct c as [rr|err|h s e].
  - destruct Hc as [Hc1 Hl1]. destruct i as [|i]; simpl.
    + intros [= <-]. rewrite Hl1. f_equal. f_equal. lia.
    + intros H. apply IH in H; [|lia..].
      rewrite H, Hs1, Hc1. f_equal. f_equal. lia.
  - subst lc1. simpl. apply IH; lia.
  - subst lc1. simpl. apply IH; lia.
Qed.

Lemma room_bound size count dirId : 0 < size -> room size count dirId <= size.
Proof. intros. unfold room. nia. Qed.

Lemma room_step size count dirId :
  0 < size -> 0 <= count ->
  room size (count + 1) dirId
  + (if decide ((count + 1) / size + 1 = dirId) then 1 else 0)
  <= room size count dirId.
Proof.
  intros Hsize Hcount. unfold room.
  pose proof (Z.div_mod (count + 1) size ltac:(lia)) as Hdm.
  pose proof (Z.mod_pos_bound (count + 1) size ltac:(lia)) as Hm.
  destruct (decide _) as [E|E].
  - assert ((count + 1) / size = dirId - 1) as Hq by lia.
    rewrite Hq in Hdm. nia.
  - nia.
Qed.

Lemma records_in_room harvester : forall lc w dirId,
  0 < maxDirSize lc -> 0 <= recordCount lc ->
  recordCount lc + Z.of_nat (length harvester) < GoInt.max_int ->
  records_in dirId (targetDirIds lc harvester w)
  <= room (maxDirSize lc) (recordCount lc) dirId.
Proof.
  induction harvester as [|c rest IH]; intros lc w dirId Hsize Hcount Hmax.
  { unfold records_in, room. simpl. lia. }
  simpl. destruct (observe lc c w) as [[lc1| |] w1] eqn:Hobs;
    [|unfold records_in, room; simpl; lia..].
  apply observe_partition in Hobs as [Hs1 Hc]; [|done|done|simpl in Hmax; lia].
  simpl in Hmax.
  destruct c as [rr|err|h s e].
  - destruct Hc as [Hc1 Hl1].
    specialize (IH lc1 w1 dirId ltac:(lia) ltac:(lia) ltac:(lia)).
    rewrite Hs1, Hc1 in IH.
    pose proof (room_step (maxDirSize lc) (recordCount lc) dirId Hsize Hcount) as Hstep.
    unfold records_in in *. simpl.
    rewrite Hl1. destruct (Z.eq_dec _ _) as [E|E]; destruct (decide _) as [E'|E'];
      try done; lia.
  - subst lc1. simpl. apply IH; lia.
  - subst lc1. simpl. apply IH; lia.
Qed.

(** X12. In a run with a positive directory size and without overflow no
    directory receives more than [maxDirSize] records, and in a run that
    starts at a count of zero the first directory receives fewer: at most
    [maxDirSize - 1]. *)
Theorem directory_capacity lc harvester w dirId :
  0 < maxDirSize lc -> 0 <= recordCount lc ->
  recordCount lc + Z.of_nat (length harvester) < GoInt.max_int ->
  records_in dirId (targetDirIds lc harvester w) <= maxDirSize lc /\
  (recordCount lc = 0 ->
   records_in 1 (targetDirIds lc harvester w) <= maxDirSize lc - 1).
Proof.
  intros Hsize Hcount Hmax. split.
  - pose proof (records_in_room harvester lc w dirId Hsize Hcount Hmax).
    pose proof (room_bound (maxDirSize lc) (recordCount lc) dirId Hsize). lia.
  - intros Hz.
    pose proof (records_in_room harvester lc w 1 Hsize Hcount Hmax) as H.
    rewrite Hz in H. unfold room in H. lia.
Qed.


(* ------------------------------------------------------------------------- *)
(** *** The harvest command: closed directories *)

Lemma renders_app lc acts1 events1 acts2 events2 :
  renders lc acts1 events1 -> renders lc acts2 events2 ->
  renders lc (acts1 ++ acts2) (events1 ++ events2).
Proof. induction 1; intros H2; simpl; [done|by constructor; auto..]. Qed.

Lemma renders_logs lc logs : only_logs logs -> renders lc [] logs.
Proof.
  induction 1 as [|e logs He _ IH]; [constructor|].
  constructor; [by destruct e..|done].
Qed.

Lemma dirName_same lc1 lc2 dirId :
  dirPrefix lc1 = dirPrefix lc2 -> dirName lc1 dirId = dirName lc2 dirId.
Proof. unfold dirName. by intros ->. Qed.

Lemma renders_same lc1 lc2 acts events :
  dirPrefix lc1 = dirPrefix lc2 -> renders lc1 acts events -> renders lc2 acts events.
Proof.
  intros Hp. induction 1 as [|e acts events H1 H2 _ IH|d acts events _ IH|d acts events _ IH].
  - constructor.
  - by constructor.
  - rewrite (dirName_same lc1 lc2 d Hp). by constructor.
  - unfold zip_launch. rewrite (dirName_same lc1 lc2 d Hp). by apply renders_close.
Qed.

Lemma renders_writes lc acts events dirId :
  renders lc acts events -> writes_to lc dirId events -> Writes dirId ∈ acts.
Proof.
  unfold writes_to.
  induction 1 as [|e acts events H1 H2 _ IH|d acts events _ IH|d acts events _ IH];
    intros Hin.
  - by apply elem_of_nil in Hin.
  - apply elem_of_cons in Hin as [<-|Hin]; [done|auto].
  - apply elem_of_cons in Hin as [Heq|Hin].
    + injection Heq as Heq. apply dirName_inj in Heq as ->.
      apply elem_of_cons. auto.
    + apply elem_of_cons. auto.
  - apply elem_of_cons in Hin as [Heq|Hin]; [done|]. apply elem_of_cons. auto.
Qed.

Lemma renders_closed lc acts events :
  renders lc acts events -> StronglySorted Z.le (rank <$> acts) ->
  closed_for_good lc events.
Proof.
  induction 1 as [|e acts events H1 H2 _ IH|d acts events Hr IH|d acts events Hr IH];
    intros Hs; simpl.
  - done.
  - split; [by rewrite H1|auto].
  - apply StronglySorted_inv in Hs as [Hs _]. split; [done|auto].
  - apply StronglySorted_inv in Hs as [Hs Hall]. split; [|auto].
    intros _. exists d. split; [done|]. intros d' Hw.
    apply (renders_writes _ _ _ _ Hr) in Hw.
    rewrite Forall_forall in Hall.
    specialize (Hall (rank (Writes d'))). simpl in Hall.
    assert (2 * d + 1 <= 2 * d') as Hle; [|lia].
    apply Hall. apply list_elem_of_fmap. by exists (Writes d').
Qed.

Lemma renders_mkdirs lc acts events :
  renders lc acts events ->
  Forall (fun e => is_mkdir e = true ->
            exists dirId, e = OsMkdirAll (dirName lc dirId) 493) events.
Proof.
  induction 1 as [|e acts events H1 H2 _ IH|d acts events _ IH|d acts events _ IH];
    constructor; try done.
  - by rewrite H2.
  - eauto.
Qed.

Lemma sorted_app (l1 l2 : list Z) :
  StronglySorted Z.le l1 -> StronglySorted Z.le l2 ->
  (forall x1 x2, x1 ∈ l1 -> x2 ∈ l2 -> x1 <= x2) ->
  StronglySorted Z.le (l1 ++ l2).
Proof.
  intros H1 H2 Hle. induction H1 as [|x l1 H1 IH Hall]; simpl; [done|].
  constructor.
  - apply IH. intros x1 x2 Hx1 Hx2. apply Hle; [|done]. apply elem_of_cons. auto.
  - apply Forall_app. split; [done|]. apply Forall_forall. intros x2 Hx2.
    apply Hle; [|done]. apply elem_of_cons. auto.
Qed.

Lemma in_order_app lo mid hi acts1 acts2 :
  in_order lo mid acts1 -> in_order mid hi acts2 -> lo <= mid <= hi ->
  in_order lo hi (acts1 ++ acts2).
Proof.
  intros [Hs1 Hb1] [Hs2 Hb2] Hle. split.
  - rewrite fmap_app. apply sorted_app; [done..|].
    intros x1 x2 H1 H2.
    apply list_elem_of_fmap in H1 as (a1 & -> & H1).
    apply list_elem_of_fmap in H2 as (a2 & -> & H2).
    rewrite Forall_forall in Hb1, Hb2.
    specialize (Hb1 _ H1). specialize (Hb2 _ H2). lia.
  - apply Forall_app. split.
    + eapply Forall_impl; [exact Hb1|]. simpl. intros; lia.
    + eapply Forall_impl; [exact Hb2|]. simpl. intros; lia.
Qed.

Lemma in_order_nil lo hi : in_order lo hi [].
Proof. split; constructor. Qed.

Lemma in_order_one lo hi a : lo <= rank a <= hi -> in_order lo hi [a].
Proof. intros H. split; repeat constructor; lia. Qed.

Lemma closeDir_renders lc dirId w :
  exists events acts,
    closeDir lc dirId w = (Return tt, w ++ events) /\
    renders lc acts events /\ (acts = [] \/ acts = [Closes dirId]).
Proof.
  unfold closeDir. destruct (dryRun lc).
  { exists [], []. rewrite app_nil_r. split; [done|]. split; [constructor|auto]. }
  destruct (compressDirs lc).
  2:{ exists [], []. rewrite app_nil_r. split; [done|]. split; [constructor|auto]. }
  unfold mbind, M_bind, mret, M_ret, emit, get_world.
  destruct (Ctx_LogLevel lc >=? TraceLogLevel);
    destruct (cmd_Start_err _ _ _ _); rewrite <- ?app_assoc;
    eexists _, [Closes dirId]; (split; [reflexivity|]); (split; [|by right]); simpl;
    repeat first [apply renders_close | apply renders_nil
                 | apply renders_other; [done|done|]].
Qed.

Lemma writes_file_renders lc dirId filename res w :
  exists tail,
    (writes_file lc dirId filename res w).2
    = w ++ OsMkdirAll (dirName lc dirId) 493 :: tail /\
    renders lc [] tail.
Proof.
  unfold writes_file. destruct (os_Create_err _ _); simpl; rewrite <- app_assoc; simpl;
    eexists; (split; [reflexivity|]); by repeat constructor.
Qed.

Lemma saveRecordToDir_renders lc dirId res w :
  filter_ok lc ->
  exists events,
    (saveRecordToDir lc dirId res w).2 = w ++ events /\
    renders lc [Writes dirId] events.
Proof.
  unfold filter_ok. intros Hok.
  assert (exists filename logs, only_logs logs /\
            filterFilename lc res w = (Return filename, w ++ logs))
    as (filename & logs1 & Hl1 & Hf).
  { destruct (filenameFilterAst lc) as [a|] eqn:Ha.
    - destruct (Evaluate_parsed a Hok res w) as (r & He & _).
      destruct (filterFilename_Some lc res w a r w Ha He) as (logs & Hl & Hf). eauto.
    - exists (Identifier res), []. split; [constructor|].
      rewrite app_nil_r. by apply filterFilename_None. }
  destruct (saveRecordToDir_after_filter lc dirId res w _ _ Hf) as (logs2 & Hl2 & ->).
  destruct (writes_file_renders lc dirId filename res ((w ++ logs1) ++ logs2))
    as (tail & -> & Ht).
  exists (logs1 ++ logs2 ++ OsMkdirAll (dirName lc dirId) 493 :: tail).
  split; [by rewrite <- !app_assoc|].
  apply (renders_app lc [] _ [Writes dirId]); [by apply renders_logs|].
  apply (renders_app lc [] _ [Writes dirId]); [by apply renders_logs|].
  by constructor.
Qed.

Lemma bind_ret_world {A B} (m : M A) (b : B) w :
  ((m ≫= fun _ => mret b) w).2 = (m w).2.
Proof. unfold mbind, M_bind. by destruct (m w) as [[?| |] ?]. Qed.

Lemma observe_renders lc c w n :
  partition_inv lc (S n) -> filter_ok lc ->
  exists events acts mid,
    (observe lc c w).2 = w ++ events /\
    renders lc acts events /\
    in_order (2 * lastDirId lc) (2 * mid) acts /\
    lastDirId lc <= mid /\
    forall lc' w', observe lc c w = (Return lc', w') ->
      lastDirId lc' = mid /\ partition_inv lc' n /\ filter_ok lc' /\
      dirPrefix lc' = dirPrefix lc.
Proof.
  intros Hinv Hok.
  assert (forall lc' w', observe lc c w = (Return lc', w') ->
            partition_inv lc' n /\ lastDirId lc <= lastDirId lc') as Hnext.
  { intros lc' w' H. by apply (observe_inv _ _ _ _ _ _ Hinv H). }
  destruct Hinv as (Hsize & Hcount & Hmax & Hlast).
  destruct c as [rr|err|h s e]; simpl in *.
  - unfold OnRecord in *.
    destruct (dirId_in_range (recordCount lc) (maxDirSize lc)) as [Ha Hd]; [lia..|].
    destruct (saveRecord_step lc rr w ltac:(lia)) as (closing & logs & Hc & Hdry & Hl & Hs).
    rewrite Ha, Hd in Hc, Hs.
    set (count := recordCount lc + 1) in *.
    set (dirId := count / maxDirSize lc + 1) in *.
    set (lc1 := set_lastDirId (set_recordCount lc count) dirId) in *.
    assert (lastDirId lc <= dirId) as Hle.
    { unfold dirId, count.
      assert (recordCount lc / maxDirSize lc <= (recordCount lc + 1) / maxDirSize lc)
        by (apply Z.div_le_mono; lia). lia. }
    assert (exists acts, renders lc acts closing /\
              in_order (2 * lastDirId lc) (2 * dirId) acts) as (acts1 & Hr1 & Ho1).
    { destruct (decide (dirId = lastDirId lc)) as [E|E].
      - subst closing. exists []. split; [constructor|apply in_order_nil].
      - destruct (closeDir_renders (set_recordCount lc count) (lastDirId lc) w)
          as (events & acts & Hcd & Hr & Hacts).
        rewrite Hcd in Hc. injection Hc as Hc. apply app_inv_head in Hc. subst events.
        exists acts. split; [by apply (renders_same (set_recordCount lc count))|].
        destruct Hacts as [-> | ->]; [apply in_order_nil|].
        apply in_order_one. simpl. lia. }
    assert (forall lc' w', saveRecord lc rr w = (Return lc', w') -> lc' = lc1) as Hstate.
    { intros lc' w' H. apply saveRecord_state in H; [|lia].
      rewrite Ha, Hd in H. done. }
    assert (forall lc' w', saveRecord lc rr w = (Return lc', w') ->
              lastDirId lc' = dirId /\ partition_inv lc' n /\ filter_ok lc' /\
              dirPrefix lc' = dirPrefix lc) as Hfinal.
    { intros lc' w' H. destruct (Hnext _ _ H) as [Hinv' _].
      apply Hstate in H. subst lc'. done. }
    destruct (dryRun lc) eqn:Hd'.
    + exists (closing ++ logs), acts1, dirId.
      split; [by rewrite Hs|]. split; [|by split].
      rewrite <- (app_nil_r acts1). apply renders_app; [done|by apply renders_logs].
    + destruct (saveRecordToDir_renders lc1 dirId rr (w ++ closing ++ logs))
        as (events & Hev & Hr2); [done|].
      exists (closing ++ logs ++ events), (acts1 ++ [Writes dirId]), dirId.
      split; [by rewrite Hs, bind_ret_world, Hev, <- !app_assoc|].
      split; [|split; [|by split]].
      * apply renders_app; [done|].
        apply (renders_app lc [] _ [Writes dirId]); [by apply renders_logs|].
        by apply (renders_same lc1).
      * apply (in_order_app _ (2 * dirId)); [done| |lia].
        apply in_order_one. simpl. lia.
  - exists [LogPrint ("ERROR: " +:+ Error err +:+ newline)], [], (lastDirId lc).
    split; [done|]. split; [by repeat constructor|]. split; [apply in_order_nil|].
    split; [lia|]. intros lc' w' H. destruct (Hnext _ _ H) as [Hinv' _].
    by injection H as <- _.
  - eexists [LogPrint _], [], (lastDirId lc).
    split; [reflexivity|]. split; [by repeat constructor|]. split; [apply in_order_nil|].
    split; [lia|]. intros lc' w' H. destruct (Hnext _ _ H) as [Hinv' _].
    by injection H as <- _.
Qed.

Lemma harvest_renders harvester : forall lc w,
  partition_inv lc (length harvester) -> filter_ok lc ->
  exists events acts hi,
    (harvestWithHarvester lc harvester w).2 = w ++ events /\
    renders lc acts events /\
    in_order (2 * lastDirId lc) (2 * hi) acts /\
    lastDirId lc <= hi /\
    forall lc' w', harvestWithHarvester lc harvester w = (Return lc', w') ->
      lastDirId lc' = hi /\ dirPrefix lc' = dirPrefix lc.
Proof.
  induction harvester as [|c rest IH]; intros lc w Hinv Hok.
  { exists [], [], (lastDirId lc). rewrite app_nil_r.
    split; [done|]. split; [constructor|]. split; [apply in_order_nil|].
    split; [lia|]. by intros lc' w' [= <- _]. }
  destruct (observe_renders lc c w _ Hinv Hok)
    as (events1 & acts1 & mid & Hw1 & Hr1 & Ho1 & Hle1 & Hnext).
  simpl. unfold mbind, M_bind.
  destruct (observe lc c w) as [[lc1| |] w1] eqn:Hobs; simpl in Hw1; subst w1.
  - destruct (Hnext _ _ eq_refl) as (Hl1 & Hinv1 & Hok1 & Hp1).
    destruct (IH lc1 (w ++ events1) Hinv1 Hok1)
      as (events2 & acts2 & hi & Hw2 & Hr2 & Ho2 & Hle2 & Hfinal).
    rewrite Hl1 in Ho2, Hle2.
    exists (events1 ++ events2), (acts1 ++ acts2), hi.
    split; [by rewrite Hw2, app_assoc|].
    split; [apply renders_app; [done|by apply (renders_same lc1)]|].
    split; [apply (in_order_app _ (2 * mid)); [done|done|lia]|].
    split; [lia|]. intros lc' w' H.
    destruct (Hfinal _ _ H) as [? ?]. split; [done|congruence].
  - exists events1, acts1, mid. simpl. done.
  - exists events1, acts1, mid. simpl. done.
Qed.

(** X14. In a run with a positive directory size and without overflow, a
    directory that has been handed to [zip] is not written to again: every
    process the run launches is the [zip] of one of its directories, and every
    directory made afterwards has a larger id. Every directory the run makes
    is the directory of an id, under the prefix the run has chosen. *)
Theorem Run_closes_for_good lc harvester w :
  0 < maxDirSize lc -> 0 <= recordCount lc ->
  recordCount lc + Z.of_nat (length harvester) < GoInt.max_int ->
  filenameFilterAst lc = None ->
  let lc0 := set_dirPrefix lc (time_Now_Format w) in
  exists events,
    (Run lc harvester w).2 = w ++ events /\
    closed_for_good lc0 events /\
    Forall (fun e => is_mkdir e = true ->
              exists dirId, e = OsMkdirAll (dirName lc0 dirId) 493) events.
Proof.
  intros Hsize Hcount Hmax Hnone lc0.
  assert (forall lc1, dirPrefix lc1 = time_Now_Format w -> filter_ok lc1 ->
            lastDirId lc1 = 1 -> maxDirSize lc1 = maxDirSize lc ->
            recordCount lc1 = recordCount lc ->
            exists events,
              ((harvestWithHarvester lc1 harvester ≫= fun lc' =>
                  closeDir lc' (lastDirId lc');; mret lc') w).2 = w ++ events /\
              closed_for_good lc0 events /\
              Forall (fun e => is_mkdir e = true ->
                        exists dirId, e = OsMkdirAll (dirName lc0 dirId) 493) events)
    as Hrun.
  { intros lc1 Hp1 Hok1 Hl1 Hs1 Hc1.
    destruct (harvest_renders harvester lc1 w)
      as (events & acts & hi & Hw & Hr & Ho & Hle & Hfinal); [|done|].
    { unfold partition_inv. rewrite Hs1, Hc1, Hl1.
      pose proof (Z.div_pos (recordCount lc) (maxDirSize lc)). repeat split; lia. }
    apply (renders_same lc1 lc0) in Hr; [|done].
    unfold mbind, M_bind.
    destruct (harvestWithHarvester lc1 harvester w) as [[lc'| |] w'] eqn:Hh;
      simpl in Hw; subst w'.
    - destruct (Hfinal _ _ eq_refl) as [Hl' Hp'].
      destruct (closeDir_renders lc' (lastDirId lc') (w ++ events))
        as (events2 & acts2 & -> & Hr2 & Hacts).
      apply (renders_same lc' lc0) in Hr2; [|by rewrite Hp', Hp1].
      exists (events ++ events2). simpl. split; [by rewrite app_assoc|].
      pose proof (renders_app _ _ _ _ _ Hr Hr2) as Hr'.
      split; [|by apply (renders_mkdirs _ _ _ Hr')].
      apply (renders_closed _ _ _ Hr').
      assert (in_order (2 * lastDirId lc1) (2 * hi + 1) (acts ++ acts2)) as [Hsorted _];
        [|done].
      apply (in_order_app _ (2 * hi)); [done| |lia].
      destruct Hacts as [-> | ->]; [apply in_order_nil|].
      apply in_order_one. simpl. lia.
    - exists events. simpl. split; [done|]. split.
      + apply (renders_closed _ _ _ Hr). apply Ho.
      + by apply (renders_mkdirs _ _ _ Hr).
    - exists events. simpl. split; [done|]. split.
      + apply (renders_closed _ _ _ Hr). apply Ho.
      + by apply (renders_mkdirs _ _ _ Hr). }
  unfold Run. destruct (negb (String.eqb (filenameFilter lc) "")).
  - destruct (ParseRSExpr_returns (filenameFilter lc)) as [rsp Hparse].
    destruct (ParseRSExpr (filenameFilter lc)) as [a [e|]].
    + eexists [_]. split; [reflexivity|]. split; [done|]. by repeat constructor.
    + apply ParseRSExpr_tokens_parsed in Hparse as (a' & -> & Hp).
      by apply Hrun.
  - apply Hrun; try done. unfold filter_ok. simpl. by rewrite Hnone.
Qed.

(* ------------------------------------------------------------------------- *)
(** *** The harvest command: what is written *)

Lemma written_contents_app events1 events2 :
  written_contents (events1 ++ events2)
  = written_contents events1 ++ written_contents events2.
Proof. apply omap_app. Qed.

Lemma written_contents_cons e events :
  written_contents (e :: events)
  = match e with
    | FileWriteString _ s => s :: written_contents events
    | _ => written_contents events
    end.
Proof. by destruct e. Qed.

Lemma written_contents_logs logs : only_logs logs -> written_contents logs = [].
Proof.
  induction 1 as [|e logs He _ IH]; [done|].
  rewrite written_contents_cons, IH. by destruct e.
Qed.

Lemma closeDir_writes_nothing lc dirId w :
  exists events, closeDir lc dirId w = (Return tt, w ++ events) /\
                 written_contents events = [].
Proof.
  unfold closeDir. destruct (dryRun lc).
  { exists []. by rewrite app_nil_r. }
  destruct (compressDirs lc).
  2:{ exists []. by rewrite app_nil_r. }
  unfold mbind, M_bind, mret, M_ret, emit, get_world.
  destruct (Ctx_LogLevel lc >=? TraceLogLevel);
    destruct (cmd_Start_err _ _ _ _); rewrite <- ?app_assoc;
    eexists; (split; [reflexivity|done]).
Qed.

Lemma saveRecordToDir_writes lc dirId res w w' :
  filter_ok lc ->
  saveRecordToDir lc dirId res w = (Return tt, w') ->
  exists events, w' = w ++ events /\ written_contents events = [Content res].
Proof.
  unfold filter_ok. intros Hok.
  assert (exists filename logs, only_logs logs /\
            filterFilename lc res w = (Return filename, w ++ logs))
    as (filename & logs1 & Hl1 & Hf).
  { destruct (filenameFilterAst lc) as [a|] eqn:Ha.
    - destruct (Evaluate_parsed a Hok res w) as (r & He & _).
      destruct (filterFilename_Some lc res w a r w Ha He) as (logs & Hl & Hf). eauto.
    - exists (Identifier res), []. split; [constructor|].
      rewrite app_nil_r. by apply filterFilename_None. }
  destruct (saveRecordToDir_after_filter lc dirId res w _ _ Hf) as (logs2 & Hl2 & ->).
  unfold writes_file. destruct (os_Create_err _ _); [done|].
  intros [= <-]. eexists. split; [by rewrite <- !app_assoc|].
  rewrite !written_contents_app, !written_contents_logs by done. done.
Qed.

Lemma observe_writes lc c w lc' w' :
  filter_ok lc -> dryRun lc = false ->
  observe lc c w = (Return lc', w') ->
  filter_ok lc' /\ dryRun lc' = false /\
  exists events, w' = w ++ events /\
    written_contents events = match c with
                              | CallOnRecord rr => [Content rr]
                              | _ => []
                              end.
Proof.
  intros Hok Hdry. destruct c as [rr|err|h s e]; simpl.
  - unfold OnRecord. intros H.
    destruct (decide (maxDirSize lc = 0)) as [Hz|Hsize].
    { by rewrite saveRecord_zero_size in H. }
    pose proof (saveRecord_state _ _ _ _ _ Hsize H) as Hlc.
    destruct (saveRecord_step lc rr w Hsize) as (closing & logs & Hc & _ & Hl & Hs).
    rewrite Hdry, H in Hs. rewrite <- Hlc in Hs.
    assert (written_contents closing = []) as Hcl.
    { destruct (decide _); [by subst|].
      destruct (closeDir_writes_nothing
                  (set_recordCount lc (GoInt.add (recordCount lc) 1)) (lastDirId lc) w)
        as (events & Hcd & Hev).
      rewrite Hcd in Hc. injection Hc as Hc. apply app_inv_head in Hc. by subst. }
    unfold mbind, M_bind in Hs.
    destruct (saveRecordToDir lc' _ rr _) as [[[]| |] w2] eqn:Hto; try done.
    injection Hs as ->.
    assert (filter_ok lc' /\ dryRun lc' = false) as [Hok' Hdry'] by (by subst lc').
    split; [done|]. split; [done|].
    apply saveRecordToDir_writes in Hto as (events & -> & Hev); [|done].
    exists (closing ++ logs ++ events). split; [by rewrite <- !app_assoc|].
    by rewrite !written_contents_app, Hcl, written_contents_logs.
  - intros [= <- <-]. split; [done|]. split; [done|]. by eexists [_].
  - intros [= <- <-]. split; [done|]. split; [done|]. by eexists [_].
Qed.

(** X15. A harvest that is not dry and returns has written every record it
    was given, once and in the order of delivery: the contents written to
    files are the contents of the records delivered. *)
Theorem harvest_writes_every_record harvester : forall lc w lc' w',
  filter_ok lc -> dryRun lc = false ->
  harvestWithHarvester lc harvester w = (Return lc', w') ->
  exists events,
    w' = w ++ events /\
    written_contents events = Content <$> delivered harvester.
Proof.
  induction harvester as [|c rest IH]; intros lc w lc' w' Hok Hdry H.
  { injection H as _ <-. exists []. by rewrite app_nil_r. }
  apply harvest_cons in H as (lc1 & w1 & Ho & H).
  apply observe_writes in Ho as (Hok1 & Hdry1 & events1 & -> & Hev1); [|done..].
  destruct (IH _ _ _ _ Hok1 Hdry1 H) as (events2 & -> & Hev2).
  exists (events1 ++ events2). split; [by rewrite app_assoc|].
  rewrite written_contents_app, Hev1, Hev2. by destruct c.
Qed.

(* ------------------------------------------------------------------------- *)
(** *** The harvest command: how a run ends *)





(* ------------------------------------------------------------------------- *)
(** *** The harvest command: every directory is compressed *)

Lemma closeDir_launches lc dirId w :
  dryRun lc = false -> compressDirs lc = true ->
  exists events, closeDir lc dirId w = (Return tt, w ++ events) /\
                 zip_launch lc dirId ∈ events.
Proof.
  intros Hdry Hc. unfold closeDir. rewrite Hdry, Hc.
  unfold mbind, M_bind, mret, M_ret, emit, get_world.
  destruct (Ctx_LogLevel lc >=? TraceLogLevel);
    destruct (cmd_Start_err _ _ _ _); rewrite <- ?app_assoc;
    eexists; (split; [reflexivity|]); unfold zip_launch;
    repeat first [by apply list_elem_of_here | apply list_elem_of_further].
Qed.

Lemma zip_launch_same lc1 lc2 dirId :
  dirPrefix lc1 = dirPrefix lc2 -> zip_launch lc1 dirId = zip_launch lc2 dirId.
Proof. intros H. unfold zip_launch. by rewrite (dirName_same lc1 lc2 dirId H). Qed.

Lemma writes_to_same lc1 lc2 dirId events :
  dirPrefix lc1 = dirPrefix lc2 -> writes_to lc1 dirId events <-> writes_to lc2 dirId events.
Proof. intros H. unfold writes_to. by rewrite (dirName_same lc1 lc2 dirId H). Qed.

Lemma closes_behind_app lc lo mid hi events1 events2 :
  closes_behind lc lo events1 mid -> closes_behind lc mid events2 hi ->
  closes_behind lc lo (events1 ++ events2) hi.
Proof.
  intros H1 H2 d Hd.
  assert (d = mid \/ zip_launch lc d ∈ events1 \/ writes_to lc d events2) as Hcases.
  { destruct Hd as [->|Hw].
    - destruct (H1 lo) as [?|?]; auto.
    - unfold writes_to in Hw. apply elem_of_app in Hw as [Hw|Hw]; [|auto].
      destruct (H1 d) as [?|?]; auto. }
  destruct Hcases as [->|[Hl|Hw]].
  - destruct (H2 mid) as [?|Hl]; [auto|auto|]. right. apply elem_of_app. auto.
  - right. apply elem_of_app. auto.
  - destruct (H2 d) as [?|Hl]; [auto|auto|]. right. apply elem_of_app. auto.
Qed.

Lemma renders_no_writes lc acts events dirId :
  renders lc acts events -> Writes dirId ∉ acts -> ~ writes_to lc dirId events.
Proof. intros Hr Hn Hw. by apply Hn, (renders_writes lc acts events). Qed.

Lemma closeDir_no_writes lc dirId w events d :
  closeDir lc dirId w = (Return tt, w ++ events) -> ~ writes_to lc d events.
Proof.
  intros H.
  destruct (closeDir_renders lc dirId w) as (events' & acts & Hcd & Hr & Hacts).
  rewrite Hcd in H. injection H as H. apply app_inv_head in H. subst events'.
  apply (renders_no_writes lc acts); [done|].
  destruct Hacts as [-> | ->].
  - apply not_elem_of_nil.
  - intros Hin. by apply list_elem_of_singleton in Hin.
Qed.

Lemma observe_closes lc c w lc' w' :
  filter_ok lc -> dryRun lc = false -> compressDirs lc = true ->
  observe lc c w = (Return lc', w') ->
  filter_ok lc' /\ dryRun lc' = false /\ compressDirs lc' = true /\
  dirPrefix lc' = dirPrefix lc /\
  exists events, w' = w ++ events /\
    closes_behind lc (lastDirId lc) events (lastDirId lc').
Proof.
  intros Hok Hdry Hcomp. destruct c as [rr|err|h s e]; simpl.
  - unfold OnRecord. intros H.
    destruct (decide (maxDirSize lc = 0)) as [Hz|Hsize].
    { by rewrite saveRecord_zero_size in H. }
    pose proof (saveRecord_state _ _ _ _ _ Hsize H) as Hlc.
    destruct (saveRecord_step lc rr w Hsize) as (closing & logs & Hc & _ & Hl & Hs).
    rewrite Hdry, H in Hs. rewrite <- Hlc in Hs.
    set (count := GoInt.add (recordCount lc) 1) in *.
    set (dirId := GoInt.add (GoInt.quot count (maxDirSize lc)) 1) in *.
    assert (lastDirId lc' = dirId) as Hlast by (by subst lc').
    assert (filter_ok lc' /\ dryRun lc' = false /\ compressDirs lc' = true /\
            dirPrefix lc' = dirPrefix lc) as (Hok' & Hdry' & Hcomp' & Hp')
      by (by subst lc').
    split; [done|]. split; [done|]. split; [done|]. split; [done|].
    assert ((forall d, ~ writes_to lc d closing) /\
            (dirId <> lastDirId lc -> zip_launch lc (lastDirId lc) ∈ closing))
      as [Hnc Hlaunch].
    { destruct (decide (dirId = lastDirId lc)) as [E|E].
      - subst closing. split; [|done]. intros d Hw. by apply elem_of_nil in Hw.
      - split.
        + intros d. rewrite <- (writes_to_same (set_recordCount lc count)) by done.
          by apply (closeDir_no_writes _ _ _ _ _ Hc).
        + intros _.
          destruct (closeDir_launches (set_recordCount lc count) (lastDirId lc) w)
            as (events & Hcd & Hin); [done..|].
          rewrite Hcd in Hc. injection Hc as Hc. apply app_inv_head in Hc. subst events.
          by rewrite <- (zip_launch_same (set_recordCount lc count)). }
    destruct (saveRecordToDir_renders lc' dirId rr (w ++ closing ++ logs) Hok')
      as (events & Hev & Hr).
    unfold mbind, M_bind in Hs.
    destruct (saveRecordToDir lc' dirId rr _) as [[[]| |] w2] eqn:Hto; try done.
    injection Hs as <-. simpl in Hev. rewrite Hev.
    exists (closing ++ logs ++ events). split; [by rewrite <- !app_assoc|].
    rewrite Hlast. intros d [->|Hw].
    + destruct (decide (dirId = lastDirId lc)) as [E|E]; [by left|].
      right. apply elem_of_app. auto.
    + left. unfold writes_to in Hw.
      apply elem_of_app in Hw as [Hw|Hw]; [by destruct (Hnc d)|].
      apply elem_of_app in Hw as [Hw|Hw].
      * destruct (renders_no_writes lc [] logs d); [by apply renders_logs| |done].
        apply not_elem_of_nil.
      * apply (renders_same lc' lc) in Hr; [|done].
        apply (renders_writes lc _ _ d Hr) in Hw.
        apply list_elem_of_singleton in Hw. by injection Hw.
  - intros [= <- <-]. repeat (split; [done|]). eexists [_]. split; [done|].
    intros d [->|Hw]; [by left|].
    unfold writes_to in Hw. by apply list_elem_of_singleton in Hw.
  - intros [= <- <-]. repeat (split; [done|]). eexists [_]. split; [done|].
    intros d [->|Hw]; [by left|].
    unfold writes_to in Hw. by apply list_elem_of_singleton in Hw.
Qed.

Lemma closes_behind_same lc1 lc2 lo events hi :
  dirPrefix lc1 = dirPrefix lc2 ->
  closes_behind lc1 lo events hi -> closes_behind lc2 lo events hi.
Proof.
  intros Hp H d Hd.
  rewrite <- (zip_launch_same lc1 lc2 d Hp). apply H.
  destruct Hd as [?|Hw]; [auto|]. right. by apply (writes_to_same lc1 lc2).
Qed.

Lemma harvest_closes harvester : forall lc w lc' w',
  filter_ok lc -> dryRun lc = false -> compressDirs lc = true ->
  harvestWithHarvester lc harvester w = (Return lc', w') ->
  dryRun lc' = false /\ compressDirs lc' = true /\ dirPrefix lc' = dirPrefix lc /\
  exists events, w' = w ++ events /\
    closes_behind lc (lastDirId lc) events (lastDirId lc').
Proof.
  induction harvester as [|c rest IH]; intros lc w lc' w' Hok Hdry Hcomp H.
  { injection H as <- <-. repeat (split; [done|]). exists []. rewrite app_nil_r.
    split; [done|]. intros d [->|Hw]; [by left|]. by apply elem_of_nil in Hw. }
  apply harvest_cons in H as (lc1 & w1 & Ho & H).
  apply observe_closes in Ho as (Hok1 & Hdry1 & Hcomp1 & Hp1 & events1 & -> & Hc1);
    [|done..].
  destruct (IH _ _ _ _ Hok1 Hdry1 Hcomp1 H) as (Hdry' & Hcomp' & Hp' & events2 & -> & Hc2).
  split; [done|]. split; [done|]. split; [congruence|].
  exists (events1 ++ events2). split; [by rewrite app_assoc|].
  apply (closes_behind_app lc _ (lastDirId lc1)); [done|].
  by apply (closes_behind_same lc1).
Qed.

(** X19. A run that compresses its directories and returns has handed to
    [zip] every directory it has written to, and the directory that was the
    current one at the end. *)
Theorem Run_compresses_every_directory lc harvester w lc' w' :
  filenameFilterAst lc = None -> dryRun lc = false -> compressDirs lc = true ->
  Run lc harvester w = (Return lc', w') ->
  let lc0 := set_dirPrefix lc (time_Now_Format w) in
  exists events,
    w' = w ++ events /\
    zip_launch lc0 (lastDirId lc') ∈ events /\
    forall dirId, writes_to lc0 dirId events -> zip_launch lc0 dirId ∈ events.
Proof.
  intros Hnone Hdry Hcomp Hrun lc0.
  assert (forall lc1, dirPrefix lc1 = time_Now_Format w -> filter_ok lc1 ->
            dryRun lc1 = false -> compressDirs lc1 = true ->
            (harvestWithHarvester lc1 harvester ≫= fun lc' =>
               closeDir lc' (lastDirId lc');; mret lc') w = (Return lc', w') ->
            exists events,
              w' = w ++ events /\
              zip_launch lc0 (lastDirId lc') ∈ events /\
              forall dirId, writes_to lc0 dirId events -> zip_launch lc0 dirId ∈ events)
    as Hmain.
  { intros lc1 Hp1 Hok1 Hdry1 Hcomp1. unfold mbind, M_bind.
    destruct (harvestWithHarvester lc1 harvester w) as [[lc2| |] w2] eqn:Hh; [|done..].
    destruct (harvest_closes _ _ _ _ _ Hok1 Hdry1 Hcomp1 Hh)
      as (Hdry2 & Hcomp2 & Hp2 & events & -> & Hc).
    destruct (closeDir_launches lc2 (lastDirId lc2) (w ++ events) Hdry2 Hcomp2)
      as (events2 & Hcd & Hin).
    pose proof (fun d => closeDir_no_writes _ _ _ _ d Hcd) as Hnw.
    rewrite Hcd. intros [= <- <-].
    assert (dirPrefix lc2 = dirPrefix lc0) as Hp by (by rewrite Hp2, Hp1).
    rewrite (zip_launch_same lc2 lc0 _ Hp) in Hin.
    apply (closes_behind_same lc1 lc0) in Hc; [|done].
    exists (events ++ events2). split; [by rewrite app_assoc|].
    split; [apply elem_of_app; auto|].
    intros d Hw. unfold writes_to in Hw. apply elem_of_app in Hw as [Hw|Hw].
    - destruct (Hc d) as [->|Hl]; [by right| |]; apply elem_of_app; auto.
    - destruct (Hnw d). by apply (writes_to_same lc2 lc0). }
  revert Hrun. unfold Run. destruct (negb (String.eqb (filenameFilter lc) "")).
  - destruct (ParseRSExpr_returns (filenameFilter lc)) as [rsp Hparse].
    destruct (ParseRSExpr (filenameFilter lc)) as [a [e|]]; [done|].
    apply ParseRSExpr_tokens_parsed in Hparse as (a' & -> & Hp).
    by apply Hmain.
  - apply Hmain; try done. unfold filter_ok. simpl. by rewrite Hnone.
Qed.

End Properties.

(* ------------------------------------------------------------------------- *)
(** ** Properties of the choice of the harvester *)

Section ChoiceProperties.
Context {env : GoEnv} {henv : HarvesterEnv}.

(** X17. The set of the list arguments: a set name given on the command line
    is used as it is, the name [*] stands for no set, and without a name the
    set of the provider is used; so the set is never [*] unless that is the
    set of the provider. The date after which goes to [From] and the date
    before which to [Until], parsed in this order. *)
Theorem genListIdentifierArgs_set sel w from w1 until w2 :
  parseDateString (afterDate sel) w = (Return from, w1) ->
  parseDateString (beforeDate sel) w1 = (Return until, w2) ->
  genListIdentifierArgsFromCommandLine sel w
  = (Return {| Set_ := selected_set sel; From := from; Until := until |}, w2) /\
  (setName sel <> "" -> setName sel <> "*" -> selected_set sel = setName sel) /\
  (setName sel = "*" -> selected_set sel = "") /\
  (selected_set sel = "*" -> setName sel = "" /\ Ctx_Provider_Set sel = "*").
Proof.
  intros Hfrom Huntil. split; [|split; [|split]].
  - unfold genListIdentifierArgsFromCommandLine.
    rewrite (bind_Return _ _ _ _ _ Hfrom), (bind_Return _ _ _ _ _ Huntil). done.
  - unfold selected_set. intros H1 H2.
    destruct (String.eqb_spec (setName sel) ""); [done|].
    by destruct (String.eqb_spec (setName sel) "*").
  - unfold selected_set. by intros ->.
  - unfold selected_set.
    destruct (String.eqb_spec (setName sel) ""); [done|].
    destruct (String.eqb_spec (setName sel) "*"); [done|]. done.
Qed.

(** X18. With a file of identifiers, [harvest] runs the file harvester on the
    file, with the offsets and the workers of the flags, whatever the set, the
    set of the provider and the choice of list-and-get are: two commands that
    differ in these only harvest alike. The dates are parsed all the same,
    before the harvester is chosen. *)
Theorem harvest_from_file Harvest lc sel sel' w :
  fromFile sel <> "" -> same_for_file sel sel' ->
  harvest Harvest lc sel w = harvest Harvest lc sel' w /\
  harvest Harvest lc sel w
  = (parseDateString (afterDate sel) ≫= fun _ =>
     parseDateString (beforeDate sel) ≫= fun _ =>
     harvestWithHarvester lc
       (Harvest (FileHarvester (Ctx_Session sel) (fromFile sel) (firstResult sel)
                   (maxResults sel) (downloadWorkers sel) LiveRecordsPredicate))) w.
Proof.
  intros Hfile (Hs & Hf & Hfirst & Hmax & Hw & Ha & Hb).
  assert (forall s, fromFile s <> "" ->
    harvest Harvest lc s w
    = (parseDateString (afterDate s) ≫= fun _ =>
       parseDateString (beforeDate s) ≫= fun _ =>
       harvestWithHarvester lc
         (Harvest (FileHarvester (Ctx_Session s) (fromFile s) (firstResult s)
                     (maxResults s) (downloadWorkers s) LiveRecordsPredicate))) w) as H.
  { intros s Hne. unfold harvest, genListIdentifierArgsFromCommandLine.
    destruct (String.eqb_spec (fromFile s) "") as [|_]; [done|]. simpl.
    unfold mbind, M_bind, mret, M_ret.
    destruct (parseDateString (afterDate s) w) as [[from| |] w1]; [|done..].
    destruct (parseDateString (beforeDate s) w1) as [[until| |] w2]; done. }
  split; [|by apply H].
  rewrite (H sel Hfile), (H sel') by (by rewrite <- Hf).
  by rewrite Hs, Hf, Hfirst, Hmax, Hw, Ha, Hb.
Qed.

End ChoiceProperties.

(* ------------------------------------------------------------------------- *)
(** ** The properties on the sample environment *)

Module Examples.
Import Sample.
#[local] Existing Instance Sample.env.
#[local] Existing Instance Sample.henv.

(** C1 as stated fails: with the directory size two, [Run] saves the second
    of four records into the directory 02, not 01, and the fourth into the
    directory 03, not 02. *)
Lemma run_of_four_records :
  Run (command 2) four_records [] =
  (Return (set_lastDirId (set_recordCount
             (set_dirPrefix (command 2) "20240101T000000") 4) 3),
   saved "20240101T000000/01" "a.xml" ++ saved "20240101T000000/02" "b.xml" ++
   saved "20240101T000000/02" "c.xml" ++ saved "20240101T000000/03" "d.xml").
Proof. vm_compute. reflexivity. Qed.

Lemma rotation_witness :
  maxDirSize (started 2) = 2 /\ recordCount (started 2) = 0 /\
  lastDirId (started 2) = 1 /\ dryRun (started 2) = false /\
  harvestWithHarvester (started 2) four_records []
  = (Return (set_lastDirId (set_recordCount (started 2) 4) 3),
     saved "T/01" "a.xml" ++ saved "T/02" "b.xml" ++
     saved "T/02" "c.xml" ++ saved "T/03" "d.xml") /\
  exists lc1 w1 lc2 w2 lc3 w3,
    saves_to (started 2) (record "a") [] 1 lc1 w1 /\
    saves_to lc1 (record "b") w1 2 lc2 w2 /\
    saves_to lc2 (record "c") w2 2 lc3 w3 /\
    saves_to lc3 (record "d") w3 3
      (set_lastDirId (set_recordCount (started 2) 4) 3)
      (saved "T/01" "a.xml" ++ saved "T/02" "b.xml" ++
       saved "T/02" "c.xml" ++ saved "T/03" "d.xml").
Proof.
  repeat (split; [reflexivity|]).
  apply (rotation_with_maxDirSize_2 (started 2) (record "a") (record "b")
           (record "c") (record "d") []); reflexivity.
Defined.


Lemma call_witness :
  ArgsEvaluate (record "a") [literal "x"] [] [Some (RSString "x")] [] /\
  call_Evaluate (Some xp_no_args) (record "a") []
  = (Return (None, Some xp_arity_error), []) /\
  Evaluate (RSExprFnCall never_called ([literal "x"] ++ Some xp_no_args :: [literal "y"]))
    (record "a") []
  = (Return (None, Some xp_arity_error), []).
Proof.
  assert (ArgsEvaluate (record "a") [literal "x"] [] [Some (RSString "x")] []) as H
    by (econstructor; [reflexivity|constructor]).
  split; [exact H|]. split; [reflexivity|].
  apply (proj1 (proj2 Evaluate_literal_and_call) never_called [literal "x"]
           (Some xp_no_args) [literal "y"] (record "a") [] [Some (RSString "x")] []
           None xp_arity_error [] H).
  reflexivity.
Defined.

Lemma filename_witness :
  filenameFilterAst (set_filenameFilterAst (started 2) (Some xp_no_args))
  = Some xp_no_args /\
  Evaluate xp_no_args (record "a") [] = (Return (None, Some xp_arity_error), []) /\
  exists logs, only_logs logs /\
    saveRecordToDir (set_filenameFilterAst (started 2) (Some xp_no_args)) 1
      (record "a") []
    = writes_file (set_filenameFilterAst (started 2) (Some xp_no_args)) 1
        (chosen_filename (None, Some xp_arity_error) (record "a")) (record "a")
        ([] ++ logs).
Proof.
  split; [reflexivity|]. split; [reflexivity|].
  apply (proj1 (proj2 (saveRecordToDir_filename
                  (set_filenameFilterAst (started 2) (Some xp_no_args)) 1
                  (record "a") [])) xp_no_args); reflexivity.
Defined.


(** The parse of [foo()]: the error of the unknown function [foo]. *)
Lemma parse_foo :
  ParseRSExpr_tokens [(scanner.Ident, "foo"); (rune_lparen, "("); (rune_rparen, ")")]
  = Some ((None, Some (unknown_function "foo")),
          {| scan := [(rune_rparen, ")")]; tok := rune_lparen; tokText := "(" |}).
Proof. reflexivity. Qed.

Lemma dry_run_witness :
  dryRun (set_dryRun (started 2) true) = true /\
  (forall dirId, closeDir (set_dryRun (started 2) true) dirId [] = (Return tt, [])) /\
  side_effects (saveRecord (set_dryRun (started 2) true) (record "a") []).2
  = side_effects [] /\
  (forall harvester,
     side_effects (harvestWithHarvester (set_dryRun (started 2) true) harvester []).2
     = side_effects []) /\
  (maxDirSize (set_dryRun (started 2) true) <> 0 ->
   exists lc' w',
     saveRecord (set_dryRun (started 2) true) (record "a") [] = (Return lc', w') /\
     recordCount lc' = GoInt.add (recordCount (set_dryRun (started 2) true)) 1 /\
     forall lcn wn,
       saveRecord (set_dryRun (set_dryRun (started 2) true) false) (record "a") []
       = (Return lcn, wn) ->
       recordCount lcn = recordCount lc' /\ lastDirId lcn = lastDirId lc') /\
  (maxDirSize (set_dryRun (started 2) true) <> 0 ->
   GoInt.in_range (recordCount (set_dryRun (started 2) true)) ->
   forall harvester,
   exists lc' w',
     harvestWithHarvester (set_dryRun (started 2) true) harvester [] = (Return lc', w') /\
     recordCount lc'
     = GoInt.wrap (recordCount (set_dryRun (started 2) true)
                   + Z.of_nat (admitted harvester))).
Proof.
  split; [reflexivity|].
  apply (dry_run_writes_nothing (set_dryRun (started 2) true) (record "a") []).
  reflexivity.
Defined.

(** C8 as stated fails: with the directory size -1, [Run] saves the first
    record into the directory 00 and the second into the directory -1; the
    ids go from 1 to 0 to -1. *)
Lemma run_with_negative_size :
  Run (command (-1)) [CallOnRecord (record "a"); CallOnRecord (record "b")] []
  = (Return (set_lastDirId (set_recordCount
               (set_dirPrefix (command (-1)) "20240101T000000") 2) (-1)),
     saved "20240101T000000/00" "a.xml" ++ saved "20240101T000000/-1" "b.xml") /\
  targetDirIds (started (-1)) [CallOnRecord (record "a"); CallOnRecord (record "b")] []
  = [0; -1].
Proof. split; vm_compute; reflexivity. Qed.

Lemma increase_witness :
  0 < maxDirSize (started 2) /\ 0 <= recordCount (started 2) /\
  lastDirId (started 2) = 1 /\
  recordCount (started 2) + Z.of_nat (length four_records) < GoInt.max_int /\
  let ids := lastDirId (started 2) :: targetDirIds (started 2) four_records [] in
  StronglySorted Z.le ids /\
  forall l1 a b l2, ids = l1 ++ a :: b :: l2 -> a <> b ->
                    Forall (fun c => a < c) (b :: l2).
Proof.
  split; [reflexivity|]. split; [discriminate|]. split; [reflexivity|].
  split; [reflexivity|].
  apply (proj1 (proj2 directory_ids_increase) (started 2) four_records []);
    reflexivity || discriminate.
Defined.

(** The ids of the run of four records. *)
Lemma ids_of_four_records :
  targetDirIds (started 2) four_records [] = [1; 2; 2; 3].
Proof. vm_compute. reflexivity. Qed.

Lemma search_witness :
  Evaluate xp_no_args (record "a") [] = (Return (None, Some xp_arity_error), []) /\
  SearchRecord (mkExprRecordSearcher (Some xp_no_args)) (record "a") []
  = (Return (false, "", Some xp_arity_error), []).
Proof.
  split; [reflexivity|].
  apply (SearchRecord_fails_closed xp_no_args (record "a") [] None xp_arity_error []).
  reflexivity.
Defined.


(** The same on the texts, with the tokens of the sample scanner. *)
Lemma urn_then_parenthesis_text :
  ParseRSExpr "urn" = (Some (RSExprFnCall native_urn []), None) /\
  ParseRSExpr "urn(" = (None, Some (Errorf ("Expected string but got EOF" +:+ newline))) /\
  ParseRSExpr "urn, urn" = (Some (RSExprFnCall native_urn []), None) /\
  ParseRSExpr "urn )" = (Some (RSExprFnCall native_urn []), None).
Proof. repeat split. Qed.


(** An opening parenthesis that is not closed is reported as a missing
    comma. *)
Lemma unclosed_call :
  ParseRSExpr "concat(`a`" = (None, Some (etoken rune_comma scanner.EOF)) /\
  ParseRSExpr "concat(`a` `b`)" = (None, Some (etoken rune_comma scanner.RawString)) /\
  ParseRSExpr "(" = (None, Some (Errorf ("Expected string but got " +:+
                                        token_string rune_lparen +:+ newline))) /\
  ParseRSExpr "" = (None, Some (Errorf ("Expected string but got EOF" +:+ newline))).
Proof. repeat split. Qed.

Lemma concat_is_phrase : Expr concat_tokens concat_call.
Proof.
  apply (Expr_call "concat" native_concat "(" [(scanner.RawString, "`a`")]
           (RSExprLiteral (Some (RSString "a"))) [(rune_comma, ","); urn_token]
           [Some (RSExprFnCall native_urn [])] ")").
  - reflexivity.
  - apply Expr_atom; [by right|reflexivity].
  - apply (More_cons "," [urn_token] (RSExprFnCall native_urn []) [] []).
    + by apply Expr_bare.
    + apply More_nil.
Qed.

Lemma grammar_witness :
  Expr concat_tokens concat_call /\ no_EOF [urn_token] /\ no_lparen_first [urn_token] /\
  exists rsp,
    ParseRSExpr_tokens (concat_tokens ++ [urn_token]) = Some ((Some concat_call, None), rsp) /\
    pending rsp = [urn_token].
Proof.
  assert (no_EOF [urn_token]) as Hs by (repeat constructor; discriminate).
  split; [exact concat_is_phrase|]. split; [exact Hs|]. split; [discriminate|].
  apply (grammar_is_accepted concat_tokens concat_call [urn_token] concat_is_phrase Hs).
  discriminate.
Defined.

Lemma accepted_witness :
  no_EOF (concat_tokens ++ [urn_token]) /\
  ParseRSExpr_tokens (concat_tokens ++ [urn_token])
  = Some ((Some concat_call, None), before_urn) /\
  exists toks, concat_tokens ++ [urn_token] = toks ++ pending before_urn /\
               Expr toks concat_call.
Proof.
  assert (no_EOF (concat_tokens ++ [urn_token])) as Hs
    by (repeat constructor; discriminate).
  split; [exact Hs|]. split; [reflexivity|].
  apply (accepted_is_grammar (concat_tokens ++ [urn_token]) concat_call before_urn Hs).
  reflexivity.
Defined.

Lemma string_witness :
  ParseRSExpr_tokens concat_tokens = Some ((Some concat_call, None), at_end) /\
  ((exists s, returns (Evaluate concat_call (record "b")) (Some (RSString s), None) /\
              (Bool (RSString s) = true <-> s <> "")) \/
   (exists e, returns (Evaluate concat_call (record "b")) (None, Some e))).
Proof.
  split; [reflexivity|].
  apply (parsed_evaluates_to_string concat_tokens concat_call at_end (record "b")).
  reflexivity.
Defined.

(** The value of [concat(`a`, urn)] on the record [b]. *)
Lemma concat_of_a_and_urn :
  Evaluate concat_call (record "b") [] = (Return (Some (RSString "ab"), None), []).
Proof. reflexivity. Qed.

(** Searches with parsed expressions. *)
Lemma searches_of_texts :
  ParseRecordMatchExpr "startsWith(urn, `oai:`)"
  = (Some (mkExprRecordSearcher
             (Some (RSExprFnCall native_startsWith
                      [Some (RSExprFnCall native_urn []); literal "oai:"]))), None) /\
  (forall ers, ParseRecordMatchExpr "startsWith(urn, `oai:`)" = (Some ers, None) ->
     SearchRecord ers (record "oai:1") [] = (Return (true, "oai:1", None), []) /\
     SearchRecord ers (record "x:1") [] = (Return (false, "", None), [])) /\
  ParseRecordMatchExpr "startsWith(urn" = (None, Some (etoken rune_comma scanner.EOF)).
Proof.
  split; [reflexivity|]. split; [|reflexivity].
  intros ers [= <-]. split; reflexivity.
Qed.

(** The functions on some strings. *)
Lemma natives_on_strings :
  native_concat (record "r") [Some (RSString "a"); Some (RSBool true); Some (RSString "b")] []
  = (Return (Some (RSString "atrueb"), None), []) /\
  native_startsWith (record "r") [Some (RSString "oai:1"); Some (RSString "oai:")] []
  = (Return (Some (RSString "oai:1"), None), []) /\
  native_startsWith (record "r") [Some (RSString "x:1"); Some (RSString "oai:")] []
  = (Return (Some (RSString ""), None), []) /\
  native_contains (record "r") [Some (RSString "x:oai:1"); Some (RSString "oai:")] []
  = (Return (Some (RSString "x:oai:1"), None), []) /\
  native_contains (record "r") [Some (RSString "x:1"); Some (RSString "oai:")] []
  = (Return (Some (RSString ""), None), []) /\
  native_startsWith (record "r") [Some (RSBool false); Some (RSString "fa")] []
  = (Return (Some (RSBool false), None), []).
Proof. repeat split. Qed.

Lemma dirName_witness :
  1 <> 2 /\
  dirName (started 2) 1 <> dirName (started 2) 2 /\
  atoi (GoStrings.fmt_02d 1) = 1 /\ atoi (GoStrings.fmt_02d 2) = 2.
Proof.
  split; [discriminate|]. apply (dirName_distinct (started 2) 1 2). discriminate.
Defined.

(** The names of some directories. *)
Lemma names_of_directories :
  dirName (started 2) 1 = "T/01" /\ dirName (started 2) 10 = "T/10" /\
  dirName (started 2) 100 = "T/100" /\ dirName (started 2) (-1) = "T/-1" /\
  dirName (started 2) 0 = "T/00".
Proof. repeat split. Qed.

Lemma leaves_witness :
  GoInt.in_range (recordCount (started 2)) /\
  harvestWithHarvester (started 2) four_records [] = (Return after_four, four_saved) /\
  after_four = after_records (started 2) (admitted four_records).
Proof.
  assert (GoInt.in_range (recordCount (started 2))) as Hr by (split; discriminate).
  split; [exact Hr|]. split; [reflexivity|].
  apply (harvest_leaves four_records (started 2) [] after_four four_saved Hr).
  reflexivity.
Defined.

Lemma nth_witness :
  0 < maxDirSize (started 2) /\ 0 <= recordCount (started 2) /\
  recordCount (started 2) + Z.of_nat (length four_records) < GoInt.max_int /\
  targetDirIds (started 2) four_records [] !! 3%nat = Some 3 /\
  3 = (recordCount (started 2) + Z.of_nat 3 + 1) / maxDirSize (started 2) + 1.
Proof.
  split; [reflexivity|]. split; [discriminate|]. split; [reflexivity|].
  split; [reflexivity|].
  apply (nth_record_directory four_records (started 2) [] 3%nat 3);
    reflexivity || discriminate.
Defined.

Lemma capacity_witness :
  0 < maxDirSize (started 2) /\ 0 <= recordCount (started 2) /\
  recordCount (started 2) + Z.of_nat (length four_records) < GoInt.max_int /\
  records_in 2 (targetDirIds (started 2) four_records []) <= maxDirSize (started 2) /\
  (recordCount (started 2) = 0 ->
   records_in 1 (targetDirIds (started 2) four_records []) <= maxDirSize (started 2) - 1).
Proof.
  split; [reflexivity|]. split; [discriminate|]. split; [reflexivity|].
  apply (directory_capacity (started 2) four_records [] 2);
    reflexivity || discriminate.
Defined.

(** The run of four records fills the directories as far as they go. *)
Lemma records_of_four :
  records_in 1 (targetDirIds (started 2) four_records []) = 1 /\
  records_in 2 (targetDirIds (started 2) four_records []) = 2 /\
  records_in 3 (targetDirIds (started 2) four_records []) = 1.
Proof. repeat split. Qed.


(** The run with a filter that does not parse, and with one that does. *)
Lemma runs_with_filters :
  Run (filtered "nosuch(urn)") four_records []
  = (Exit 1, [LogPrint "Error in filename filter: No such function: nosuch"]) /\
  Run (filtered "concat(`r-`, urn)") [CallOnRecord (record "a")] []
  = (Return (set_lastDirId (set_recordCount
               (set_dirPrefix
                  (set_filenameFilterAst (filtered "concat(`r-`, urn)")
                     (Some (RSExprFnCall native_concat
                              [literal "r-"; Some (RSExprFnCall native_urn [])])))
                  "20240101T000000") 1) 1),
     saved "20240101T000000/01" "r-a.xml").
Proof. split; vm_compute; reflexivity. Qed.

Lemma closes_witness :
  0 < maxDirSize compressing /\ 0 <= recordCount compressing /\
  recordCount compressing + Z.of_nat (length four_records) < GoInt.max_int /\
  filenameFilterAst compressing = None /\
  let lc0 := set_dirPrefix compressing (time_Now_Format []) in
  exists events,
    (Run compressing four_records []).2 = [] ++ events /\
    closed_for_good lc0 events /\
    Forall (fun e => is_mkdir e = true ->
              exists dirId, e = OsMkdirAll (dirName lc0 dirId) 493) events.
Proof.
  split; [reflexivity|]. split; [discriminate|]. split; [reflexivity|].
  split; [reflexivity|].
  apply (Run_closes_for_good compressing four_records []);
    reflexivity || discriminate.
Defined.

(** The run that compresses: each directory is handed to [zip] after the
    last record that goes to it. *)
Lemma run_that_compresses :
  side_effects (Run compressing four_records []).2
  = saved "20240101T000000/01" "a.xml" ++
    [zip_launch (set_dirPrefix compressing "20240101T000000") 1] ++
    saved "20240101T000000/02" "b.xml" ++ saved "20240101T000000/02" "c.xml" ++
    [zip_launch (set_dirPrefix compressing "20240101T000000") 2] ++
    saved "20240101T000000/03" "d.xml" ++
    [zip_launch (set_dirPrefix compressing "20240101T000000") 3].
Proof. vm_compute. reflexivity. Qed.

Lemma compresses_witness :
  filenameFilterAst compressing = None /\ dryRun compressing = false /\
  compressDirs compressing = true /\
  Run compressing four_records []
  = (Return (set_lastDirId
               (set_recordCount (set_dirPrefix compressing "20240101T000000") 4) 3),
     (Run compressing four_records []).2) /\
  let lc0 := set_dirPrefix compressing (time_Now_Format []) in
  exists events,
    (Run compressing four_records []).2 = [] ++ events /\
    zip_launch lc0 3 ∈ events /\
    forall dirId, writes_to lc0 dirId events -> zip_launch lc0 dirId ∈ events.
Proof.
  split; [reflexivity|]. split; [reflexivity|]. split; [reflexivity|].
  split; [vm_compute; reflexivity|].
  apply (Run_compresses_every_directory compressing four_records []
           (set_lastDirId
              (set_recordCount (set_dirPrefix compressing "20240101T000000") 4) 3)
           (Run compressing four_records []).2);
    [reflexivity | reflexivity | reflexivity | vm_compute; reflexivity].
Defined.

Lemma writes_witness :
  filter_ok (started 2) /\ dryRun (started 2) = false /\
  harvestWithHarvester (started 2) four_records [] = (Return after_four, four_saved) /\
  exists events,
    four_saved = [] ++ events /\
    written_contents events = Content <$> delivered four_records.
Proof.
  split; [exact I|]. split; [reflexivity|]. split; [reflexivity|].
  apply (harvest_writes_every_record four_records (started 2) [] after_four four_saved);
    [exact I|reflexivity|reflexivity].
Defined.


Lemma set_witness :
  parseDateString (afterDate (selection "*" "" false)) [] = (Return "2024-01-01", []) /\
  parseDateString (beforeDate (selection "*" "" false)) [] = (Return "2024-02-01", []) /\
  genListIdentifierArgsFromCommandLine (selection "*" "" false) []
  = (Return {| Set_ := selected_set (selection "*" "" false);
               From := "2024-01-01"; Until := "2024-02-01" |}, []) /\
  (setName (selection "*" "" false) <> "" -> setName (selection "*" "" false) <> "*" ->
   selected_set (selection "*" "" false) = setName (selection "*" "" false)) /\
  (setName (selection "*" "" false) = "*" -> selected_set (selection "*" "" false) = "") /\
  (selected_set (selection "*" "" false) = "*" ->
   setName (selection "*" "" false) = "" /\
   Ctx_Provider_Set (selection "*" "" false) = "*").
Proof.
  split; [reflexivity|]. split; [reflexivity|].
  apply (genListIdentifierArgs_set (selection "*" "" false) [] "2024-01-01" []
           "2024-02-01" []); reflexivity.
Defined.

(** The sets that the flags select. *)
Lemma sets_selected :
  selected_set (selection "" "" false) = "physics" /\
  selected_set (selection "*" "" false) = "" /\
  selected_set (selection "math" "" false) = "math".
Proof. repeat split. Qed.

Lemma file_witness :
  fromFile (selection "math" "ids.txt" false) <> "" /\
  same_for_file (selection "math" "ids.txt" false) (selection "*" "ids.txt" true) /\
  harvest calls (started 2) (selection "math" "ids.txt" false) []
  = harvest calls (started 2) (selection "*" "ids.txt" true) [] /\
  harvest calls (started 2) (selection "math" "ids.txt" false) []
  = (parseDateString (afterDate (selection "math" "ids.txt" false)) ≫= fun _ =>
     parseDateString (beforeDate (selection "math" "ids.txt" false)) ≫= fun _ =>
     harvestWithHarvester (started 2)
       (calls (FileHarvester (Ctx_Session (selection "math" "ids.txt" false))
                 (fromFile (selection "math" "ids.txt" false))
                 (firstResult (selection "math" "ids.txt" false))
                 (maxResults (selection "math" "ids.txt" false))
                 (downloadWorkers (selection "math" "ids.txt" false))
                 LiveRecordsPredicate))) [].
Proof.
  assert (same_for_file (selection "math" "ids.txt" false) (selection "*" "ids.txt" true))
    as Hsame by (repeat split).
  split; [discriminate|]. split; [exact Hsame|].
  apply (harvest_from_file calls (started 2) (selection "math" "ids.txt" false)
           (selection "*" "ids.txt" true) []); [discriminate|exact Hsame].
Defined.

End Examples.
